(** * LazyScheduler: admission control, asynchronous handles and diagnostics

    A shallow embedding of [torch/_lazy_scheduler/lazy_scheduler.py]:
    the execution recorder and the [debug] diagnostics, the
    [AsyncFuncHandle] protocol ([schedule], [wait_for_completion]) and the
    admission-control walk of [LazyScheduler.maybe_run].

    Python objects that are mutated in place and shared (handles, the
    placeholders they own, the scheduler) live in an explicit store that is
    threaded through every operation.  Exceptions are results that keep the
    store as it was when they were raised.  A computation that never
    returns (a [while] loop that makes no progress, unbounded recursion) has
    no result for any amount of fuel. *)

From stdpp Require Import gmap strings list pretty.

(** ** Python lists of segment names *)

Module PyList.

(** [l.index(x)]: position of the first occurrence, [None] standing for the
    [ValueError] Python raises when [x] is absent. *)
Definition index (x : string) (l : list string) : option nat :=
  fst <$> list_find (λ y, y = x) l.

(** [l.remove(x)]: drops the first occurrence, [None] standing for the
    [ValueError] Python raises when [x] is absent. *)
Definition remove (x : string) (l : list string) : option (list string) :=
  i ← index x l; Some (delete i l).

(** [list(enumerate(l))] *)
Definition enumerate (l : list string) : list (nat * string) :=
  imap (λ i x, (i, x)) l.

(** [set(a) == set(b)] *)
Definition set_eqb (a b : list string) : bool :=
  bool_decide (list_to_set a =@{gset string} list_to_set b).

End PyList.

(** ** Exceptions *)

(** The text of the two reports [debug] raises, kept as the values the
    f-strings interpolate.  An issue is the schedule, the recorded order and
    the best guess on the dependencies. *)
Inductive Report :=
  | MismatchReport (schedule recorded : list string)
  | DebugModeReport (issues : list (list string * list string * string))
                    (delayed inplace_ops shared_state : gset string).

Inductive Exn :=
  | RuntimeError_report (r : Report)
  | RuntimeError_not_scheduled
  | AssertionError
  | ValueError
  | IndexError
  | TypeError
  | AttributeError.

(** ** Segment names *)

Definition unnamed_segment_prefix : string := "__unnamed_".
Definition unregistered_named_segment_prefix : string := "__unregistered_".

(** [s.startswith(p)] *)
Definition startswith (s p : string) : bool := String.prefix p s.

(** ** The best-effort reverse scan of [debug] *)

Module Diagnostics.

(** The [dependencies] dict: insertion-ordered, assignment to a key that
    is present keeps its position. *)
Definition Deps := list (string * (option string * string)).

Fixpoint dict_set (k : string) (v : option string * string) (d : Deps) : Deps :=
  match d with
  | [] => [(k, v)]
  | (k', v') :: d' =>
      if decide (k' = k) then (k, v) :: d' else (k', v') :: dict_set k v d'
  end.

(** State of the [while] loop. *)
Record Scan := {
  dependencies : Deps;
  schedule : list string;
  recorded_execution_order : list string;
}.

(** What one run of the inner [for] loop does. *)
Inductive ForOutcome :=
  | Raised (e : Exn)
  | NoBreak                (* the loop ran to its end: nothing changed *)
  | Break (s : Scan).      (* an early segment was found and removed *)

(** The body of the [if]: executed for the first early segment met. *)
Definition early_found (s : Scan) (seg : string) (i : nat) : ForOutcome :=
  let rec := recorded_execution_order s in
  match rec !! (i + 1) with
  | None => Raised IndexError
  | Some dep_seg =>
      let dep_seg_prev := if decide (1 ≤ i) then rec !! (i - 1) else None in
      let deps := dict_set seg (dep_seg_prev, dep_seg) (dependencies s) in
      match PyList.remove seg (schedule s) ≫= PyList.remove dep_seg,
            PyList.remove seg rec ≫= PyList.remove dep_seg with
      | Some sch', Some rec' =>
          Break {| dependencies := deps; schedule := sch';
                   recorded_execution_order := rec' |}
      | _, _ => Raised ValueError
      end
  end.

(** [for index, seg in reversed(list(enumerate(schedule)))]; the argument
    is that reversed list. *)
Fixpoint for_reversed (s : Scan) (todo : list (nat * string)) : ForOutcome :=
  match todo with
  | [] => NoBreak
  | (index, seg) :: todo' =>
      match PyList.index seg (recorded_execution_order s) with
      | None => Raised ValueError
      | Some i =>
          if decide (i < index) then early_found s seg i
          else for_reversed s todo'
      end
  end.

Definition for_loop (s : Scan) : ForOutcome :=
  for_reversed s (reverse (PyList.enumerate (schedule s))).

(** [while schedule != recorded_execution_order]: [fuel] bounds the number
    of iterations, [None] is a loop that is still running when it is
    used up. *)
Fixpoint while_loop (fuel : nat) (s : Scan) : option (Exn + Deps) :=
  if decide (schedule s = recorded_execution_order s) then
    Some (inr (dependencies s))
  else
    match fuel with
    | 0 => None
    | S fuel' =>
        match for_loop s with
        | Raised e => Some (inl e)
        | NoBreak => while_loop fuel' s
        | Break s' => while_loop fuel' s'
        end
    end.

Definition dep_msg (d : string * (option string * string)) : string :=
  let '(delayed_seg, (dep_seg_prev, dep_seg)) := d in
  match dep_seg_prev with
  | None =>
      "- The code starting from end of `" +:+ delayed_seg +:+
      "` (exclusive) to end of `" +:+ dep_seg +:+
      "` (inclusive) depends on output of `" +:+ delayed_seg +:+ "`"
  | Some prev =>
      "- The code starting from end of `" +:+ prev +:+
      "` (exclusive) to end of `" +:+ dep_seg +:+
      "` (inclusive) depends on output of `" +:+ delayed_seg +:+ "`"
  end.

Definition newline : string := String (Ascii.ascii_of_nat 10) EmptyString.

(** ["\n".join(msgs)] *)
Fixpoint join_lines (msgs : list string) : string :=
  match msgs with
  | [] => ""
  | [m] => m
  | m :: ms => m +:+ newline +:+ join_lines ms
  end.

Definition find_delayed_seg_dependencies_best_effort
    (fuel : nat) (schedule_orig recorded_execution_order_orig : list string)
    : option (Exn + string) :=
  if decide (length schedule_orig = length recorded_execution_order_orig) then
    r ← while_loop fuel {| dependencies := [];
                           schedule := schedule_orig;
                           recorded_execution_order := recorded_execution_order_orig |};
    Some (match r with
          | inl e => inl e
          | inr deps => inr (join_lines (dep_msg <$> deps))
          end)
  else Some (inl AssertionError).

End Diagnostics.


(** ** Segment names and the declared segments *)

Module Naming.

(** [s.endswith(suffix)] *)
Definition endswith (s suffix : string) : bool :=
  let l := String.list_ascii_of_string s in
  let ls := String.list_ascii_of_string suffix in
  bool_decide (drop (length l - length ls) l = ls).

(** [s[:-4]]: everything but the last four characters, the empty string
    when there are fewer. *)
Definition drop_last4 (s : string) : string :=
  let l := String.list_ascii_of_string s in
  String.string_of_list_ascii (take (length l - 4) l).

(** [compute_segment_name] *)
Definition compute_segment_name (segment_prefix : string) (is_backward : bool) : string :=
  if is_backward then segment_prefix +:+ "_bwd" else segment_prefix +:+ "_fwd".

(** The [Segment] dataclass; [nn_method] is the identity of the bound
    method, [backend] may be [None]. *)
Record Segment := {
  name : string;
  nn_method : nat;
  nth_call : nat;
  backend : option string;
}.

(** The two attributes [_prepare_segments] fills. *)
Record Tables := {
  _method_to_segment_prefix_map : gmap nat string;
  _segment_prefix_to_backend : gmap string (option string);
}.

(** First loop of [_prepare_segments]: a missing backend becomes the
    default one, in the segment itself. *)
Definition with_default_backend (default_backend : string) (s : Segment) : Segment :=
  match backend s with
  | None => {| name := name s; nn_method := nn_method s; nth_call := nth_call s;
               backend := Some default_backend |}
  | Some _ => s
  end.

(** [segment_name_to_segment]: a later segment of the same name replaces
    an earlier one. *)
Definition segment_name_to_segment (segments : list Segment) : gmap string Segment :=
  foldl (λ m s, <[name s := s]> m) ∅ segments.

(** The body of the second loop for one segment; [Some AssertionError] is
    a failed [assert], with the tables as they are then. *)
Definition prepare_segment (by_name : gmap string Segment) (t : Tables) (s : Segment)
    : Tables * option Exn :=
  if startswith (name s) unnamed_segment_prefix then (t, Some AssertionError)
  else if startswith (name s) unregistered_named_segment_prefix then (t, Some AssertionError)
  else if negb (endswith (name s) "_fwd" || endswith (name s) "_bwd")
  then (t, Some AssertionError)
  else
    let segment_prefix := drop_last4 (name s) in
    let backend_ok :=
      if bool_decide (backend s = Some "eager") then
        endswith (name s) "_fwd"
        && bool_decide (by_name !! (segment_prefix +:+ "_bwd") = None)
      else
        match by_name !! (segment_prefix +:+ "_fwd"),
              by_name !! (segment_prefix +:+ "_bwd") with
        | Some f, Some b => bool_decide (backend f = backend b)
        | _, _ => true
        end in
    if negb backend_ok then (t, Some AssertionError)
    else
      match _method_to_segment_prefix_map t !! nn_method s with
      | Some p =>
          if bool_decide (p = segment_prefix) then
            ({| _method_to_segment_prefix_map := _method_to_segment_prefix_map t;
                _segment_prefix_to_backend :=
                  <[segment_prefix := backend s]> (_segment_prefix_to_backend t) |}, None)
          else (t, Some AssertionError)
      | None =>
          ({| _method_to_segment_prefix_map :=
                <[nn_method s := segment_prefix]> (_method_to_segment_prefix_map t);
              _segment_prefix_to_backend :=
                <[segment_prefix := backend s]> (_segment_prefix_to_backend t) |}, None)
      end.

(** The second loop. *)
Fixpoint prepare_loop (by_name : gmap string Segment) (t : Tables)
    (segments : list Segment) : Tables * option Exn :=
  match segments with
  | [] => (t, None)
  | s :: segments' =>
      match prepare_segment by_name t s with
      | (t', None) => prepare_loop by_name t' segments'
      | failed => failed
      end
  end.

(** [LazyScheduler._prepare_segments]: the segments with their backends
    filled in, the tables, and the failed [assert] if there is one. *)
Definition _prepare_segments (default_backend : string) (segments : list Segment)
    (t : Tables) : list Segment * Tables * option Exn :=
  let segments := with_default_backend default_backend <$> segments in
  let r := prepare_loop (segment_name_to_segment segments) t segments in
  (segments, r.1, r.2).

(** The name [_compile_fx_inner_for_graph_in_segment] gives the graph of a
    segment: the prefix it ends with, the segment name, and whether
    [next_unnamed_segment_id] is incremented.  A named prefix whose segment
    name the user did not declare becomes an "unregistered" one. *)
Definition graph_segment_name (user_specified_segment_names : gset string)
    (segment_prefix : string) (is_backward : bool) : string * string * bool :=
  let segment_name := compute_segment_name segment_prefix is_backward in
  if negb (startswith segment_prefix unnamed_segment_prefix)
     && bool_decide (segment_name ∉ user_specified_segment_names)
  then
    let segment_prefix := unregistered_named_segment_prefix +:+ segment_prefix in
    (segment_prefix, compute_segment_name segment_prefix is_backward, true)
  else (segment_prefix, segment_name, false).

(** The test of [get_recorded_execution_order] on one name. *)
Definition is_user_visible (s : string) : bool :=
  negb (startswith s "__unnamed_") && negb (startswith s "__unregistered_").


(** The character [#]. *)
Definition is_hash (a : Ascii.ascii) : bool := Ascii.eqb a (Ascii.ascii_of_nat 35).

(** [s.split("###")]: the pieces between the occurrences of the separator,
    found from left to right without overlap; [cur] is the piece being
    read, last character first. *)
Fixpoint split_hashes (cur : list Ascii.ascii) (l : list Ascii.ascii)
    : list (list Ascii.ascii) :=
  match l with
  | [] => [reverse cur]
  | a :: l1 =>
      match l1 with
      | b :: c :: l3 =>
          if is_hash a && is_hash b && is_hash c
          then reverse cur :: split_hashes [] l3
          else split_hashes (a :: cur) l1
      | _ => split_hashes (a :: cur) l1
      end
  end.

(** [extract_method_name]: [formatted_name.split("###")[-1]] *)
Definition extract_method_name (formatted_name : string) : string :=
  String.string_of_list_ascii
    (default [] (last (split_hashes [] (String.list_ascii_of_string formatted_name)))).

(** The [__name__] [_register_segment] gives the patched method. *)
Definition compiled_wrapper_name (class_name method_name : string) : string :=
  "_compiled_wrapper###" +:+ class_name +:+ "###" +:+ method_name.

(** A name without [#], as every Python identifier is. *)
Definition no_hash (s : string) : Prop :=
  Forall (λ a, is_hash a = false) (String.list_ascii_of_string s).

(** [self._segment_prefix_to_backend.get(segment_prefix, self._default_backend)]
    of [_compile_fx_for_graph_in_segment]; the prefix is [None] for a graph
    without call nodes. *)
Definition compile_backend (default_backend : string) (t : Tables)
    (segment_prefix : option string) : option string :=
  match segment_prefix with
  | Some p => default (Some default_backend) (_segment_prefix_to_backend t !! p)
  | None => Some default_backend
  end.

End Naming.

(** ** Graphs as the scheduler reads them *)

Module Graph.

(** A node of [gm.graph.nodes]: its [op], [str(node.target)], and the
    three keys of [node.meta] the scheduler reads and writes. *)
Record Node := {
  op : string;
  target : string;
  segment_prefix : option string;
  nn_module_method : option nat;
  segment : option string;
}.

Inductive Error := AssertionFailed | KeyError | ValueError.

(** [is_call_func_node] *)
Definition is_call_func_node (node : Node) : bool :=
  bool_decide (op node = "call_function")
  || bool_decide (op node = "call_method")
  || bool_decide (op node = "call_module").

Definition set_segment_prefix (p : string) (node : Node) : Node :=
  {| op := op node; target := target node; segment_prefix := Some p;
     nn_module_method := nn_module_method node; segment := segment node |}.

(** [not segment_prefix]: [None] and the empty string are false values. *)
Definition falsy (p : option string) : bool :=
  match p with
  | None => true
  | Some s => bool_decide (s = "")
  end.

(** The loop of [extract_segment_prefix_from_gm], from the value
    [segment_prefix] has. *)
Fixpoint extract_loop (segment_prefix0 : option string) (nodes : list Node)
    : Error + option string :=
  match nodes with
  | [] => inr segment_prefix0
  | node :: nodes' =>
      if is_call_func_node node then
        match segment_prefix node with
        | None => inl AssertionFailed
        | Some p =>
            if falsy segment_prefix0 then extract_loop (Some p) nodes'
            else if bool_decide (segment_prefix0 = Some p)
                 then extract_loop segment_prefix0 nodes'
                 else inl AssertionFailed
        end
      else extract_loop segment_prefix0 nodes'
  end.

(** [extract_segment_prefix_from_gm] *)
Definition extract_segment_prefix_from_gm (nodes : list Node) : Error + option string :=
  extract_loop None nodes.

(** [apply_segment_prefix] *)
Definition apply_segment_prefix (nodes : list Node) (p : string) : list Node :=
  set_segment_prefix p <$> nodes.

(** The [for] loop of [segment_prefix_assignment_fn] (the function first
    runs [remove_generated_wait_if_explicit_wait_exists], graph surgery of
    [torch.fx] on the arguments of [wait_tensor] nodes; the loop iterates
    over the nodes the graph has after it, and reads only [op] and [meta]).
    The state is [in_unnamed_segment], which the function starts at [False],
    and the global [next_unnamed_segment_id]; the result is the nodes, those
    after a failed [assert] untouched. *)
Fixpoint assign_loop (method_to_segment_prefix_map : gmap nat string)
    (in_unnamed_segment : bool) (next_unnamed_segment_id : nat)
    (nodes : list Node) : list Node * nat * option Error :=
  match nodes with
  | [] => ([], next_unnamed_segment_id, None)
  | node :: nodes' =>
      if is_call_func_node node then
        match nn_module_method node with
        | None => (node :: nodes', next_unnamed_segment_id, Some AssertionFailed)
        | Some m =>
            match method_to_segment_prefix_map !! m with
            | Some p =>
                let id := if in_unnamed_segment then next_unnamed_segment_id + 1
                          else next_unnamed_segment_id in
                let '(rest, id', e) :=
                  assign_loop method_to_segment_prefix_map false id nodes' in
                (set_segment_prefix p node :: rest, id', e)
            | None =>
                let '(rest, id', e) :=
                  assign_loop method_to_segment_prefix_map true
                    next_unnamed_segment_id nodes' in
                (set_segment_prefix
                   (unnamed_segment_prefix +:+ pretty next_unnamed_segment_id) node
                   :: rest, id', e)
            end
        end
      else
        let '(rest, id', e) :=
          assign_loop method_to_segment_prefix_map in_unnamed_segment
            next_unnamed_segment_id nodes' in
        (node :: rest, id', e)
  end.

(** [known_segments] of [split_module_based_on_segment_info]; the argument
    is the list so far.  [node.meta["segment_prefix"]] of a node without the
    key is a [KeyError]. *)
Fixpoint known_segments_loop (known_segments : list string) (nodes : list Node)
    : Error + list string :=
  match nodes with
  | [] => inr known_segments
  | node :: nodes' =>
      if is_call_func_node node then
        if bool_decide (length known_segments = 0) then
          match segment_prefix node with
          | None => inl KeyError
          | Some p => known_segments_loop (known_segments ++ [p]) nodes'
          end
        else
          match segment_prefix node with
          | None => inl KeyError
          | Some p =>
              if bool_decide (last known_segments ≠ Some p)
              then known_segments_loop (known_segments ++ [p]) nodes'
              else known_segments_loop known_segments nodes'
          end
      else known_segments_loop known_segments nodes'
  end.

Definition known_segments (nodes : list Node) : Error + list string :=
  known_segments_loop [] nodes.

(** [split_callback]: [known_segments.index(node.meta["segment_prefix"])] *)
Definition split_callback (known_segments : list string) (node : Node) : Error + nat :=
  match segment_prefix node with
  | None => inl KeyError
  | Some p =>
      match PyList.index p known_segments with
      | None => inl ValueError
      | Some i => inr i
      end
  end.


(** The call nodes the loop tells apart: those whose
    [nn_module_method] is a key of the map, and those whose is not. *)
Definition named_call (method_to_segment_prefix_map : gmap nat string)
    (node : Node) : bool :=
  is_call_func_node node
  && match nn_module_method node with
     | Some m => bool_decide (is_Some (method_to_segment_prefix_map !! m))
     | None => false
     end.

Definition unnamed_call (method_to_segment_prefix_map : gmap nat string)
    (node : Node) : bool :=
  is_call_func_node node
  && match nn_module_method node with
     | Some m => bool_decide (method_to_segment_prefix_map !! m = None)
     | None => false
     end.

End Graph.

(** ** The store: handles, placeholders, the scheduler *)

Section Scheduler.

(** Concrete tensors and their shape/type descriptors ("fake tensors") are
    opaque to the scheduler. *)
Context {Tensor Fake : Type}.
Variable zeros : Tensor.                  (* [torch.zeros([])] *)
Variable detach : Tensor → Tensor.        (* [x.detach()] *)
Variable from_tensor : Tensor → Fake.     (* [get_fake_mode().from_tensor(x)] *)

(** An argument of a graph call: a concrete tensor, or a reference to the
    [k]-th placeholder ([AsyncTensor]) created by handle [h].  Every
    [AsyncTensor] is created by the constructor of its handle, so the pair
    is its identity.  Arguments are never [None] (asserted by [maybe_run],
    by the constructor and twice by [schedule]). *)
Inductive Arg :=
  | ArgTensor (t : Tensor)
  | ArgAsync (h k : nat).

(** [torch.cuda.Event] *)
Record CudaEvent := { recorded : bool }.

Record AsyncTensor := {
  _fake_tensor : Fake;
  _handle : nat;
  _materialized_tensor : option Tensor;   (* the [TensorContainer] *)
}.

Record AsyncFuncHandle := {
  cuda_event : option CudaEvent;
  fn : list Tensor → Exn + list (option Tensor);
  args : list Arg;
  outs_fake : list (option Fake);
  outs_async : list AsyncTensor;
  outs : option (list (option Tensor));
  segment_name : string;
  args_materialized : option (list Tensor);
}.

(** A graph module: its identity as a Python object (the key of
    [_gm_to_handle_map]), [str(gm.graph)], and its replay on descriptors. *)
Record GraphModule := {
  gm_id : nat;
  graph : string;
  forward : list Fake → list (option Fake);
}.

Record LazyScheduler := {
  _schedule : list string;
  _gm_to_handle_map : gmap nat nat;
  _segment_to_gms_map : gmap string (list GraphModule);
  _recorded_execution_order : list string;
  _recorded_delayed : gset string;
  _has_inplace_op_segment_prefixes : gset string;
  _access_mod_attr_or_glb_var_segment_prefixes : gset string;
}.

(** The store.  [calls] logs every invocation of a wrapped callable: the
    handle, and the heap as it was at the call.  [stdout] is what [print]
    wrote. *)
Record World := {
  scheduler : LazyScheduler;
  heap : list AsyncFuncHandle;
  calls : list (nat * list AsyncFuncHandle);
  stdout : list string;
}.

(** *** Field updates *)

Definition set_cuda_event (e : option CudaEvent) (H : AsyncFuncHandle) :=
  {| cuda_event := e; fn := fn H; args := args H; outs_fake := outs_fake H;
     outs_async := outs_async H; outs := outs H;
     segment_name := segment_name H; args_materialized := args_materialized H |}.

Definition set_outs (o : option (list (option Tensor))) (H : AsyncFuncHandle) :=
  {| cuda_event := cuda_event H; fn := fn H; args := args H; outs_fake := outs_fake H;
     outs_async := outs_async H; outs := o;
     segment_name := segment_name H; args_materialized := args_materialized H |}.

Definition set_args_materialized (a : option (list Tensor)) (H : AsyncFuncHandle) :=
  {| cuda_event := cuda_event H; fn := fn H; args := args H; outs_fake := outs_fake H;
     outs_async := outs_async H; outs := outs H;
     segment_name := segment_name H; args_materialized := a |}.

Definition set_outs_async (ps : list AsyncTensor) (H : AsyncFuncHandle) :=
  {| cuda_event := cuda_event H; fn := fn H; args := args H; outs_fake := outs_fake H;
     outs_async := ps; outs := outs H;
     segment_name := segment_name H; args_materialized := args_materialized H |}.

Definition set_recorded_execution_order (l : list string) (s : LazyScheduler) :=
  {| _schedule := _schedule s; _gm_to_handle_map := _gm_to_handle_map s;
     _segment_to_gms_map := _segment_to_gms_map s;
     _recorded_execution_order := l;
     _recorded_delayed := _recorded_delayed s;
     _has_inplace_op_segment_prefixes := _has_inplace_op_segment_prefixes s;
     _access_mod_attr_or_glb_var_segment_prefixes :=
       _access_mod_attr_or_glb_var_segment_prefixes s |}.

Definition set_recorded_delayed (d : gset string) (s : LazyScheduler) :=
  {| _schedule := _schedule s; _gm_to_handle_map := _gm_to_handle_map s;
     _segment_to_gms_map := _segment_to_gms_map s;
     _recorded_execution_order := _recorded_execution_order s;
     _recorded_delayed := d;
     _has_inplace_op_segment_prefixes := _has_inplace_op_segment_prefixes s;
     _access_mod_attr_or_glb_var_segment_prefixes :=
       _access_mod_attr_or_glb_var_segment_prefixes s |}.

Definition set_gm_to_handle_map (m : gmap nat nat) (s : LazyScheduler) :=
  {| _schedule := _schedule s; _gm_to_handle_map := m;
     _segment_to_gms_map := _segment_to_gms_map s;
     _recorded_execution_order := _recorded_execution_order s;
     _recorded_delayed := _recorded_delayed s;
     _has_inplace_op_segment_prefixes := _has_inplace_op_segment_prefixes s;
     _access_mod_attr_or_glb_var_segment_prefixes :=
       _access_mod_attr_or_glb_var_segment_prefixes s |}.

Definition set_segment_to_gms_map (m : gmap string (list GraphModule)) (s : LazyScheduler) :=
  {| _schedule := _schedule s; _gm_to_handle_map := _gm_to_handle_map s;
     _segment_to_gms_map := m;
     _recorded_execution_order := _recorded_execution_order s;
     _recorded_delayed := _recorded_delayed s;
     _has_inplace_op_segment_prefixes := _has_inplace_op_segment_prefixes s;
     _access_mod_attr_or_glb_var_segment_prefixes :=
       _access_mod_attr_or_glb_var_segment_prefixes s |}.

Definition with_scheduler (f : LazyScheduler → LazyScheduler) (w : World) : World :=
  {| scheduler := f (scheduler w); heap := heap w; calls := calls w; stdout := stdout w |}.

Definition with_heap (f : list AsyncFuncHandle → list AsyncFuncHandle) (w : World) : World :=
  {| scheduler := scheduler w; heap := f (heap w); calls := calls w; stdout := stdout w |}.

Definition log_call (h : nat) (w : World) : World :=
  {| scheduler := scheduler w; heap := heap w;
     calls := calls w ++ [(h, heap w)]; stdout := stdout w |}.

Definition with_stdout (line : string) (w : World) : World :=
  {| scheduler := scheduler w; heap := heap w; calls := calls w;
     stdout := stdout w ++ [line] |}.

(** [LazyScheduler(module, segments=..., schedule=...)] *)
Definition init (schedule : list string) : World :=
  {| scheduler := {| _schedule := schedule; _gm_to_handle_map := ∅;
                     _segment_to_gms_map := ∅;
                     _recorded_execution_order := [];
                     _recorded_delayed := ∅;
                     _has_inplace_op_segment_prefixes := ∅;
                     _access_mod_attr_or_glb_var_segment_prefixes := ∅ |};
     heap := []; calls := []; stdout := [] |}.

(** *** Computations over the store

    [None]: no result (the computation does not return).  An exception
    keeps the store of the moment it was raised. *)
Definition M (A : Type) : Type := World → option (World * (Exn + A)).

Definition ret {A} (a : A) : M A := λ w, Some (w, inr a).
Definition raise {A} (e : Exn) : M A := λ w, Some (w, inl e).
Definition diverge {A} : M A := λ _, None.
Definition bind {A B} (m : M A) (f : A → M B) : M B :=
  λ w, match m w with
       | None => None
       | Some (w', inl e) => Some (w', inl e)
       | Some (w', inr a) => f a w'
       end.
Definition get : M World := λ w, Some (w, inr w).
Definition modify (f : World → World) : M unit := λ w, Some (f w, inr tt).
Definition print (line : string) : M unit := modify (with_stdout line).

Notation "'do' x ← m ; k" := (bind m (λ x, k))
  (at level 10, x name, m at level 100, k at level 200, only parsing).
Notation "m ;; k" := (bind m (λ _, k))
  (at level 100, k at level 200, right associativity, only parsing).

(** [for x in l: body(x)] *)
Fixpoint for_each {A} (body : A → M unit) (l : list A) : M unit :=
  match l with
  | [] => ret tt
  | x :: l' => body x;; for_each body l'
  end.

(** Dereferencing a handle.  A reference always points to a live object;
    a store in which it does not has no behaviour. *)
Definition get_handle (h : nat) : M AsyncFuncHandle :=
  λ w, match heap w !! h with
       | Some H => Some (w, inr H)
       | None => None
       end.

Definition update_handle (h : nat) (f : AsyncFuncHandle → AsyncFuncHandle) : M unit :=
  do H ← get_handle h;
  modify (with_heap (λ hp, <[h := f H]> hp)).

(** *** The execution recorder *)

(** [LazyScheduler.record_execution] *)
Definition record_execution (segment_name : string) : M unit :=
  print ("Adding segment " +:+ segment_name +:+ " to recorded execution order.");;
  do w ← get;
  let order := _recorded_execution_order (scheduler w) in
  if bool_decide (0 < length order)
   && bool_decide (order !! (length order - 1) = Some segment_name)
  then
    print "record_execution early return"
  else
    print "record_execution add to _recorded_execution_order list";;
    modify (with_scheduler (set_recorded_execution_order (order ++ [segment_name]))).

(** [LazyScheduler.get_recorded_execution_order] *)
Definition get_recorded_execution_order (s : LazyScheduler) : list string :=
  filter (λ name, startswith name "__unnamed_" = false
                  ∧ startswith name "__unregistered_" = false)
         (_recorded_execution_order s).

(** *** [AsyncFuncHandle] *)

Definition is_materialized (hp : list AsyncFuncHandle) (h k : nat) : bool :=
  match hp !! h with
  | Some H =>
      match outs_async H !! k with
      | Some p => bool_decide (is_Some (_materialized_tensor p))
      | None => false
      end
  | None => false
  end.

(** Modelled from the spec: [AsyncTensor.materialize_with_value] is defined
    in [torch/_subclasses/async_tensor.py], which is not part of the
    sources; "writes concrete results into this Handle's Placeholders". *)
Definition materialize_with_value (v : Tensor) (p : AsyncTensor) : AsyncTensor :=
  {| _fake_tensor := _fake_tensor p; _handle := _handle p;
     _materialized_tensor := Some v |}.

(** [for out, out_async in zip(self.outs, self.outs_async): ...]; the
    [assert] in the body holds of every [out] of this type. *)
Fixpoint materialize_outs (os : list (option Tensor)) (ps : list AsyncTensor)
    : list AsyncTensor :=
  match os, ps with
  | out :: os', p :: ps' =>
      materialize_with_value (default zeros out) p :: materialize_outs os' ps'
  | _, _ => ps
  end.

(** [AsyncFuncHandle.wait_for_completion].  [zip(None, ...)] raises a
    [TypeError] when the handle is scheduled but has no [outs] yet. *)
Definition wait_for_completion (h : nat) : M unit :=
  do H ← get_handle h;
  match cuda_event H with
  | None => raise RuntimeError_not_scheduled
  | Some _ =>
      (* self.cuda_event.synchronize() *)
      match outs H with
      | None => raise TypeError
      | Some os => update_handle h (set_outs_async (materialize_outs os (outs_async H)))
      end
  end.

(** Modelled from the spec: [AsyncTensor.wait_until_materialized] is
    defined in [torch/_subclasses/async_tensor.py], which is not part of the
    sources; "blocks until every Placeholder among this Handle's arguments
    is materialized (recursively triggering their owning Handles'
    [schedule()] if not already scheduled)".  A placeholder is written only
    by [wait_for_completion] of its owner; one that is still empty after
    that blocks for ever.  [schedule] is the recursive call. *)
Definition wait_until_materialized (schedule : nat → M unit) (args : list Arg) : M unit :=
  for_each (λ a,
    match a with
    | ArgTensor _ => ret tt
    | ArgAsync h k =>
        do w ← get;
        if is_materialized (heap w) h k then ret tt
        else
          schedule h;;
          wait_for_completion h;;
          do w' ← get;
          if is_materialized (heap w') h k then ret tt else diverge
    end) args.

(** Modelled from the spec: [AsyncTensor.get_materialized_tensor] is
    defined in [torch/_subclasses/async_tensor.py], which is not part of the
    sources; after materialization a placeholder "holds the concrete
    value".  [None] is an empty container. *)
Definition get_materialized_tensor (hp : list AsyncFuncHandle) (h k : nat)
    : option Tensor :=
  H ← hp !! h; p ← outs_async H !! k; _materialized_tensor p.

(** [pytree.tree_map_only(AsyncTensor, lambda x: x.get_materialized_tensor(), args)]
    followed by [pytree.tree_map(lambda x: x.detach(), ...)]: [detach] on
    the [None] of an empty container raises [AttributeError]. *)
Fixpoint materialize_args (hp : list AsyncFuncHandle) (args : list Arg)
    : Exn + list Tensor :=
  match args with
  | [] => inr []
  | a :: args' =>
      let v := match a with
               | ArgTensor t => Some t
               | ArgAsync h k => get_materialized_tensor hp h k
               end in
      match v, materialize_args hp args' with
      | Some t, inr ts => inr (detach t :: ts)
      | None, _ => inl AttributeError
      | _, inl e => inl e
      end
  end.

Definition lift_exn {A} (r : Exn + A) : M A :=
  match r with inl e => raise e | inr a => ret a end.

(** The body of [AsyncFuncHandle.schedule]; [schedule] stands for the
    method itself where placeholders among the arguments trigger it. *)
Definition schedule_body (schedule : nat → M unit) (h : nat) : M unit :=
  do H ← get_handle h;
  match cuda_event H with
  | Some _ =>
      print ("handle is already scheduled! segment name: " +:+ segment_name H)
  | None =>
      print ("scheduling handle! segment name: " +:+ segment_name H);;
      update_handle h (set_cuda_event (Some {| recorded := false |}));;
      wait_until_materialized schedule (args H);;
      do w ← get;
      do args_materialized ← lift_exn (materialize_args (heap w) (args H));
      update_handle h (set_args_materialized (Some args_materialized));;
      record_execution (segment_name H);;
      modify (log_call h);;
      do outs ← lift_exn (fn H args_materialized);
      update_handle h (set_outs (Some outs));;
      update_handle h (set_cuda_event (Some {| recorded := true |}))
  end.

(** [AsyncFuncHandle.schedule]: [fuel] bounds the depth of the recursion
    through [wait_until_materialized]. *)
Fixpoint schedule (fuel : nat) (h : nat) : M unit :=
  schedule_body (match fuel with
                 | 0 => λ _, diverge
                 | S fuel' => schedule fuel'
                 end) h.

(** *** Diagnostics *)

(** The f-string of the issue evaluates the reverse scan. *)
Definition best_guess (fuel : nat) (schedule recorded : list string) : M string :=
  match Diagnostics.find_delayed_seg_dependencies_best_effort fuel schedule recorded with
  | None => diverge
  | Some r => lift_exn r
  end.

(** [LazyScheduler.debug] *)
Definition debug (fuel : nat) : M unit :=
  do w ← get;
  let s := scheduler w in
  let recorded := get_recorded_execution_order s in
  if bool_decide (length (_schedule s) ≠ length recorded)
     || negb (PyList.set_eqb (_schedule s) recorded)
  then raise (RuntimeError_report (MismatchReport (_schedule s) recorded))
  else
    do debug_mode_issue_msgs ←
      (if bool_decide (_schedule s ≠ recorded) then
         do guess ← best_guess fuel (_schedule s) recorded;
         ret [(_schedule s, recorded, guess)]
       else ret []);
    raise (RuntimeError_report
             (DebugModeReport debug_mode_issue_msgs
                (_recorded_delayed s)
                (_has_inplace_op_segment_prefixes s)
                (_access_mod_attr_or_glb_var_segment_prefixes s))).

(** *** The registry *)

(** The end of [_compile_fx_inner_for_graph_in_segment]: "Build segment ->
    GMs mapping". *)
Definition register_gm (segment_name : string) (gm : GraphModule)
    (s : LazyScheduler) : LazyScheduler :=
  let m := _segment_to_gms_map s in
  let m := if decide (m !! segment_name = None) then <[segment_name := []]> m else m in
  set_segment_to_gms_map
    (<[segment_name := default [] (m !! segment_name) ++ [gm]]> m) s.

(** *** Admission control *)

(** [arg._fake_tensor] for a placeholder, [from_tensor(arg)] for a tensor. *)
Definition fake_of_arg (hp : list AsyncFuncHandle) (a : Arg) : option Fake :=
  match a with
  | ArgTensor t => Some (from_tensor t)
  | ArgAsync h k => H ← hp !! h; p ← outs_async H !! k; Some (_fake_tensor p)
  end.

(** [AsyncFuncHandle.__init__]; [h] is the identity of the new object. *)
Definition new_handle (fn : list Tensor → Exn + list (option Tensor))
    (segment_name : string) (args : list Arg) (outs_fake : list (option Fake))
    (h : nat) : AsyncFuncHandle :=
  {| cuda_event := None; fn := fn; args := args; outs_fake := outs_fake;
     outs_async :=
       (λ out_fake, {| _fake_tensor := default (from_tensor zeros) out_fake;
                       _handle := h;
                       _materialized_tensor := None |}) <$> outs_fake;
     outs := None; segment_name := segment_name; args_materialized := None |}.

(** The local variables of the walk. *)
Record Walk := {
  all_preceding_graph_handles : list nat;
  all_preceding_graph_handles_are_created : bool;
  reached_current_graph : bool;
  _next_segment_index : nat;
}.

Definition walk_start : Walk :=
  {| all_preceding_graph_handles := [];
     all_preceding_graph_handles_are_created := true;
     reached_current_graph := false;
     _next_segment_index := 0 |}.

Definition set_reached (st : Walk) : Walk :=
  {| all_preceding_graph_handles := all_preceding_graph_handles st;
     all_preceding_graph_handles_are_created := all_preceding_graph_handles_are_created st;
     reached_current_graph := true;
     _next_segment_index := _next_segment_index st |}.

Definition set_not_created (st : Walk) : Walk :=
  {| all_preceding_graph_handles := all_preceding_graph_handles st;
     all_preceding_graph_handles_are_created := false;
     reached_current_graph := reached_current_graph st;
     _next_segment_index := _next_segment_index st |}.

Definition append_handle (h : nat) (st : Walk) : Walk :=
  {| all_preceding_graph_handles := all_preceding_graph_handles st ++ [h];
     all_preceding_graph_handles_are_created := all_preceding_graph_handles_are_created st;
     reached_current_graph := reached_current_graph st;
     _next_segment_index := _next_segment_index st |}.

Definition next_segment (st : Walk) : Walk :=
  {| all_preceding_graph_handles := all_preceding_graph_handles st;
     all_preceding_graph_handles_are_created := all_preceding_graph_handles_are_created st;
     reached_current_graph := reached_current_graph st;
     _next_segment_index := _next_segment_index st + 1 |}.

(** [for g in self._segment_to_gms_map[_segment_name]: ...] *)
Fixpoint for_graphs (s : LazyScheduler) (gm : GraphModule)
    (gs : list GraphModule) (st : Walk) : Walk :=
  match gs with
  | [] => st
  | g :: gs' =>
      if decide (graph g = graph gm) then set_reached st
      else match _gm_to_handle_map s !! gm_id g with
           | None => set_not_created st
           | Some h => for_graphs s gm gs' (append_handle h st)
           end
  end.

(** [while _next_segment_index < len(self._schedule): ...]; [fuel] bounds
    the number of iterations. *)
Fixpoint while_schedule (fuel : nat) (s : LazyScheduler) (gm : GraphModule)
    (st : Walk) : option Walk :=
  if decide (_next_segment_index st < length (_schedule s)) then
    match fuel with
    | 0 => None
    | S fuel' =>
        _segment_name ← _schedule s !! _next_segment_index st;
        match _segment_to_gms_map s !! _segment_name with
        | None => Some (set_not_created st)
        | Some gs =>
            let st' := for_graphs s gm gs st in
            if reached_current_graph st'
               || negb (all_preceding_graph_handles_are_created st')
            then Some st'
            else while_schedule fuel' s gm (next_segment st')
        end
    end
  else Some st.

(** [cur_handle.outs_async], as references to the placeholders *)
Definition outs_async_of (h : nat) (H : AsyncFuncHandle) : list Arg :=
  imap (λ k _, ArgAsync h k) (outs_async H).

(** "Create the handle and the async tensors": the handle of [gm] if it has
    one, else a new one, entered in [_gm_to_handle_map]. *)
Definition get_or_create_handle (gm : GraphModule)
    (compiled_fn : list Tensor → Exn + list (option Tensor))
    (cur_segment_name : string) (args : list Arg) (w : World) : World * nat :=
  let args_fake := omap (fake_of_arg (heap w)) args in
  let outs_fake := forward gm args_fake in
  match _gm_to_handle_map (scheduler w) !! gm_id gm with
  | Some cur_handle => (w, cur_handle)
  | None =>
      let cur_handle := length (heap w) in
      let w := with_heap (λ hp,
                 hp ++ [new_handle compiled_fn cur_segment_name args outs_fake cur_handle]) w in
      let w := with_scheduler (λ s,
                 set_gm_to_handle_map (<[gm_id gm := cur_handle]> (_gm_to_handle_map s)) s) w in
      (w, cur_handle)
  end.

Definition state {A} (f : World → World * A) : M A :=
  λ w, Some ((f w).1, inr (f w).2).

(** [return cur_handle.outs_async] *)
Definition return_outs_async (cur_handle : nat) : M (list Arg) :=
  do H ← get_handle cur_handle;
  ret (outs_async_of cur_handle H).

(** [self._recorded_delayed.add(cur_segment_name)] *)
Definition record_delayed (cur_segment_name : string) : M unit :=
  modify (with_scheduler (λ s,
    set_recorded_delayed ({[cur_segment_name]} ∪ _recorded_delayed s) s)).

(** [LazyScheduler.maybe_run]; [fuel] bounds the recursion of [schedule]. *)
Definition maybe_run (fuel : nat) (gm : GraphModule)
    (compiled_fn : list Tensor → Exn + list (option Tensor))
    (cur_segment_name : string) (args : list Arg) : M (list Arg) :=
  do cur_handle ← state (get_or_create_handle gm compiled_fn cur_segment_name args);
  do w ← get;
  let s := scheduler w in
  match while_schedule (length (_schedule s)) s gm walk_start with
  | None => diverge
  | Some st =>
      if negb (all_preceding_graph_handles_are_created st) then
        record_delayed cur_segment_name;;
        return_outs_async cur_handle
      else
        for_each (schedule fuel) (all_preceding_graph_handles st);;
        schedule fuel cur_handle;;
        return_outs_async cur_handle
  end.

(** ** Specification-level notions *)

(** No two identical adjacent entries. *)
Definition no_adjacent_duplicates (l : list string) : Prop :=
  ∀ i x y, l !! i = Some x → l !! S i = Some y → x ≠ y.

(** The handle has a completion token. *)
Definition scheduled (hp : list AsyncFuncHandle) (h : nat) : Prop :=
  ∃ H, hp !! h = Some H ∧ is_Some (cuda_event H).

(** Every placeholder among the arguments of [h] is materialized. *)
Definition inputs_materialized (hp : list AsyncFuncHandle) (h : nat) : Prop :=
  ∀ H g k, hp !! h = Some H → ArgAsync g k ∈ args H → is_materialized hp g k = true.

(** How often the callable of [h] was invoked. *)
Definition exec_count (h : nat) (cs : list (nat * list AsyncFuncHandle)) : nat :=
  length (filter (λ c, c.1 = h) cs).

(** A sequence of [schedule()] calls on the handles [hs], whatever the
    caller does with an exception of one of them. *)
Fixpoint schedule_calls (fuel : nat) (hs : list nat) (w : World) : option World :=
  match hs with
  | [] => Some w
  | h :: hs' =>
      match schedule fuel h w with
      | None => None
      | Some (w', _) => schedule_calls fuel hs' w'
      end
  end.

(** What a handle may become: its arguments stay, a completion token stays,
    a materialized placeholder stays materialized. *)
Definition handle_le (H H' : AsyncFuncHandle) : Prop :=
  args H' = args H
  ∧ (is_Some (cuda_event H) → is_Some (cuda_event H'))
  ∧ ∀ k p, outs_async H !! k = Some p → is_Some (_materialized_tensor p) →
      ∃ p', outs_async H' !! k = Some p' ∧ is_Some (_materialized_tensor p').

Definition heap_le (hp hp' : list AsyncFuncHandle) : Prop :=
  ∀ h H, hp !! h = Some H → ∃ H', hp' !! h = Some H' ∧ handle_le H H'.

(** What the handle operations keep of the scheduler: the Schedule, the
    Registry, the handle map and the number of handles are as they were, and
    the Execution Record stays free of adjacent duplicates. *)
Definition keeps (w w' : World) : Prop :=
  _schedule (scheduler w') = _schedule (scheduler w)
  ∧ _segment_to_gms_map (scheduler w') = _segment_to_gms_map (scheduler w)
  ∧ _gm_to_handle_map (scheduler w') = _gm_to_handle_map (scheduler w)
  ∧ length (heap w') = length (heap w)
  ∧ (no_adjacent_duplicates (_recorded_execution_order (scheduler w)) →
     no_adjacent_duplicates (_recorded_execution_order (scheduler w'))).

(** A step that invokes no callable. *)
Definition quiet (w w' : World) : Prop :=
  heap_le (heap w) (heap w') ∧ calls w' = calls w ∧ keeps w w'.

(** What a run of handle operations may do to the store: handles only move
    forward, and every new invocation of a callable is the first one of a
    handle that had no token, has one now, and had its inputs materialized
    at the call. *)
Definition evolves (w w' : World) : Prop :=
  heap_le (heap w) (heap w')
  ∧ keeps w w'
  ∧ ∃ new, calls w' = calls w ++ new
           ∧ NoDup new.*1
           ∧ ∀ g σ, (g, σ) ∈ new →
               inputs_materialized σ g
               ∧ ¬ scheduled (heap w) g ∧ scheduled (heap w') g.

(** Every callable ran at most once, and only for a handle with a token. *)
Definition exec_once (w : World) : Prop :=
  ∀ h, exec_count h (calls w) ≤ 1
       ∧ (0 < exec_count h (calls w) → scheduled (heap w) h).

(** Postcondition of a computation started in [w]. *)
Definition post {A} (m : M A) (w : World) (Q : World → Exn + A → Prop) : Prop :=
  ∀ w' r, m w = Some (w', r) → Q w' r.

(** The registry never maps a name to an empty list, and every entry of
    [_gm_to_handle_map] is a live handle. *)
Definition registry_wf (s : LazyScheduler) : Prop :=
  ∀ name gs, _segment_to_gms_map s !! name = Some gs → gs ≠ [].

Definition handles_wf (w : World) : Prop :=
  ∀ g h, _gm_to_handle_map (scheduler w) !! g = Some h → h < length (heap w).



(** *** When [schedule] returns *)

(** The handle is not in the middle of [schedule]: it has no completion
    token, or its outputs are there, one for each placeholder at least. *)
Definition settled (H : AsyncFuncHandle) : Prop :=
  cuda_event H = None
  ∨ ∃ os, outs H = Some os ∧ length (outs_async H) ≤ length os.

(** A handle [schedule] can run: the placeholders among its arguments are
    outputs of handles created before it, its callable returns an output for
    each of its placeholders, and it is settled. *)
Definition runnable (hp : list AsyncFuncHandle) (h : nat) (H : AsyncFuncHandle) : Prop :=
  (∀ g k, ArgAsync g k ∈ args H →
     g < h ∧ ∃ G, hp !! g = Some G ∧ k < length (outs_async G))
  ∧ (∀ ts, ∃ os, fn H ts = inr os ∧ length (outs_async H) ≤ length os)
  ∧ settled H.

Definition runnable_below (n : nat) (hp : list AsyncFuncHandle) : Prop :=
  ∀ h H, h < n → hp !! h = Some H → runnable hp h H.

Definition same_shape (H H' : AsyncFuncHandle) : Prop :=
  args H' = args H ∧ fn H' = fn H
  ∧ length (outs_async H') = length (outs_async H)
  ∧ ∀ k p, outs_async H !! k = Some p → is_Some (_materialized_tensor p) →
      ∃ p', outs_async H' !! k = Some p' ∧ is_Some (_materialized_tensor p').

(** What returned calls of [schedule] and [wait_for_completion] on handles
    below [n] do to the heap: the handles from [n] on are untouched, the
    others keep their shape and stay settled. *)
Definition touched_below (n : nat) (hp hp' : list AsyncFuncHandle) : Prop :=
  length hp' = length hp
  ∧ (∀ g, n ≤ g → hp' !! g = hp !! g)
  ∧ ∀ g G, hp !! g = Some G →
      ∃ G', hp' !! g = Some G' ∧ same_shape G G' ∧ (g < n → settled G → settled G').

(** The invariant of the store. *)
Definition store_wf (w : World) : Prop :=
  registry_wf (scheduler w) ∧ handles_wf w ∧ exec_once w
  ∧ no_adjacent_duplicates (_recorded_execution_order (scheduler w)).

(** The outcome of the admission walk as the specification describes it. *)
Inductive Admission :=
  | Reached (preceding : list nat)    (* the current invocation was reached *)
  | Deferred                           (* admission failed *)
  | Exhausted (preceding : list nat).  (* the Schedule ended first *)

(** "for each Graph Instance g registered under S, in registration order:
    if g matches the current invocation (by structural fingerprint),
    admission succeeds and the walk stops; if g has no Handle yet, admission
    fails and the walk stops; otherwise accumulate g's Handle". *)
Fixpoint spec_scan_instances (s : LazyScheduler) (gm : GraphModule)
    (gs : list GraphModule) (preceding : list nat) : Admission + list nat :=
  match gs with
  | [] => inr preceding
  | g :: gs' =>
      if decide (graph g = graph gm) then inl (Reached preceding)
      else match _gm_to_handle_map s !! gm_id g with
           | None => inl Deferred
           | Some h => spec_scan_instances s gm gs' (preceding ++ [h])
           end
  end.

(** "Walk the Schedule from its start.  For each scheduled segment name S,
    in order: if S has no Registry entries yet, admission fails, stop." *)
Fixpoint spec_admission_walk (s : LazyScheduler) (gm : GraphModule)
    (schedule : list string) (preceding : list nat) : Admission :=
  match schedule with
  | [] => Exhausted preceding
  | name :: schedule' =>
      match default [] (_segment_to_gms_map s !! name) with
      | [] => Deferred
      | gs =>
          match spec_scan_instances s gm gs preceding with
          | inl outcome => outcome
          | inr preceding' => spec_admission_walk s gm schedule' preceding'
          end
      end
  end.

(** The handles of the instances registered under a segment name, in
    registration order; those of all scheduled segments, in schedule order. *)
Definition handles_under (s : LazyScheduler) (name : string) : list nat :=
  g ← default [] (_segment_to_gms_map s !! name);
  option_list (_gm_to_handle_map s !! gm_id g).

Definition scheduled_handles (s : LazyScheduler) : list nat :=
  _schedule s ≫= handles_under s.

(** The local variables of the walk against an outcome of the
    specification. *)
Definition walk_matches (st : Walk) (a : Admission) : Prop :=
  match a with
  | Reached preceding =>
      all_preceding_graph_handles_are_created st = true
      ∧ reached_current_graph st = true
      ∧ all_preceding_graph_handles st = preceding
  | Deferred => all_preceding_graph_handles_are_created st = false
  | Exhausted preceding =>
      all_preceding_graph_handles_are_created st = true
      ∧ reached_current_graph st = false
      ∧ all_preceding_graph_handles st = preceding
  end.


(** ** A run of the scheduler

    The Schedule is [B_fwd, A_fwd]; the model calls [A], then [B], then a
    segment outside the Schedule that reads the outputs of both. *)

Definition example_fn : list Tensor → Exn + list (option Tensor) :=
  λ ts, inr [Some (default zeros (head ts))].

Definition gm_A : GraphModule :=
  {| gm_id := 0; graph := "graph(): %a = call_function[target=A]"; forward := λ _, [None] |}.
Definition gm_B : GraphModule :=
  {| gm_id := 1; graph := "graph(): %b = call_function[target=B]"; forward := λ _, [None] |}.
Definition gm_U : GraphModule :=
  {| gm_id := 2; graph := "graph(): %u = call_function[target=U]"; forward := λ _, [None] |}.

(** The store a computation leaves, [w] itself if it does not return. *)
Definition world_after {A} (m : M A) (w : World) : World :=
  match m w with
  | Some (w', _) => w'
  | None => w
  end.

Definition example_start : World :=
  with_scheduler (register_gm "__unnamed_0_fwd" gm_U)
    (with_scheduler (register_gm "B_fwd" gm_B)
       (with_scheduler (register_gm "A_fwd" gm_A) (init ["B_fwd"; "A_fwd"]))).

Definition example_call_A : M (list Arg) :=
  maybe_run 2 gm_A example_fn "A_fwd" [ArgTensor zeros].
Definition example_call_B : M (list Arg) :=
  maybe_run 2 gm_B example_fn "B_fwd" [ArgTensor zeros].
Definition example_call_U : M (list Arg) :=
  maybe_run 2 gm_U example_fn "__unnamed_0_fwd" [ArgAsync 0 0; ArgAsync 1 0].

Definition example_A_deferred : World := world_after example_call_A example_start.
Definition example_B_run : World := world_after example_call_B example_A_deferred.
Definition example_U_run : World := world_after example_call_U example_B_run.

(** The handle of the third call, before anything ran for it. *)
Definition example_U_created : World :=
  (get_or_create_handle gm_U example_fn "__unnamed_0_fwd" [ArgAsync 0 0; ArgAsync 1 0]
     example_B_run).1.

(** A scheduler whose Schedule names [B_fwd] twice, after [A_fwd] ran twice
    around an unnamed segment. *)
Definition example_repeated_names : World :=
  world_after
    (for_each record_execution ["A_fwd"; "__unnamed_0"; "A_fwd"; "B_fwd"])
    (init ["A_fwd"; "B_fwd"; "B_fwd"]).

(** A run in which the Schedule is [A_fwd, B_fwd], [B] is called first (and
    deferred) and [A] second (and run), so that every scheduled instance has
    a handle; the third call is of a segment outside the Schedule whose
    graph prints as the graph of [A] does. *)
Definition gm_V : GraphModule :=
  {| gm_id := 3; graph := graph gm_A; forward := λ _, [None] |}.

Definition example_shared_graph_start : World :=
  with_scheduler (register_gm "__unnamed_0_fwd" gm_V)
    (with_scheduler (register_gm "B_fwd" gm_B)
       (with_scheduler (register_gm "A_fwd" gm_A) (init ["A_fwd"; "B_fwd"]))).

Definition example_shared_graph : World :=
  world_after (maybe_run 2 gm_A example_fn "A_fwd" [ArgTensor zeros])
    (world_after (maybe_run 2 gm_B example_fn "B_fwd" [ArgTensor zeros])
       example_shared_graph_start).

Definition example_call_V : M (list Arg) :=
  maybe_run 2 gm_V example_fn "__unnamed_0_fwd" [ArgTensor zeros].

(** A scheduler in which [A_fwd] ran before [B_fwd], against the Schedule. *)
Definition example_reordered : World :=
  world_after (for_each record_execution ["A_fwd"; "B_fwd"]) (init ["B_fwd"; "A_fwd"]).

(** ** Properties *)

(** *** Python list operations *)

Local Arguments PyList.index : simpl never.
Local Arguments PyList.remove : simpl never.

Lemma index_Some (x : string) (l : list string) (i : nat) :
  PyList.index x l = Some i ↔ l !! i = Some x ∧ ∀ j, j < i → l !! j ≠ Some x.
Proof.
  unfold PyList.index. split.
  - intros ([i' y] & Hf & ->)%fmap_Some. cbn.
    apply list_find_Some in Hf as (Hl & -> & Hlt). split; [done|].
    intros j Hj Hx. by eapply Hlt.
  - intros [Hl Hlt]. apply fmap_Some. exists (i, x). split; [|done].
    apply list_find_Some. split_and!; [done..|].
    intros j y Hy Hj ->. by eapply Hlt.
Qed.

Lemma index_is_Some (x : string) (l : list string) :
  x ∈ l → is_Some (PyList.index x l).
Proof.
  intros Hx. unfold PyList.index. apply fmap_is_Some.
  by eapply list_find_elem_of.
Qed.

Lemma index_cons_ne (x y : string) (l : list string) (i : nat) :
  x ≠ y → PyList.index x l = Some i → PyList.index x (y :: l) = Some (S i).
Proof.
  intros Hne [Hl Hlt]%index_Some. apply index_Some. split; [done|].
  intros [|j] Hj; cbn; [congruence|]. apply Hlt. lia.
Qed.

Lemma remove_Some (x : string) (l : list string) :
  x ∈ l → ∃ l', PyList.remove x l = Some l' ∧ l ≡ₚ x :: l'.
Proof.
  intros [i Hi]%index_is_Some. unfold PyList.remove. rewrite Hi. cbn.
  eexists. split; [done|].
  apply index_Some in Hi as [Hl _]. by apply delete_Permutation.
Qed.

Lemma enumerate_lookup (l : list string) (k : nat) (x : string) :
  (k, x) ∈ PyList.enumerate l ↔ l !! k = Some x.
Proof.
  unfold PyList.enumerate. rewrite elem_of_lookup_imap. split.
  - intros (i & y & [= -> ->] & Hl). done.
  - intros Hl. by exists k, x.
Qed.

(** *** The reverse scan on duplicate-free sequences *)

(** Two different arrangements of the same distinct names: some name sits
    earlier in the recorded order than in the schedule. *)
Lemma early_segment_exists (sch rec : list string) :
  NoDup sch → sch ≡ₚ rec → sch ≠ rec →
  ∃ k seg i, sch !! k = Some seg ∧ PyList.index seg rec = Some i ∧ i < k.
Proof.
  revert rec. induction sch as [|a sch IH]; intros rec Hnd Hp Hne.
  - apply Permutation_nil_l in Hp. congruence.
  - destruct rec as [|b rec]; [by apply Permutation_nil_r in Hp|].
    apply NoDup_cons in Hnd as [Ha Hnd].
    destruct (decide (a = b)) as [->|Hab].
    + apply Permutation_cons_inv in Hp.
      destruct (IH rec) as (k & seg & i & Hk & Hi & Hlt); [done|done|congruence|].
      exists (S k), seg, (S i). split_and!; [done| |lia].
      apply index_cons_ne; [|done].
      intros ->. apply Ha. by eapply list_elem_of_lookup_2.
    + assert (b ∈ a :: sch) as Hb by (rewrite Hp; left).
      apply elem_of_cons in Hb as [->|Hb]; [done|].
      apply list_elem_of_lookup in Hb as [k Hk].
      exists (S k), b, 0. split_and!; [done| |lia].
      apply index_Some. split; [done|]. intros j Hj. lia.
Qed.

(** The [for] loop stops at an early segment as soon as there is one. *)
Lemma for_reversed_finds (s : Diagnostics.Scan) (todo : list (nat * string)) :
  (∀ k seg, (k, seg) ∈ todo → seg ∈ Diagnostics.recorded_execution_order s) →
  (∃ k seg i, (k, seg) ∈ todo
     ∧ PyList.index seg (Diagnostics.recorded_execution_order s) = Some i ∧ i < k) →
  ∃ k seg i, (k, seg) ∈ todo
     ∧ PyList.index seg (Diagnostics.recorded_execution_order s) = Some i ∧ i < k
     ∧ Diagnostics.for_reversed s todo = Diagnostics.early_found s seg i.
Proof.
  induction todo as [|[k seg] todo IH]; intros Hin Hex.
  - destruct Hex as (k & seg & i & []%elem_of_nil & _).
  - cbn. destruct (index_is_Some seg (Diagnostics.recorded_execution_order s))
      as [i Hi]; [eapply Hin; left|]. rewrite Hi.
    destruct (decide (i < k)) as [Hlt|Hge].
    + exists k, seg, i. split_and!; [left|done..].
    + destruct IH as (k' & seg' & i' & Hin' & Hi' & Hlt' & Heq).
      * intros k' seg' Hin'. eapply Hin. by right.
      * destruct Hex as (k' & seg' & i' & Hin' & Hi' & Hlt').
        apply elem_of_cons in Hin' as [[= -> ->]|Hin'].
        -- rewrite Hi in Hi'. simplify_eq. lia.
        -- by exists k', seg', i'.
      * exists k', seg', i'. split_and!; [by right|done..].
Qed.

(** Removing an early segment and the one recorded right after it keeps
    the two sequences arrangements of the same distinct names. *)
Lemma early_found_progress (s : Diagnostics.Scan) (k : nat) (seg : string) (i : nat) :
  NoDup (Diagnostics.schedule s) →
  Diagnostics.schedule s ≡ₚ Diagnostics.recorded_execution_order s →
  Diagnostics.schedule s !! k = Some seg →
  PyList.index seg (Diagnostics.recorded_execution_order s) = Some i →
  i < k →
  ∃ s', Diagnostics.early_found s seg i = Diagnostics.Break s'
        ∧ NoDup (Diagnostics.schedule s')
        ∧ Diagnostics.schedule s' ≡ₚ Diagnostics.recorded_execution_order s'
        ∧ length (Diagnostics.schedule s') + 2 = length (Diagnostics.schedule s).
Proof.
  destruct s as [deps sch rec]. cbn. intros Hnd Hp Hk Hi Hlt.
  assert (NoDup rec) as Hndr by (by rewrite <-Hp).
  assert (k < length rec) as Hkl.
  { rewrite <-Hp. by eapply lookup_lt_Some. }
  unfold Diagnostics.early_found. cbn.
  destruct (lookup_lt_is_Some_2 rec (i + 1)) as [dep Hdep]; [lia|].
  rewrite Hdep.
  apply index_Some in Hi as [Hi _].
  assert (dep ≠ seg) as Hds.
  { intros ->. pose proof (NoDup_lookup _ _ _ _ Hndr Hi Hdep). lia. }
  assert (seg ∈ rec) as Hsr by (by eapply list_elem_of_lookup_2).
  assert (dep ∈ rec) as Hdr by (by eapply list_elem_of_lookup_2).
  destruct (remove_Some seg sch) as (sch1 & -> & Hs1); [by rewrite Hp|].
  destruct (remove_Some seg rec) as (rec1 & -> & Hr1); [done|].
  cbn.
  destruct (remove_Some dep sch1) as (sch2 & -> & Hs2).
  { assert (dep ∈ seg :: sch1) as Hd by (by rewrite <-Hs1, Hp).
    apply elem_of_cons in Hd as [?|?]; done. }
  destruct (remove_Some dep rec1) as (rec2 & -> & Hr2).
  { assert (dep ∈ seg :: rec1) as Hd by (by rewrite <-Hr1).
    apply elem_of_cons in Hd as [?|?]; done. }
  eexists. split; [done|]. cbn.
  rewrite Hs2 in Hs1. rewrite Hr2 in Hr1.
  split_and!.
  - rewrite Hs1 in Hnd. by apply NoDup_cons in Hnd as [_ [_ ?]%NoDup_cons].
  - rewrite Hs1, Hr1 in Hp. by do 2 apply Permutation_cons_inv in Hp.
  - rewrite Hs1. cbn. lia.
Qed.

(** On arrangements of the same distinct names the [while] loop returns,
    after at most half as many iterations as there are names. *)
Lemma while_loop_terminates (fuel : nat) (s : Diagnostics.Scan) :
  NoDup (Diagnostics.schedule s) →
  Diagnostics.schedule s ≡ₚ Diagnostics.recorded_execution_order s →
  length (Diagnostics.schedule s) ≤ 2 * fuel →
  ∃ deps, Diagnostics.while_loop fuel s = Some (inr deps).
Proof.
  revert s. induction fuel as [|fuel IH]; intros s Hnd Hp Hlen.
  - cbn. case_decide; [by eexists|].
    destruct (Diagnostics.schedule s); [|cbn in Hlen; lia].
    by apply Permutation_nil_l in Hp.
  - cbn. case_decide as Hne; [by eexists|].
    destruct (early_segment_exists _ _ Hnd Hp Hne) as (k & seg & i & Hk & Hi & Hlt).
    destruct (for_reversed_finds s (reverse (PyList.enumerate (Diagnostics.schedule s))))
      as (k' & seg' & i' & Hin' & Hi' & Hlt' & Heq).
    { intros k' seg' Hin'. rewrite elem_of_reverse, enumerate_lookup in Hin'.
      rewrite <-Hp. by eapply list_elem_of_lookup_2. }
    { exists k, seg, i. by rewrite elem_of_reverse, enumerate_lookup. }
    rewrite elem_of_reverse, enumerate_lookup in Hin'.
    destruct (early_found_progress s k' seg' i') as (s' & Hs' & Hnd' & Hp' & Hlen');
      [done..|].
    unfold Diagnostics.for_loop. rewrite Heq, Hs'.
    apply IH; [done..|lia].
Qed.

(** The reverse scan returns its report whenever the schedule and the
    recorded order are duplicate-free, of one length and equal as sets. *)
Lemma find_delayed_seg_dependencies_terminates_nodup
    (fuel : nat) (sch rec : list string) :
  NoDup sch → NoDup rec → length sch = length rec → (∀ x, x ∈ sch ↔ x ∈ rec) →
  length sch ≤ 2 * fuel →
  ∃ msg, Diagnostics.find_delayed_seg_dependencies_best_effort fuel sch rec
         = Some (inr msg).
Proof.
  intros Hs Hr Hlen Hset Hfuel.
  unfold Diagnostics.find_delayed_seg_dependencies_best_effort.
  rewrite decide_True by done.
  destruct (while_loop_terminates fuel
              {| Diagnostics.dependencies := []; Diagnostics.schedule := sch;
                 Diagnostics.recorded_execution_order := rec |})
    as [deps ->]; cbn; [done| |done|by eexists].
  by apply NoDup_Permutation.
Qed.

(** An iteration whose [for] loop ends without [break] leaves everything
    as it was: the [while] loop never returns. *)
Lemma while_loop_no_progress (s : Diagnostics.Scan) (fuel : nat) :
  Diagnostics.schedule s ≠ Diagnostics.recorded_execution_order s →
  Diagnostics.for_loop s = Diagnostics.NoBreak →
  Diagnostics.while_loop fuel s = None.
Proof.
  intros Hne Hfor. induction fuel as [|fuel IH]; cbn.
  - by rewrite decide_False.
  - by rewrite decide_False, Hfor.
Qed.

(** C8: with repeated names the reverse scan does not reach the aligned
    state.  On the schedule [A_fwd, B_fwd, B_fwd] and the recorded order
    [A_fwd, A_fwd, B_fwd] (one length, equal as sets) no segment is found
    early, nothing is removed, and the [while] loop runs for ever. *)
Theorem find_delayed_seg_dependencies_hangs_on_repeated_names (fuel : nat) :
  Diagnostics.find_delayed_seg_dependencies_best_effort fuel
    ["A_fwd"; "B_fwd"; "B_fwd"] ["A_fwd"; "A_fwd"; "B_fwd"] = None.
Proof.
  unfold Diagnostics.find_delayed_seg_dependencies_best_effort.
  rewrite decide_True by done.
  by rewrite while_loop_no_progress.
Qed.

(** *** [debug] *)

Lemma set_eqb_true (a b : list string) :
  PyList.set_eqb a b = true ↔ ∀ x, x ∈ a ↔ x ∈ b.
Proof.
  unfold PyList.set_eqb. rewrite bool_decide_eq_true. split.
  - intros Heq x. by rewrite <-(elem_of_list_to_set (C:=gset string) x a), Heq,
      elem_of_list_to_set.
  - intros Hx. apply set_eq. intros x. by rewrite !elem_of_list_to_set.
Qed.

(** C6: [debug] raises the schedule/execution mismatch report whenever the
    Schedule and the filtered Execution Record differ in length or differ as
    sets of segment names. *)
Theorem debug_raises_mismatch (fuel : nat) (w : World) :
  length (_schedule (scheduler w))
    ≠ length (get_recorded_execution_order (scheduler w))
  ∨ ¬ (∀ x, x ∈ _schedule (scheduler w)
            ↔ x ∈ get_recorded_execution_order (scheduler w)) →
  debug fuel w
  = Some (w, inl (RuntimeError_report
                    (MismatchReport (_schedule (scheduler w))
                       (get_recorded_execution_order (scheduler w))))).
Proof.
  intros Hdiff. unfold debug, bind, get. cbn.
  destruct (bool_decide _ || negb _) eqn:Hc; [done|].
  apply orb_false_iff in Hc as [Hlen Hset].
  apply bool_decide_eq_false in Hlen. apply negb_false_iff in Hset.
  pose proof (proj1 (set_eqb_true _ _) Hset) as Hset'.
  destruct Hdiff as [Hd|Hd]; [by destruct Hlen|done].
Qed.

(** [debug] has no normal return. *)
Lemma debug_never_returns_normally (fuel : nat) (w w' : World) (r : Exn + unit) :
  debug fuel w = Some (w', r) → ∃ e, r = inl e.
Proof.
  unfold debug, bind, get, best_guess. cbn.
  destruct (bool_decide _ || negb _); [intros [= <- <-]; by eexists|].
  destruct (bool_decide (_ ≠ _)); cbn; [|intros [= <- <-]; by eexists].
  destruct (Diagnostics.find_delayed_seg_dependencies_best_effort _ _ _)
    as [[e|msg]|]; cbn; [| |done]; intros [= <- <-]; by eexists.
Qed.

(** X15: when the user-visible Execution Record is exactly the Schedule,
    [debug] raises the debug-mode report all the same, with no issue in it
    and the three sets of the scheduler. *)
Lemma debug_raises_when_aligned (fuel : nat) (w : World) :
  _schedule (scheduler w) = get_recorded_execution_order (scheduler w) →
  debug fuel w
  = Some (w, inl (RuntimeError_report
                    (DebugModeReport []
                       (_recorded_delayed (scheduler w))
                       (_has_inplace_op_segment_prefixes (scheduler w))
                       (_access_mod_attr_or_glb_var_segment_prefixes (scheduler w))))).
Proof.
  intros Heq. unfold debug, bind, get. cbn. rewrite <-Heq.
  rewrite bool_decide_eq_false_2 by (intros H; by apply H). cbn.
  rewrite (proj2 (set_eqb_true _ _)) by done. cbn.
  by rewrite bool_decide_eq_false_2 by (intros H; by apply H).
Qed.

(** X14: on a Schedule and a user-visible Execution Record without repeated
    names, [debug] ends, with one of its two reports: the reverse scan
    needs at most half as many iterations as the Schedule has names. *)
Lemma debug_raises_report_nodup (fuel : nat) (w : World) :
  NoDup (_schedule (scheduler w)) →
  NoDup (get_recorded_execution_order (scheduler w)) →
  length (_schedule (scheduler w)) ≤ 2 * fuel →
  ∃ rep, debug fuel w = Some (w, inl (RuntimeError_report rep)).
Proof.
  intros Hs Hr Hfuel. unfold debug, bind, get, best_guess. cbn.
  destruct (bool_decide _ || negb _) eqn:Hc; [by eexists|].
  apply orb_false_iff in Hc as [Hlen Hset].
  apply bool_decide_eq_false in Hlen. apply negb_false_iff in Hset.
  pose proof (proj1 (set_eqb_true _ _) Hset) as Hset'.
  destruct (bool_decide (_ ≠ _)); cbn; [|by eexists].
  destruct (find_delayed_seg_dependencies_terminates_nodup fuel
              (_schedule (scheduler w))
              (get_recorded_execution_order (scheduler w))) as [msg ->];
    [done|done| |done|done|cbn; by eexists].
  destruct (decide (length (_schedule (scheduler w))
                    = length (get_recorded_execution_order (scheduler w)))); [done|].
  by destruct Hlen.
Qed.

(** *** The execution recorder *)

Lemma no_adjacent_duplicates_snoc (l : list string) (x : string) :
  no_adjacent_duplicates l → last l ≠ Some x → no_adjacent_duplicates (l ++ [x]).
Proof.
  intros Hl Hlast i a b Ha Hb.
  destruct (decide (S i < length l)) as [Hlt|Hge].
  - rewrite lookup_app_l in Ha, Hb by lia. by eapply Hl.
  - assert (S i < length (l ++ [x])) as Hi by (by eapply lookup_lt_Some).
    rewrite length_app in Hi. cbn in Hi.
    assert (S i = length l) as Hil by lia.
    rewrite lookup_app_l in Ha by lia.
    rewrite lookup_app_r, Hil, Nat.sub_diag in Hb by lia. cbn in Hb.
    injection Hb as <-. intros ->. apply Hlast.
    rewrite last_lookup. by replace (pred (length l)) with i by lia.
Qed.

(** One call: the name is appended unless it is the last entry. *)
Lemma record_execution_step (segment_name : string) (w : World) :
  ∃ w', record_execution segment_name w = Some (w', inr tt)
        ∧ heap w' = heap w ∧ calls w' = calls w
        ∧ _schedule (scheduler w') = _schedule (scheduler w)
        ∧ _segment_to_gms_map (scheduler w') = _segment_to_gms_map (scheduler w)
        ∧ _gm_to_handle_map (scheduler w') = _gm_to_handle_map (scheduler w)
        ∧ _recorded_execution_order (scheduler w')
          = (if decide (last (_recorded_execution_order (scheduler w)) = Some segment_name)
             then _recorded_execution_order (scheduler w)
             else _recorded_execution_order (scheduler w) ++ [segment_name]).
Proof.
  unfold record_execution, bind, print, modify, get. cbn.
  rewrite last_lookup.
  replace (length (_recorded_execution_order (scheduler w)) - 1)
    with (pred (length (_recorded_execution_order (scheduler w)))) by lia.
  destruct (decide (_ = Some segment_name)) as [Heq|Hne].
  - rewrite (bool_decide_eq_true_2 (_ = _)) by done.
    rewrite bool_decide_eq_true_2; [cbn; by eexists|].
    apply lookup_lt_Some in Heq. lia.
  - rewrite (bool_decide_eq_false_2 (_ = _)), andb_false_r by done.
    cbn. by eexists.
Qed.

(** C9: [record_execution] appends the name unless it equals the last entry
    of the Execution Record, so any sequence of [record_execution] calls
    on a record without two identical adjacent entries (the empty record of
    a new scheduler is one) returns and leaves such a record. *)
Theorem record_execution_no_adjacent_duplicates (names : list string) (w : World) :
  no_adjacent_duplicates (_recorded_execution_order (scheduler w)) →
  (∀ name, ∃ w1,
     record_execution name w = Some (w1, inr tt)
     ∧ _recorded_execution_order (scheduler w1)
       = (if decide (last (_recorded_execution_order (scheduler w)) = Some name)
          then _recorded_execution_order (scheduler w)
          else _recorded_execution_order (scheduler w) ++ [name]))
  ∧ ∃ w', for_each record_execution names w = Some (w', inr tt)
          ∧ no_adjacent_duplicates (_recorded_execution_order (scheduler w')).
Proof.
  intros Hw. split.
  - intros name.
    destruct (record_execution_step name w) as (w1 & ? & _ & _ & _ & _ & _ & ?).
    by exists w1.
  - revert w Hw. induction names as [|name names IH]; intros w Hw.
    + by exists w.
    + destruct (record_execution_step name w) as (w1 & Hrun & _ & _ & _ & _ & _ & Hrec).
      destruct (IH w1) as (w' & Hrun' & Hw').
      { rewrite Hrec. case_decide; [done|]. by apply no_adjacent_duplicates_snoc. }
      exists w'. split; [|done]. cbn. unfold bind. by rewrite Hrun.
Qed.

Lemma no_adjacent_duplicates_nil : no_adjacent_duplicates [].
Proof. intros i x y Hx. by rewrite lookup_nil in Hx. Qed.

(** *** Reasoning about computations *)

Lemma post_mono {A} (m : M A) (w : World) (Q Q' : World → Exn + A → Prop) :
  post m w Q → (∀ w' r, Q w' r → Q' w' r) → post m w Q'.
Proof. intros Hm HQ w' r Hrun. by apply HQ, Hm. Qed.

Lemma post_bind {A B} (m : M A) (f : A → M B) (w : World)
    (Q : World → Exn + B → Prop) :
  post m w (λ w1 r1, match r1 with
                     | inl e => Q w1 (inl e)
                     | inr a => post (f a) w1 Q
                     end) →
  post (bind m f) w Q.
Proof.
  intros Hm w' r. unfold bind.
  destruct (m w) as [[w1 [e|a]]|] eqn:Hrun; [| |done].
  - intros [= <- <-]. by apply (Hm w1 (inl e)).
  - intros Hf. by apply (Hm w1 (inr a)).
Qed.

Lemma post_ret {A} (a : A) (w : World) (Q : World → Exn + A → Prop) :
  Q w (inr a) → post (ret a) w Q.
Proof. by intros HQ w' r [= <- <-]. Qed.

Lemma post_raise {A} (e : Exn) (w : World) (Q : World → Exn + A → Prop) :
  Q w (inl e) → post (raise e) w Q.
Proof. by intros HQ w' r [= <- <-]. Qed.

Lemma post_diverge {A} (w : World) (Q : World → Exn + A → Prop) :
  post diverge w Q.
Proof. by intros w' r. Qed.

Lemma post_get (w : World) (Q : World → Exn + World → Prop) :
  Q w (inr w) → post get w Q.
Proof. by intros HQ w' r [= <- <-]. Qed.

Lemma post_modify (f : World → World) (w : World) (Q : World → Exn + unit → Prop) :
  Q (f w) (inr tt) → post (modify f) w Q.
Proof. by intros HQ w' r [= <- <-]. Qed.

Lemma post_lift_exn {A} (x : Exn + A) (w : World) (Q : World → Exn + A → Prop) :
  Q w x → post (lift_exn x) w Q.
Proof. destruct x; intros HQ w' r [= <- <-]; done. Qed.

Lemma post_get_handle (h : nat) (w : World) (Q : World → Exn + AsyncFuncHandle → Prop) :
  (∀ H, heap w !! h = Some H → Q w (inr H)) → post (get_handle h) w Q.
Proof.
  intros HQ w' r. unfold get_handle.
  destruct (heap w !! h) as [H|] eqn:Hh; [|done]. intros [= <- <-]. by apply HQ.
Qed.

Lemma post_update_handle (h : nat) (f : AsyncFuncHandle → AsyncFuncHandle)
    (w : World) (Q : World → Exn + unit → Prop) :
  (∀ H, heap w !! h = Some H → Q (with_heap (λ hp, <[h := f H]> hp) w) (inr tt)) →
  post (update_handle h f) w Q.
Proof.
  intros HQ. unfold update_handle. apply post_bind, post_get_handle.
  intros H Hh. by apply post_modify, HQ.
Qed.

(** *** Handles only move forward *)

Lemma handle_le_refl (H : AsyncFuncHandle) : handle_le H H.
Proof. split_and!; [done..|]. intros k p ? ?. by exists p. Qed.

Lemma handle_le_trans (H1 H2 H3 : AsyncFuncHandle) :
  handle_le H1 H2 → handle_le H2 H3 → handle_le H1 H3.
Proof.
  intros (Ha1 & Ht1 & Hp1) (Ha2 & Ht2 & Hp2). split_and!.
  - congruence.
  - auto.
  - intros k p Hk Hm. destruct (Hp1 k p Hk Hm) as (p' & Hk' & Hm'). eauto.
Qed.

Lemma heap_le_refl (hp : list AsyncFuncHandle) : heap_le hp hp.
Proof. intros h H ?. exists H. split; [done|apply handle_le_refl]. Qed.

Lemma heap_le_trans (hp1 hp2 hp3 : list AsyncFuncHandle) :
  heap_le hp1 hp2 → heap_le hp2 hp3 → heap_le hp1 hp3.
Proof.
  intros H12 H23 h H Hh. destruct (H12 h H Hh) as (H2 & Hh2 & Hle2).
  destruct (H23 h H2 Hh2) as (H3 & Hh3 & Hle3).
  exists H3. split; [done|]. by eapply handle_le_trans.
Qed.

Lemma heap_le_insert (hp : list AsyncFuncHandle) (h : nat) (H H' : AsyncFuncHandle) :
  hp !! h = Some H → handle_le H H' → heap_le hp (<[h := H']> hp).
Proof.
  intros Hh Hle g G Hg. destruct (decide (g = h)) as [->|Hne].
  - exists H'. rewrite list_lookup_insert_eq by (by eapply lookup_lt_Some).
    split; [done|]. congruence.
  - exists G. rewrite list_lookup_insert_ne by done.
    split; [done|apply handle_le_refl].
Qed.

Lemma heap_le_app (hp more : list AsyncFuncHandle) : heap_le hp (hp ++ more).
Proof.
  intros h H Hh. exists H. split; [|apply handle_le_refl].
  by apply lookup_app_l_Some.
Qed.

Lemma scheduled_mono (hp hp' : list AsyncFuncHandle) (h : nat) :
  heap_le hp hp' → scheduled hp h → scheduled hp' h.
Proof.
  intros Hle (H & Hh & Ht). destruct (Hle h H Hh) as (H' & Hh' & _ & Ht' & _).
  exists H'. auto.
Qed.

Lemma is_materialized_mono (hp hp' : list AsyncFuncHandle) (h k : nat) :
  heap_le hp hp' → is_materialized hp h k = true → is_materialized hp' h k = true.
Proof.
  intros Hle. unfold is_materialized.
  destruct (hp !! h) as [H|] eqn:Hh; [|done].
  destruct (Hle h H Hh) as (H' & -> & _ & _ & Hp).
  destruct (outs_async H !! k) as [p|] eqn:Hk; [|done].
  intros Hm%bool_decide_eq_true. destruct (Hp k p Hk Hm) as (p' & -> & Hm').
  by apply bool_decide_eq_true.
Qed.

Lemma keeps_refl (w : World) : keeps w w.
Proof. by split_and!. Qed.

Lemma keeps_trans (w1 w2 w3 : World) : keeps w1 w2 → keeps w2 w3 → keeps w1 w3.
Proof.
  intros (? & ? & ? & ? & Hr1) (? & ? & ? & ? & Hr2).
  split_and!; [congruence..|]. intros ?. by apply Hr2, Hr1.
Qed.

Lemma quiet_refl (w : World) : quiet w w.
Proof. split_and!; [apply heap_le_refl|done|apply keeps_refl]. Qed.

Lemma quiet_trans (w1 w2 w3 : World) : quiet w1 w2 → quiet w2 w3 → quiet w1 w3.
Proof.
  intros (Hh1 & Hc1 & Hr1) (Hh2 & Hc2 & Hr2).
  split_and!; [by eapply heap_le_trans|congruence|by eapply keeps_trans].
Qed.

Lemma quiet_evolves (w w' : World) : quiet w w' → evolves w w'.
Proof.
  intros (Hh & Hc & Hr). split_and!; [done..|]. exists []. rewrite Hc, app_nil_r.
  split_and!; [done|constructor|]. by intros g σ ?%elem_of_nil.
Qed.

Lemma evolves_refl (w : World) : evolves w w.
Proof. apply quiet_evolves, quiet_refl. Qed.

Lemma evolves_trans (w1 w2 w3 : World) : evolves w1 w2 → evolves w2 w3 → evolves w1 w3.
Proof.
  intros (Hh1 & Hr1 & new1 & Hc1 & Hnd1 & Hn1) (Hh2 & Hr2 & new2 & Hc2 & Hnd2 & Hn2).
  split_and!; [by eapply heap_le_trans|by eapply keeps_trans|].
  exists (new1 ++ new2). split_and!.
  - by rewrite Hc2, Hc1, (assoc_L (++)).
  - rewrite fmap_app. apply NoDup_app. split_and!; [done| |done].
    intros g ([g1 σ1] & -> & Hin1)%list_elem_of_fmap ([g2 σ2] & Heq & Hin2)%list_elem_of_fmap.
    cbn in Heq. subst g2.
    destruct (Hn1 _ _ Hin1) as (_ & _ & Hs). destruct (Hn2 _ _ Hin2) as (_ & Hns & _).
    done.
  - intros g σ [Hin|Hin]%elem_of_app.
    + destruct (Hn1 _ _ Hin) as (? & ? & ?). split_and!; [done..|].
      by eapply scheduled_mono.
    + destruct (Hn2 _ _ Hin) as (? & Hns & ?). split_and!; [done| |done].
      intros Hs. apply Hns. by eapply scheduled_mono.
Qed.

(** *** The handle operations *)

Lemma quiet_with_stdout (line : string) (w : World) : quiet w (with_stdout line w).
Proof. split_and!; [apply heap_le_refl|done|by split_and!]. Qed.

Lemma quiet_record_delayed (d : gset string) (w : World) :
  quiet w (with_scheduler (set_recorded_delayed d) w).
Proof. split_and!; [apply heap_le_refl|done|by split_and!]. Qed.

Lemma quiet_update (h : nat) (H H' : AsyncFuncHandle) (w : World) :
  heap w !! h = Some H → handle_le H H' →
  quiet w (with_heap (λ hp, <[h := H']> hp) w).
Proof.
  intros Hh Hle. split_and!; [by eapply heap_le_insert|done|].
  split_and!; [done..|by cbn; rewrite length_insert|done].
Qed.

Lemma handle_le_set_cuda_event (e : CudaEvent) (H : AsyncFuncHandle) :
  handle_le H (set_cuda_event (Some e) H).
Proof. split_and!; [done|by eexists|]. intros k p ? ?. by exists p. Qed.

Lemma handle_le_set_outs (o : option (list (option Tensor))) (H : AsyncFuncHandle) :
  handle_le H (set_outs o H).
Proof. split_and!; [done..|]. intros k p ? ?. by exists p. Qed.

Lemma handle_le_set_args_materialized (a : option (list Tensor)) (H : AsyncFuncHandle) :
  handle_le H (set_args_materialized a H).
Proof. split_and!; [done..|]. intros k p ? ?. by exists p. Qed.

Lemma materialize_outs_lookup (os : list (option Tensor)) (ps : list AsyncTensor)
    (k : nat) (p : AsyncTensor) :
  ps !! k = Some p →
  ∃ p', materialize_outs os ps !! k = Some p'
        ∧ (is_Some (_materialized_tensor p) → is_Some (_materialized_tensor p')).
Proof.
  revert ps k. induction os as [|out os IH]; intros ps k Hk.
  - exists p. by destruct ps.
  - destruct ps as [|q ps]; [done|]. destruct k as [|k]; cbn in *.
    + eexists. split; [done|]. by eexists.
    + by apply IH.
Qed.

Lemma handle_le_materialize (os : list (option Tensor)) (H : AsyncFuncHandle) :
  handle_le H (set_outs_async (materialize_outs os (outs_async H)) H).
Proof.
  split_and!; [done..|]. intros k p Hk Hm. cbn.
  destruct (materialize_outs_lookup os _ k p Hk) as (p' & ? & ?). eauto.
Qed.

Lemma record_execution_quiet (segment_name : string) (w : World)
    (Q : World → Exn + unit → Prop) :
  (∀ w', quiet w w' → Q w' (inr tt)) → post (record_execution segment_name) w Q.
Proof.
  intros HQ w' r Hrun.
  destruct (record_execution_step segment_name w)
    as (w1 & Hrun1 & Hh & Hc & Hs & Hreg & Hmap & Hrec).
  rewrite Hrun1 in Hrun. injection Hrun as <- <-. apply HQ.
  split_and!; [rewrite Hh; apply heap_le_refl|done|].
  split_and!; [done..|by rewrite Hh|].
  intros Hnd. rewrite Hrec. case_decide; [done|].
  by apply no_adjacent_duplicates_snoc.
Qed.

(** [wait_for_completion] invokes no callable. *)
Lemma wait_for_completion_quiet (h : nat) (w : World) :
  post (wait_for_completion h) w (λ w' _, quiet w w').
Proof.
  unfold wait_for_completion. apply post_bind, post_get_handle. intros H Hh.
  destruct (cuda_event H); [|apply post_raise, quiet_refl].
  destruct (outs H) as [os|]; [|apply post_raise, quiet_refl].
  apply post_update_handle. intros H' Hh'. rewrite Hh in Hh'. injection Hh' as <-.
  eapply quiet_update; [done|apply handle_le_materialize].
Qed.

(** [wait_until_materialized]: when it returns, every placeholder among the
    arguments is materialized. *)
Lemma wait_until_materialized_evolves (rec : nat → M unit) (args : list Arg) (w : World) :
  (∀ g w0, post (rec g) w0 (λ w' _, evolves w0 w')) →
  post (wait_until_materialized rec args) w
    (λ w' r, evolves w w'
             ∧ (r = inr tt → ∀ g k, ArgAsync g k ∈ args →
                  is_materialized (heap w') g k = true)).
Proof.
  intros Hrec. revert w. unfold wait_until_materialized.
  induction args as [|a args IH]; intros w.
  - apply post_ret. split; [apply evolves_refl|].
    by intros _ g k ?%elem_of_nil.
  - cbn [for_each]. apply post_bind.
    assert (post (match a with
                  | ArgTensor _ => ret tt
                  | ArgAsync h k =>
                      bind get (λ w0,
                        if is_materialized (heap w0) h k then ret tt
                        else bind (rec h) (λ _, bind (wait_for_completion h) (λ _,
                             bind get (λ w', if is_materialized (heap w') h k
                                             then ret tt else diverge))))
                  end) w
              (λ w1 r1, evolves w w1
                        ∧ (r1 = inr tt → ∀ g k, a = ArgAsync g k →
                             is_materialized (heap w1) g k = true))) as Ha.
    { destruct a as [t|h k].
      - apply post_ret. split; [apply evolves_refl|done].
      - apply post_bind, post_get.
        destruct (is_materialized (heap w) h k) eqn:Hm.
        + apply post_ret. split; [apply evolves_refl|]. by intros _ ? ? [= <- <-].
        + apply post_bind. eapply post_mono; [apply Hrec|].
          intros w1 [e|[]] Hev1; [by split|].
          apply post_bind. eapply post_mono; [apply wait_for_completion_quiet|].
          intros w2 [e|[]] Hq2; cbn.
          { split; [|done]. eapply evolves_trans; [done|by apply quiet_evolves]. }
          apply post_bind, post_get.
          destruct (is_materialized (heap w2) h k) eqn:Hm2; [|apply post_diverge].
          apply post_ret. split.
          * eapply evolves_trans; [done|by apply quiet_evolves].
          * by intros _ ? ? [= <- <-]. }
    eapply post_mono; [apply Ha|]. intros w1 [e|[]] [Hev1 Hm1]; [by split|].
    eapply post_mono; [apply IH|]. intros w2 r [Hev2 Hm2]. split.
    + by eapply evolves_trans.
    + intros -> g k [Heq|Hin]%elem_of_cons.
      * eapply is_materialized_mono; [apply Hev2|]. by apply Hm1.
      * by apply Hm2.
Qed.

Lemma schedule_unfold (fuel : nat) (h : nat) :
  schedule fuel h
  = schedule_body (match fuel with
                   | 0 => λ _, diverge
                   | S fuel' => schedule fuel'
                   end) h.
Proof. by destruct fuel. Qed.

(** One call of [schedule], whatever the recursive calls are, as long as
    they evolve the store. *)
Lemma schedule_body_evolves (rec : nat → M unit) (h : nat) (w : World) :
  (∀ g w0, post (rec g) w0 (λ w' _, evolves w0 w')) →
  post (schedule_body rec h) w (λ w' _, evolves w w').
Proof.
  intros Hrec. unfold schedule_body, print.
  apply post_bind, post_get_handle. intros H Hh.
  destruct (cuda_event H) as [e|] eqn:Htok.
  { apply post_modify, quiet_evolves, quiet_with_stdout. }
  apply post_bind, post_modify.
  apply post_bind, post_update_handle. intros H' Hh'. cbn in Hh'.
  assert (H' = H) as -> by congruence. clear Hh'.
  match goal with |- post _ ?w' _ => set (w1 := w') end.
  assert (quiet w w1) as Hq1.
  { eapply quiet_trans; [apply quiet_with_stdout|].
    eapply quiet_update; [done|apply handle_le_set_cuda_event]. }
  assert (¬ scheduled (heap w) h) as Hns.
  { intros (H0 & Hh0 & Ht0). rewrite Hh in Hh0. injection Hh0 as <-.
    rewrite Htok in Ht0. by destruct Ht0. }
  assert (scheduled (heap w1) h) as Hs1.
  { exists (set_cuda_event (Some {| recorded := false |}) H).
    split; [|by eexists]. cbn.
    by rewrite list_lookup_insert_eq by (by eapply lookup_lt_Some). }
  apply post_bind. eapply post_mono; [by apply wait_until_materialized_evolves|].
  intros w2 [e|[]] [Hev12 Hmat]; cbn.
  { eapply evolves_trans; [by apply quiet_evolves|done]. }
  specialize (Hmat eq_refl).
  apply post_bind, post_get. apply post_bind, post_lift_exn.
  destruct (materialize_args (heap w2) (args H)) as [e|am].
  { eapply evolves_trans; [by apply quiet_evolves|done]. }
  apply post_bind, post_update_handle. intros H2 Hh2.
  match goal with |- post _ ?w' _ => set (w3 := w') end.
  assert (quiet w2 w3) as Hq23.
  { eapply quiet_update; [done|apply handle_le_set_args_materialized]. }
  apply post_bind, record_execution_quiet. intros w4 Hq34.
  assert (evolves w1 w4) as Hev14.
  { eapply evolves_trans; [done|].
    apply quiet_evolves. by eapply quiet_trans. }
  apply post_bind, post_modify.
  assert (evolves w (log_call h w4)) as Hev5.
  { destruct Hev14 as (Hh14 & Hr14 & new & Hc & Hnd & Hn).
    destruct Hq1 as (Hh01 & Hc01 & Hr01).
    split_and!; [by eapply heap_le_trans|by eapply keeps_trans|].
    exists (new ++ [(h, heap w4)]). split_and!.
    - cbn. by rewrite Hc, Hc01, (assoc_L (++)).
    - rewrite fmap_app. apply NoDup_app. split_and!; [done| |apply NoDup_singleton].
      intros g ([g' σ] & Hg & Hin)%list_elem_of_fmap Hgh%list_elem_of_singleton.
      cbn in Hg. subst g g'.
      by destruct (Hn _ _ Hin) as (_ & ? & _).
    - intros g σ [Hin|[= -> ->]%list_elem_of_singleton]%elem_of_app.
      + destruct (Hn _ _ Hin) as (? & Hns1 & ?). split_and!; [done| |done].
        intros Hs. apply Hns1. by eapply scheduled_mono.
      + split_and!; [|done|by eapply scheduled_mono].
        intros H4 g k Hh4 Hin.
        destruct (heap_le_trans _ _ _ Hh01 Hh14 h H Hh) as (H4' & Hh4' & Ha & _).
        rewrite Hh4 in Hh4'. injection Hh4' as <-. rewrite Ha in Hin.
        eapply is_materialized_mono; [|by apply Hmat].
        eapply heap_le_trans; [apply Hq23|apply Hq34]. }
  apply post_bind, post_lift_exn.
  destruct (fn H am) as [e|os]; [done|].
  apply post_bind, post_update_handle. intros H5 Hh5.
  apply post_update_handle. intros H6 Hh6.
  eapply evolves_trans; [done|]. apply quiet_evolves.
  eapply quiet_trans; (eapply quiet_update; [done|]).
  - apply handle_le_set_outs.
  - apply handle_le_set_cuda_event.
Qed.

(** Every call of [schedule] evolves the store. *)
Lemma schedule_evolves (fuel : nat) (h : nat) (w : World) :
  post (schedule fuel h) w (λ w' _, evolves w w').
Proof.
  revert h w. induction fuel as [|fuel IH]; intros h w;
    rewrite schedule_unfold; apply schedule_body_evolves.
  - intros g w0. apply post_diverge.
  - done.
Qed.

(** C2: the wrapped callable of a handle is never invoked before every
    placeholder among the arguments of that handle is materialized.  Every
    invocation a run of [schedule] makes, of the handle itself or of a
    handle it triggers, finds the inputs of that handle materialized in the
    heap of the moment of the call. *)
Theorem schedule_inputs_materialized_before_call
    (fuel h : nat) (w w' : World) (r : Exn + unit) :
  schedule fuel h w = Some (w', r) →
  ∃ new, calls w' = calls w ++ new
         ∧ ∀ g σ, (g, σ) ∈ new → inputs_materialized σ g.
Proof.
  intros Hrun. destruct (schedule_evolves fuel h w w' r Hrun)
    as (_ & _ & new & Hc & _ & Hn).
  exists new. split; [done|]. intros g σ Hin. by destruct (Hn g σ Hin).
Qed.

(** *** At most one execution *)

Lemma exec_count_app (h : nat) (a b : list (nat * list AsyncFuncHandle)) :
  exec_count h (a ++ b) = exec_count h a + exec_count h b.
Proof. unfold exec_count. by rewrite filter_app, length_app. Qed.

Lemma exec_count_pos (h : nat) (l : list (nat * list AsyncFuncHandle)) :
  0 < exec_count h l → ∃ σ, (h, σ) ∈ l.
Proof.
  unfold exec_count. intros Hpos.
  destruct (filter (λ c, c.1 = h) l) as [|[g σ] rest] eqn:Hf; [cbn in Hpos; lia|].
  assert ((g, σ) ∈ filter (λ c, c.1 = h) l) as Hin by (rewrite Hf; left).
  apply list_elem_of_filter in Hin as [Hg Hin]. cbn in Hg. subst g. by exists σ.
Qed.

Lemma exec_count_nodup (h : nat) (l : list (nat * list AsyncFuncHandle)) :
  NoDup l.*1 → exec_count h l ≤ 1.
Proof.
  unfold exec_count. induction l as [|[g σ] l IH]; [cbn; lia|].
  cbn [fmap list_fmap]. intros [Hg Hnd]%NoDup_cons. rewrite filter_cons.
  destruct (decide ((g, σ).1 = h)) as [Heq|Hne]; [|by apply IH].
  cbn in Heq. subst g. cbn [length].
  destruct (filter (λ c, c.1 = h) l) as [|[g' σ'] rest] eqn:Hf; [cbn; lia|].
  assert ((g', σ') ∈ filter (λ c, c.1 = h) l) as Hin by (rewrite Hf; left).
  apply list_elem_of_filter in Hin as [Hg' Hin]. cbn in Hg'. subst g'.
  destruct Hg. apply list_elem_of_fmap. by exists (h, σ').
Qed.

Lemma evolves_exec_once (w w' : World) : evolves w w' → exec_once w → exec_once w'.
Proof.
  intros (Hle & _ & new & Hc & Hnd & Hn) Hw h.
  destruct (Hw h) as [Hle1 Hs]. rewrite Hc, exec_count_app.
  pose proof (exec_count_nodup h new Hnd) as Hnew.
  destruct (decide (0 < exec_count h new)) as [Hpos|Hz].
  - destruct (exec_count_pos h new Hpos) as [σ Hin].
    destruct (Hn h σ Hin) as (_ & Hns & Hs').
    assert (exec_count h (calls w) = 0) as ->.
    { destruct (decide (0 < exec_count h (calls w))) as [Hp|]; [|lia].
      destruct Hns. by apply Hs. }
    split; [lia|done].
  - split; [lia|]. intros Hpos. eapply scheduled_mono; [done|]. apply Hs. lia.
Qed.

Lemma schedule_calls_evolves (fuel : nat) (hs : list nat) (w w' : World) :
  schedule_calls fuel hs w = Some w' → evolves w w'.
Proof.
  revert w. induction hs as [|h hs IH]; intros w; cbn.
  - intros [= <-]. apply evolves_refl.
  - destruct (schedule fuel h w) as [[w1 r]|] eqn:Hrun; [|done].
    intros Hrest. eapply evolves_trans; [by eapply schedule_evolves|by apply IH].
Qed.

(** [schedule] on a handle that has its completion token: it says so and
    returns; nothing but [stdout] changes. *)
Lemma schedule_already_scheduled (fuel h : nat) (H : AsyncFuncHandle) (w : World) :
  heap w !! h = Some H → is_Some (cuda_event H) →
  schedule fuel h w
  = Some (with_stdout ("handle is already scheduled! segment name: " +:+ segment_name H) w,
          inr tt).
Proof.
  intros Hh [e He]. rewrite schedule_unfold.
  unfold schedule_body, bind, get_handle. by rewrite Hh, He.
Qed.

(** C3: [schedule] on a handle whose completion token is set only logs and
    returns, the heap of handles is as it was; and after any sequence of
    [schedule] calls, with whatever calls they trigger, every wrapped
    callable has been invoked at most once. *)
Theorem schedule_at_most_once (fuel : nat) (hs : list nat) (w w' : World) :
  exec_once w →
  schedule_calls fuel hs w = Some w' →
  (∀ h, exec_count h (calls w') ≤ 1)
  ∧ (∀ (v : World) h H n,
       heap v !! h = Some H → is_Some (cuda_event H) →
       ∃ v', schedule n h v = Some (v', inr tt)
             ∧ heap v' = heap v ∧ calls v' = calls v ∧ scheduler v' = scheduler v).
Proof.
  intros Hw Hrun. split.
  - intros h. eapply (evolves_exec_once w w'); [by eapply schedule_calls_evolves|done].
  - intros v h H n Hh Ht. eexists. split; [by apply schedule_already_scheduled|done].
Qed.

Lemma exec_once_no_calls (w : World) : calls w = [] → exec_once w.
Proof. intros Hc h. rewrite Hc. cbn. split; lia. Qed.

(** C5: [wait_for_completion] on a handle that has no completion token
    raises the protocol error, and the store, with every placeholder in it,
    is as it was. *)
Theorem wait_for_completion_before_schedule (h : nat) (H : AsyncFuncHandle) (w : World) :
  heap w !! h = Some H → cuda_event H = None →
  wait_for_completion h w = Some (w, inl RuntimeError_not_scheduled).
Proof.
  intros Hh Ht. unfold wait_for_completion, bind, get_handle. by rewrite Hh, Ht.
Qed.

(** *** The admission walk *)

Lemma bind_assoc {A B C} (m : M A) (f : A → M B) (g : B → M C) (w : World) :
  bind (bind m f) g w = bind m (λ a, bind (f a) g) w.
Proof. unfold bind. by destruct (m w) as [[w1 [e|a]]|]. Qed.

Lemma bind_ext {A B} (m : M A) (f g : A → M B) (w : World) :
  (∀ a w1, f a w1 = g a w1) → bind m f w = bind m g w.
Proof. intros Hfg. unfold bind. by destruct (m w) as [[w1 [e|a]]|]. Qed.

Lemma for_each_snoc {A B} (body : A → M unit) (l : list A) (x : A) (k : M B) (w : World) :
  bind (for_each body (l ++ [x])) (λ _, k) w
  = bind (for_each body l) (λ _, bind (body x) (λ _, k)) w.
Proof.
  revert w. induction l as [|y l IH]; intros w; cbn [for_each app].
  - rewrite bind_assoc. unfold bind at 3. cbn. apply bind_ext. intros [] w1.
    by unfold bind, ret.
  - rewrite !bind_assoc. apply bind_ext. intros _ w1. apply IH.
Qed.

Lemma bind_state {A B} (g : World → World * A) (f : A → M B) (w : World) :
  bind (state g) f w = f (g w).2 (g w).1.
Proof. done. Qed.

Lemma bind_get {B} (f : World → M B) (w : World) : bind get f w = f w w.
Proof. done. Qed.

(** The [for] loop over the instances of one segment does what the
    specification says of them. *)
Lemma for_graphs_spec (s : LazyScheduler) (gm : GraphModule)
    (gs : list GraphModule) (st : Walk) :
  all_preceding_graph_handles_are_created st = true →
  reached_current_graph st = false →
  _next_segment_index (for_graphs s gm gs st) = _next_segment_index st
  ∧ match spec_scan_instances s gm gs (all_preceding_graph_handles st) with
    | inl outcome =>
        walk_matches (for_graphs s gm gs st) outcome
        ∧ (reached_current_graph (for_graphs s gm gs st)
           || negb (all_preceding_graph_handles_are_created (for_graphs s gm gs st)))
          = true
    | inr preceding =>
        all_preceding_graph_handles_are_created (for_graphs s gm gs st) = true
        ∧ reached_current_graph (for_graphs s gm gs st) = false
        ∧ all_preceding_graph_handles (for_graphs s gm gs st) = preceding
    end.
Proof.
  revert st. induction gs as [|g gs IH]; intros st Hc Hr; cbn.
  - done.
  - case_decide.
    + cbn. by rewrite Hc.
    + destruct (_gm_to_handle_map s !! gm_id g) as [h|].
      * by apply (IH (append_handle h st)).
      * cbn. by rewrite orb_true_r.
Qed.

Lemma spec_admission_walk_cons (s : LazyScheduler) (gm : GraphModule)
    (name : string) (schedule : list string) (gs : list GraphModule)
    (preceding : list nat) :
  _segment_to_gms_map s !! name = Some gs → gs ≠ [] →
  spec_admission_walk s gm (name :: schedule) preceding
  = match spec_scan_instances s gm gs preceding with
    | inl outcome => outcome
    | inr preceding' => spec_admission_walk s gm schedule preceding'
    end.
Proof. intros Hgs Hne. cbn [spec_admission_walk]. rewrite Hgs. by destruct gs. Qed.

Lemma spec_admission_walk_unregistered (s : LazyScheduler) (gm : GraphModule)
    (name : string) (schedule : list string) (preceding : list nat) :
  _segment_to_gms_map s !! name = None →
  spec_admission_walk s gm (name :: schedule) preceding = Deferred.
Proof. intros Hgs. cbn. by rewrite Hgs. Qed.

(** The [while] loop returns, and its local variables are what the walk of
    the specification yields from the segment it is at. *)
Lemma while_schedule_spec (fuel : nat) (s : LazyScheduler) (gm : GraphModule) (st : Walk) :
  (∀ name, name ∈ _schedule s → _segment_to_gms_map s !! name ≠ Some []) →
  all_preceding_graph_handles_are_created st = true →
  reached_current_graph st = false →
  length (_schedule s) - _next_segment_index st ≤ fuel →
  ∃ st', while_schedule fuel s gm st = Some st'
         ∧ walk_matches st'
             (spec_admission_walk s gm (drop (_next_segment_index st) (_schedule s))
                (all_preceding_graph_handles st)).
Proof.
  intros Hwf. revert st. induction fuel as [|fuel IH]; intros st Hc Hr Hfuel.
  - cbn. rewrite decide_False by lia. exists st. split; [done|].
    by rewrite drop_ge by lia.
  - cbn [while_schedule]. case_decide as Hlt.
    2: { exists st. split; [done|]. by rewrite drop_ge by lia. }
    destruct (lookup_lt_is_Some_2 _ _ Hlt) as [name Hname].
    rewrite Hname, (drop_S _ _ _ Hname). cbn [mbind option_bind].
    assert (name ∈ _schedule s) as Hin by (by eapply list_elem_of_lookup_2).
    destruct (_segment_to_gms_map s !! name) as [gs|] eqn:Hgs.
    2: { rewrite spec_admission_walk_unregistered by done. by eexists. }
    rewrite (spec_admission_walk_cons _ _ _ _ gs) by (done || by intros ->; eapply Hwf).
    destruct (for_graphs_spec s gm gs st Hc Hr) as [Hidx Hspec].
    destruct (spec_scan_instances s gm gs (all_preceding_graph_handles st))
      as [outcome|preceding].
    + destruct Hspec as [Hm ->]. by eexists.
    + destruct Hspec as (Hc' & Hr' & Hp'). rewrite Hc', Hr'. cbn [orb negb].
      destruct (IH (next_segment (for_graphs s gm gs st))) as (st' & Hrun & Hm);
        [done|done|cbn; lia|].
      exists st'. split; [done|].
      cbn in Hm. by rewrite Hidx, Hp', Nat.add_1_r in Hm.
Qed.

Lemma get_or_create_handle_frame (gm : GraphModule)
    (compiled_fn : list Tensor → Exn + list (option Tensor))
    (cur_segment_name : string) (args : list Arg) (w : World) :
  let w1 := (get_or_create_handle gm compiled_fn cur_segment_name args w).1 in
  _schedule (scheduler w1) = _schedule (scheduler w)
  ∧ _segment_to_gms_map (scheduler w1) = _segment_to_gms_map (scheduler w)
  ∧ _recorded_execution_order (scheduler w1) = _recorded_execution_order (scheduler w)
  ∧ _recorded_delayed (scheduler w1) = _recorded_delayed (scheduler w)
  ∧ calls w1 = calls w ∧ stdout w1 = stdout w
  ∧ (∃ more, heap w1 = heap w ++ more ∧ ∀ H, H ∈ more → cuda_event H = None).
Proof.
  unfold get_or_create_handle.
  destruct (_gm_to_handle_map (scheduler w) !! gm_id gm); cbn.
  - split_and!; [done..|]. exists []. rewrite app_nil_r. split; [done|].
    by intros H ?%elem_of_nil.
  - split_and!; [done..|]. eexists. split; [done|].
    by intros H ->%list_elem_of_singleton.
Qed.

(** C1: the admission-control walk of [maybe_run] is the walk of the
    specification.  After the handle of the invocation is found or created,
    the Schedule is walked from its start; a scheduled segment without
    Registry entries defers; an instance with the fingerprint of the
    invocation admits it, with the handles met so far as preceding; an
    instance without a handle defers; any other handle is accumulated.  On
    admission [schedule()] runs on the preceding handles in accumulation
    order, then on the current handle, and the placeholders of the current
    handle are returned; on deferral the segment name is recorded as
    delayed and the placeholders are returned. *)
Theorem maybe_run_admission_walk (fuel : nat) (gm : GraphModule)
    (compiled_fn : list Tensor → Exn + list (option Tensor))
    (cur_segment_name : string) (args : list Arg) (w : World) :
  registry_wf (scheduler w) →
  maybe_run fuel gm compiled_fn cur_segment_name args w
  = (do cur_handle ← state (get_or_create_handle gm compiled_fn cur_segment_name args);
     do w1 ← get;
     match spec_admission_walk (scheduler w1) gm (_schedule (scheduler w1)) [] with
     | Deferred =>
         record_delayed cur_segment_name;;
         return_outs_async cur_handle
     | Reached preceding | Exhausted preceding =>
         for_each (schedule fuel) (preceding ++ [cur_handle]);;
         return_outs_async cur_handle
     end) w.
Proof.
  intros Hwf. unfold maybe_run. rewrite !bind_state, !bind_get.
  destruct (get_or_create_handle_frame gm compiled_fn cur_segment_name args w)
    as (Hsch & Hreg & _).
  destruct (get_or_create_handle gm compiled_fn cur_segment_name args w) as [w1 cur].
  cbn [fst snd] in *.
  destruct (while_schedule_spec (length (_schedule (scheduler w1))) (scheduler w1)
              gm walk_start) as (st & -> & Hm); [|done|done|cbn; lia|].
  { intros name _ Hgs. rewrite Hreg in Hgs. by eapply Hwf. }
  cbn in Hm.
  destruct (spec_admission_walk _ _ _ _) as [preceding| |preceding]; cbn in Hm.
  - destruct Hm as (-> & _ & ->). cbn [negb]. by rewrite for_each_snoc.
  - by rewrite Hm.
  - destruct Hm as (-> & _ & ->). cbn [negb]. by rewrite for_each_snoc.
Qed.

(** The walk of [maybe_run] from the start of the Schedule. *)
Lemma walk_from_start (s : LazyScheduler) (gm : GraphModule) :
  (∀ name, name ∈ _schedule s → _segment_to_gms_map s !! name ≠ Some []) →
  ∃ st, while_schedule (length (_schedule s)) s gm walk_start = Some st
        ∧ walk_matches st (spec_admission_walk s gm (_schedule s) []).
Proof.
  intros Hwf.
  destruct (while_schedule_spec (length (_schedule s)) s gm walk_start)
    as (st & Hrun & Hm); [done|done|done|cbn; lia|].
  by exists st.
Qed.

Lemma get_or_create_handle_live (gm : GraphModule)
    (compiled_fn : list Tensor → Exn + list (option Tensor))
    (cur_segment_name : string) (args : list Arg) (w : World) :
  handles_wf w →
  let r := get_or_create_handle gm compiled_fn cur_segment_name args w in
  _gm_to_handle_map (scheduler r.1) !! gm_id gm = Some r.2
  ∧ is_Some (heap r.1 !! r.2)
  ∧ handles_wf r.1.
Proof.
  intros Hwf. unfold get_or_create_handle.
  destruct (_gm_to_handle_map (scheduler w) !! gm_id gm) as [h|] eqn:Hgm; cbn.
  - split_and!; [done| |done]. apply lookup_lt_is_Some. by eapply Hwf.
  - split_and!.
    + by rewrite lookup_insert_eq.
    + apply lookup_lt_is_Some. rewrite length_app. cbn. lia.
    + intros g h. unfold handles_wf in Hwf. cbn. rewrite length_app. cbn.
      destruct (decide (g = gm_id gm)) as [->|Hne].
      * rewrite lookup_insert_eq. intros [= <-]. lia.
      * rewrite lookup_insert_ne by done. intros Hh%Hwf. lia.
Qed.

(** C4: when admission fails, [maybe_run] records the segment name as
    delayed and returns the placeholders of the current handle, without an
    error and whatever the fuel.  Nothing ran: no line of [schedule] is
    printed, no callable is invoked, no handle gets a completion token, the
    handles that existed are as they were, and the Execution Record is
    unchanged. *)
Theorem maybe_run_deferred (fuel : nat) (gm : GraphModule)
    (compiled_fn : list Tensor → Exn + list (option Tensor))
    (cur_segment_name : string) (args : list Arg) (w : World) :
  registry_wf (scheduler w) →
  handles_wf w →
  spec_admission_walk
    (scheduler (get_or_create_handle gm compiled_fn cur_segment_name args w).1) gm
    (_schedule (scheduler w)) [] = Deferred →
  ∃ w' cur_handle H,
    maybe_run fuel gm compiled_fn cur_segment_name args w
    = Some (w', inr (outs_async_of cur_handle H))
    ∧ _gm_to_handle_map (scheduler w') !! gm_id gm = Some cur_handle
    ∧ heap w' !! cur_handle = Some H
    ∧ _recorded_delayed (scheduler w')
      = {[cur_segment_name]} ∪ _recorded_delayed (scheduler w)
    ∧ _recorded_execution_order (scheduler w')
      = _recorded_execution_order (scheduler w)
    ∧ calls w' = calls w
    ∧ stdout w' = stdout w
    ∧ (∀ h H0, heap w !! h = Some H0 → heap w' !! h = Some H0)
    ∧ (∀ h, scheduled (heap w') h → scheduled (heap w) h).
Proof.
  intros Hwf Hhwf Hdef. unfold maybe_run. rewrite bind_state, bind_get.
  destruct (get_or_create_handle_frame gm compiled_fn cur_segment_name args w)
    as (Hsch & Hreg & Hrec & Hdel & Hcalls & Hout & more & Hheap & Hmore).
  destruct (get_or_create_handle_live gm compiled_fn cur_segment_name args w Hhwf)
    as (Hcur & [H HH] & _).
  destruct (get_or_create_handle gm compiled_fn cur_segment_name args w) as [w1 cur].
  cbn [fst snd] in *.
  destruct (walk_from_start (scheduler w1) gm) as (st & -> & Hm).
  { intros name _ Hgs. rewrite Hreg in Hgs. by eapply Hwf. }
  rewrite Hsch, Hdef in Hm. cbn in Hm. rewrite Hm. cbn [negb].
  unfold bind, record_delayed, modify, return_outs_async, bind, get_handle, ret. cbn.
  rewrite HH. eexists _, cur, H. split; [done|]. cbn.
  split_and!; [done|done|by rewrite Hdel|done|done|done| |].
  - intros h H0 Hh. rewrite Hheap. by apply lookup_app_l_Some.
  - intros h (H0 & Hh & Ht). rewrite Hheap in Hh.
    apply lookup_app_Some in Hh as [Hh|[_ Hh]]; [by exists H0|].
    apply list_elem_of_lookup_2, Hmore in Hh. rewrite Hh in Ht. by destruct Ht.
Qed.

Lemma spec_scan_instances_all (s : LazyScheduler) (gm : GraphModule)
    (gs : list GraphModule) (preceding : list nat) :
  (∀ g, g ∈ gs → graph g ≠ graph gm ∧ is_Some (_gm_to_handle_map s !! gm_id g)) →
  spec_scan_instances s gm gs preceding
  = inr (preceding ++ (gs ≫= λ g, option_list (_gm_to_handle_map s !! gm_id g))).
Proof.
  revert preceding. induction gs as [|g gs IH]; intros preceding Hall; cbn.
  - by rewrite app_nil_r.
  - destruct (Hall g) as [Hne [h Hh]]; [left|].
    rewrite decide_False, Hh by done. rewrite IH.
    + cbn. by rewrite <-(assoc_L (++)).
    + intros g' Hin. apply Hall. by right.
Qed.

Lemma spec_admission_walk_exhausted (s : LazyScheduler) (gm : GraphModule)
    (names : list string) (preceding : list nat) :
  (∀ name, name ∈ names →
     ∃ gs, _segment_to_gms_map s !! name = Some gs ∧ gs ≠ []
           ∧ ∀ g, g ∈ gs → graph g ≠ graph gm
                           ∧ is_Some (_gm_to_handle_map s !! gm_id g)) →
  spec_admission_walk s gm names preceding
  = Exhausted (preceding ++ (names ≫= handles_under s)).
Proof.
  revert preceding. induction names as [|name names IH]; intros preceding Hall.
  - cbn. by rewrite app_nil_r.
  - destruct (Hall name) as (gs & Hgs & Hne & Hgs_all); [left|].
    rewrite (spec_admission_walk_cons _ _ _ _ gs) by done.
    rewrite spec_scan_instances_all by done. rewrite IH.
    + cbn. unfold handles_under at 2. rewrite Hgs. cbn. by rewrite <-(assoc_L (++)).
    + intros name' Hin. apply Hall. by right.
Qed.

(** C10: when the walk goes through the whole Schedule without meeting the
    current invocation, every scheduled segment having Registry entries
    whose instances all have handles, the invocation is admitted:
    [schedule()] runs on every handle registered under every scheduled
    segment, in schedule and registration order, then on the current handle,
    and the placeholders of the current handle are returned. *)
Theorem maybe_run_schedule_exhausted (fuel : nat) (gm : GraphModule)
    (compiled_fn : list Tensor → Exn + list (option Tensor))
    (cur_segment_name : string) (args : list Arg) (w : World) :
  let w1 := (get_or_create_handle gm compiled_fn cur_segment_name args w).1 in
  let cur_handle := (get_or_create_handle gm compiled_fn cur_segment_name args w).2 in
  (∀ name, name ∈ _schedule (scheduler w1) →
     ∃ gs, _segment_to_gms_map (scheduler w1) !! name = Some gs ∧ gs ≠ []
           ∧ ∀ g, g ∈ gs →
               graph g ≠ graph gm
               ∧ is_Some (_gm_to_handle_map (scheduler w1) !! gm_id g)) →
  spec_admission_walk (scheduler w1) gm (_schedule (scheduler w1)) []
  = Exhausted (scheduled_handles (scheduler w1))
  ∧ maybe_run fuel gm compiled_fn cur_segment_name args w
    = (for_each (schedule fuel) (scheduled_handles (scheduler w1) ++ [cur_handle]);;
       return_outs_async cur_handle) w1.
Proof.
  intros w1 cur Hall.
  pose proof (spec_admission_walk_exhausted (scheduler w1) gm
                (_schedule (scheduler w1)) [] Hall) as Hspec.
  split; [done|].
  unfold maybe_run. rewrite bind_state, bind_get. fold w1 cur.
  destruct (walk_from_start (scheduler w1) gm) as (st & -> & Hm).
  { intros name Hin Hgs. destruct (Hall name Hin) as (gs & Hgs' & Hne & _). congruence. }
  rewrite Hspec in Hm. destruct Hm as (-> & _ & ->). cbn [negb app].
  by rewrite for_each_snoc.
Qed.

(** C7: [debug] does not always raise its report.  With the Schedule
    [A_fwd, B_fwd, B_fwd] and the Execution Record
    [A_fwd, __unnamed_0, A_fwd, B_fwd] the first check passes (three names
    each, the same set), the sequences differ, and building the report
    runs the reverse scan, which never returns: [debug] raises nothing. *)
Theorem debug_hangs_on_repeated_names (fuel : nat) :
  debug fuel example_repeated_names = None.
Proof.
  unfold debug, bind, get, best_guess,
    Diagnostics.find_delayed_seg_dependencies_best_effort.
  change (get_recorded_execution_order (scheduler example_repeated_names))
    with ["A_fwd"; "A_fwd"; "B_fwd"].
  change (_schedule (scheduler example_repeated_names))
    with ["A_fwd"; "B_fwd"; "B_fwd"].
  by rewrite while_loop_no_progress.
Qed.

(** *** Well-formed stores *)

Lemma registry_wf_init (schedule : list string) : registry_wf (scheduler (init schedule)).
Proof. intros name gs Hgs. cbn in Hgs. by rewrite lookup_empty in Hgs. Qed.

Lemma registry_wf_register_gm (segment_name : string) (gm : GraphModule)
    (s : LazyScheduler) :
  registry_wf s → registry_wf (register_gm segment_name gm s).
Proof.
  intros Hwf name gs. unfold register_gm. cbn.
  destruct (decide (name = segment_name)) as [->|Hne].
  - rewrite lookup_insert_eq. intros [= <-]. by intros [_ [=]]%app_nil.
  - rewrite lookup_insert_ne by done. case_decide.
    + rewrite lookup_insert_ne by done. apply Hwf.
    + apply Hwf.
Qed.

Lemma registry_wf_ext (s s' : LazyScheduler) :
  _segment_to_gms_map s' = _segment_to_gms_map s → registry_wf s → registry_wf s'.
Proof. intros Heq Hwf name gs. rewrite Heq. apply Hwf. Qed.

Lemma handles_wf_init (schedule : list string) : handles_wf (init schedule).
Proof. intros g h Hg. cbn in Hg. by rewrite lookup_empty in Hg. Qed.

Lemma post_state {A} (g : World → World * A) (w : World) (Q : World → Exn + A → Prop) :
  Q (g w).1 (inr (g w).2) → post (state g) w Q.
Proof. by intros HQ w' r [= <- <-]. Qed.

Lemma for_each_evolves {A} (body : A → M unit) (l : list A) (w : World) :
  (∀ x w0, post (body x) w0 (λ w' _, evolves w0 w')) →
  post (for_each body l) w (λ w' _, evolves w w').
Proof.
  intros Hbody. revert w. induction l as [|x l IH]; intros w; cbn.
  - apply post_ret, evolves_refl.
  - apply post_bind. eapply post_mono; [apply Hbody|].
    intros w1 [e|[]] Hev1; [done|].
    eapply post_mono; [apply IH|]. intros w2 r Hev2. by eapply evolves_trans.
Qed.

(** After the handle of the invocation is found or created, [maybe_run]
    only evolves the store. *)
Lemma maybe_run_evolves (fuel : nat) (gm : GraphModule)
    (compiled_fn : list Tensor → Exn + list (option Tensor))
    (cur_segment_name : string) (args : list Arg) (w : World) :
  post (maybe_run fuel gm compiled_fn cur_segment_name args) w
    (λ w' _, evolves (get_or_create_handle gm compiled_fn cur_segment_name args w).1 w').
Proof.
  unfold maybe_run. apply post_bind, post_state.
  set (w1 := (get_or_create_handle gm compiled_fn cur_segment_name args w).1).
  set (cur := (get_or_create_handle gm compiled_fn cur_segment_name args w).2).
  apply post_bind, post_get.
  destruct (while_schedule _ _ _ _) as [st|]; [|apply post_diverge].
  assert (∀ w0, post (return_outs_async cur) w0 (λ w' _, w' = w0)) as Hret.
  { intros w0. unfold return_outs_async. apply post_bind, post_get_handle.
    intros H _. by apply post_ret. }
  destruct (negb _).
  - unfold record_delayed. apply post_bind, post_modify.
    eapply post_mono; [apply Hret|]. intros w2 r ->.
    apply quiet_evolves, quiet_record_delayed.
  - apply post_bind. eapply post_mono; [apply for_each_evolves|].
    { intros h w0. apply schedule_evolves. }
    intros w2 [e|[]] Hev2; [done|].
    apply post_bind. eapply post_mono; [apply schedule_evolves|].
    intros w3 [e|[]] Hev3; [by eapply evolves_trans|].
    eapply post_mono; [apply Hret|]. intros w4 r ->. by eapply evolves_trans.
Qed.

(** *** The invariant holds in every store the operations produce *)

Lemma store_wf_init (schedule : list string) : store_wf (init schedule).
Proof.
  split_and!; [apply registry_wf_init|apply handles_wf_init|
               by apply exec_once_no_calls|apply no_adjacent_duplicates_nil].
Qed.

Lemma store_wf_register_gm (segment_name : string) (gm : GraphModule) (w : World) :
  store_wf w → store_wf (with_scheduler (register_gm segment_name gm) w).
Proof.
  intros (Hr & Hh & He & Hn). split_and!; [by apply registry_wf_register_gm|done..].
Qed.

Lemma heap_le_length (hp hp' : list AsyncFuncHandle) :
  heap_le hp hp' → length hp ≤ length hp'.
Proof.
  intros Hle. destruct (decide (length hp ≤ length hp')) as [|Hgt]; [done|].
  destruct (lookup_lt_is_Some_2 hp (length hp')) as [H Hh]; [lia|].
  destruct (Hle _ _ Hh) as (H' & Hh'%lookup_lt_Some & _). lia.
Qed.

Lemma store_wf_evolves (w w' : World) : evolves w w' → store_wf w → store_wf w'.
Proof.
  intros Hev (Hr & Hh & He & Hn).
  pose proof Hev as (Hle & (Hs & Hreg & Hmap & Hlen & Hrec) & _).
  split_and!.
  - by eapply registry_wf_ext.
  - intros g h. rewrite Hmap, Hlen. apply Hh.
  - by eapply evolves_exec_once.
  - by apply Hrec.
Qed.

Lemma store_wf_get_or_create_handle (gm : GraphModule)
    (compiled_fn : list Tensor → Exn + list (option Tensor))
    (cur_segment_name : string) (args : list Arg) (w : World) :
  store_wf w →
  store_wf (get_or_create_handle gm compiled_fn cur_segment_name args w).1.
Proof.
  intros (Hr & Hh & He & Hn).
  destruct (get_or_create_handle_frame gm compiled_fn cur_segment_name args w)
    as (Hsch & Hreg & Hrec & Hdel & Hcalls & Hout & more & Hheap & Hmore).
  destruct (get_or_create_handle_live gm compiled_fn cur_segment_name args w Hh)
    as (_ & _ & Hh').
  split_and!.
  - by eapply registry_wf_ext.
  - done.
  - intros h. rewrite Hcalls. destruct (He h) as [Hle Hs]. split; [done|].
    intros Hpos. eapply scheduled_mono; [|by apply Hs].
    rewrite Hheap. apply heap_le_app.
  - by rewrite Hrec.
Qed.

(** Whatever [maybe_run], [schedule] and [wait_for_completion] return,
    the store they leave is well formed: in particular no callable has run
    twice and the Execution Record has no two identical adjacent entries. *)
Lemma store_wf_maybe_run (fuel : nat) (gm : GraphModule)
    (compiled_fn : list Tensor → Exn + list (option Tensor))
    (cur_segment_name : string) (args : list Arg) (w : World) :
  store_wf w →
  post (maybe_run fuel gm compiled_fn cur_segment_name args) w (λ w' _, store_wf w').
Proof.
  intros Hw w' r Hrun. eapply store_wf_evolves; [by eapply maybe_run_evolves|].
  by apply store_wf_get_or_create_handle.
Qed.

Lemma store_wf_schedule (fuel h : nat) (w : World) :
  store_wf w → post (schedule fuel h) w (λ w' _, store_wf w').
Proof.
  intros Hw w' r Hrun. eapply store_wf_evolves; [by eapply schedule_evolves|done].
Qed.

Lemma store_wf_wait_for_completion (h : nat) (w : World) :
  store_wf w → post (wait_for_completion h) w (λ w' _, store_wf w').
Proof.
  intros Hw w' r Hrun. eapply store_wf_evolves; [|done].
  by eapply quiet_evolves, wait_for_completion_quiet.
Qed.

Lemma store_wf_world_after {A} (m : M A) (w : World) :
  post m w (λ w' _, store_wf w') → store_wf w → store_wf (world_after m w).
Proof.
  intros Hm Hw. unfold world_after.
  destruct (m w) as [[w' r]|] eqn:Hrun; [by eapply Hm|done].
Qed.

Lemma store_wf_example_start : store_wf example_start.
Proof. unfold example_start. do 3 apply store_wf_register_gm. apply store_wf_init. Qed.

Lemma store_wf_example_A_deferred : store_wf example_A_deferred.
Proof.
  apply store_wf_world_after; [|apply store_wf_example_start].
  apply store_wf_maybe_run, store_wf_example_start.
Qed.

Lemma store_wf_example_B_run : store_wf example_B_run.
Proof.
  apply store_wf_world_after; [|apply store_wf_example_A_deferred].
  apply store_wf_maybe_run, store_wf_example_A_deferred.
Qed.

Lemma store_wf_example_U_created : store_wf example_U_created.
Proof. apply store_wf_get_or_create_handle, store_wf_example_B_run. Qed.

(** *** [schedule] returns *)

Lemma bind_returns {A B} (m : M A) (f : A → M B) (w w1 : World) (a : A) :
  m w = Some (w1, inr a) → bind m f w = f a w1.
Proof. intros Hm. unfold bind. by rewrite Hm. Qed.

Lemma get_handle_returns (h : nat) (H : AsyncFuncHandle) (w : World) :
  heap w !! h = Some H → get_handle h w = Some (w, inr H).
Proof. intros Hh. unfold get_handle. by rewrite Hh. Qed.

Lemma update_handle_returns (h : nat) (f : AsyncFuncHandle → AsyncFuncHandle)
    (H : AsyncFuncHandle) (w : World) :
  heap w !! h = Some H →
  update_handle h f w = Some (with_heap (λ hp, <[h := f H]> hp) w, inr tt).
Proof.
  intros Hh. unfold update_handle.
  by rewrite (bind_returns _ _ _ _ _ (get_handle_returns h H w Hh)).
Qed.

Lemma same_shape_refl (H : AsyncFuncHandle) : same_shape H H.
Proof. split_and!; [done..|]. intros k p ? ?. by exists p. Qed.

Lemma same_shape_trans (H1 H2 H3 : AsyncFuncHandle) :
  same_shape H1 H2 → same_shape H2 H3 → same_shape H1 H3.
Proof.
  intros (Ha1 & Hf1 & Hl1 & Hp1) (Ha2 & Hf2 & Hl2 & Hp2).
  split_and!; [congruence..|].
  intros k p Hk Hm. destruct (Hp1 k p Hk Hm) as (p' & Hk' & Hm'). eauto.
Qed.

Lemma touched_below_refl (n : nat) (hp : list AsyncFuncHandle) : touched_below n hp hp.
Proof.
  split_and!; [done..|]. intros g G HG. exists G.
  split_and!; [done|apply same_shape_refl|done].
Qed.

Lemma touched_below_trans (n : nat) (hp1 hp2 hp3 : list AsyncFuncHandle) :
  touched_below n hp1 hp2 → touched_below n hp2 hp3 → touched_below n hp1 hp3.
Proof.
  intros (Hl1 & Hu1 & Ht1) (Hl2 & Hu2 & Ht2). split_and!.
  - congruence.
  - intros g Hg. by rewrite Hu2, Hu1.
  - intros g G1 HG1. destruct (Ht1 g G1 HG1) as (G2 & HG2 & Hs12 & Hd12).
    destruct (Ht2 g G2 HG2) as (G3 & HG3 & Hs23 & Hd23).
    exists G3. split_and!; [done|by eapply same_shape_trans|auto].
Qed.

Lemma touched_below_mono (n m : nat) (hp hp' : list AsyncFuncHandle) :
  n ≤ m → touched_below n hp hp' → touched_below m hp hp'.
Proof.
  intros Hnm (Hl & Hu & Ht). split_and!; [done| |].
  - intros g Hg. apply Hu. lia.
  - intros g G HG. destruct (Ht g G HG) as (G' & HG' & Hs & Hd).
    exists G'. split_and!; [done..|]. intros Hgm Hset.
    destruct (decide (g < n)) as [Hlt|Hge]; [by apply Hd|].
    rewrite Hu, HG in HG' by lia. by injection HG' as <-.
Qed.

Lemma touched_below_insert (n h : nat) (hp : list AsyncFuncHandle)
    (H H' : AsyncFuncHandle) :
  hp !! h = Some H → h < n → same_shape H H' → (settled H → settled H') →
  touched_below n hp (<[h := H']> hp).
Proof.
  intros Hh Hn Hs Hd. split_and!.
  - by rewrite length_insert.
  - intros g Hg. rewrite list_lookup_insert_ne by lia. done.
  - intros g G HG. destruct (decide (g = h)) as [->|Hne].
    + exists H'. rewrite list_lookup_insert_eq by (by eapply lookup_lt_Some).
      assert (G = H) as -> by congruence. done.
    + exists G. rewrite list_lookup_insert_ne by done.
      split_and!; [done|apply same_shape_refl|done].
Qed.

Lemma runnable_below_touched (n m : nat) (hp hp' : list AsyncFuncHandle) :
  runnable_below n hp → touched_below m hp hp' → runnable_below n hp'.
Proof.
  intros Hrun (Hl & Hu & Ht) x X' Hx HX'.
  destruct (lookup_lt_is_Some_2 hp x) as [X HX].
  { rewrite <-Hl. by eapply lookup_lt_Some. }
  destruct (Ht x X HX) as (X'' & HX'' & (Ha & Hf & Hlen & Hp) & Hd).
  assert (X'' = X') as -> by congruence.
  destruct (Hrun x X Hx HX) as (Hargs & Hfn & Hset). split_and!.
  - intros g k Hin. rewrite Ha in Hin.
    destruct (Hargs g k Hin) as (Hg & G & HG & Hk). split; [done|].
    destruct (Ht g G HG) as (G' & HG' & (_ & _ & Hlen' & _) & _).
    exists G'. split; [done|]. by rewrite Hlen'.
  - intros ts. rewrite Hf, Hlen. apply Hfn.
  - destruct (decide (x < m)) as [Hlt|Hge]; [by apply Hd|].
    rewrite Hu, HX in HX' by lia. by injection HX' as <-.
Qed.

Lemma runnable_below_mono (n m : nat) (hp : list AsyncFuncHandle) :
  n ≤ m → runnable_below m hp → runnable_below n hp.
Proof. intros Hnm Hrun h H Hh. apply Hrun. lia. Qed.

Lemma is_materialized_touched (n : nat) (hp hp' : list AsyncFuncHandle) (g k : nat) :
  touched_below n hp hp' →
  is_materialized hp g k = true → is_materialized hp' g k = true.
Proof.
  intros (_ & _ & Ht). unfold is_materialized.
  destruct (hp !! g) as [G|] eqn:HG; [|done].
  destruct (Ht g G HG) as (G' & -> & (_ & _ & _ & Hp) & _).
  destruct (outs_async G !! k) as [p|] eqn:Hk; [|done].
  intros Hm%bool_decide_eq_true. destruct (Hp k p Hk Hm) as (p' & -> & Hm').
  by apply bool_decide_eq_true.
Qed.

Lemma materialize_outs_length (os : list (option Tensor)) (ps : list AsyncTensor) :
  length (materialize_outs os ps) = length ps.
Proof.
  revert ps. induction os as [|out os IH]; intros [|p ps]; cbn; [done..|].
  by rewrite IH.
Qed.

Lemma materialize_outs_materialized (os : list (option Tensor)) (ps : list AsyncTensor)
    (k : nat) :
  k < length ps → length ps ≤ length os →
  ∃ p', materialize_outs os ps !! k = Some p' ∧ is_Some (_materialized_tensor p').
Proof.
  revert ps k. induction os as [|out os IH]; intros [|p ps] k Hk Hlen; cbn in *;
    [lia..|].
  destruct k as [|k]; cbn.
  - eexists. split; [done|]. by eexists.
  - apply IH; lia.
Qed.

Lemma materialize_args_returns (hp : list AsyncFuncHandle) (args : list Arg) :
  (∀ g k, ArgAsync g k ∈ args → is_materialized hp g k = true) →
  ∃ ts, materialize_args hp args = inr ts.
Proof.
  induction args as [|a args IH]; intros Hall; cbn; [by eexists|].
  destruct IH as [ts ->]. { intros g k Hin. apply Hall. by right. }
  destruct a as [t|g k]; [by eexists|].
  specialize (Hall g k (list_elem_of_here _ _)).
  unfold is_materialized in Hall. unfold get_materialized_tensor.
  destruct (hp !! g) as [G|]; [|done]. cbn.
  destruct (outs_async G !! k) as [p|]; [|done]. cbn.
  apply bool_decide_eq_true in Hall as [t ->]. by eexists.
Qed.

(** [wait_for_completion] on a scheduled, settled handle materializes all
    its placeholders. *)
Lemma wait_for_completion_returns (n h : nat) (H : AsyncFuncHandle) (w : World) :
  heap w !! h = Some H → h < n → is_Some (cuda_event H) → settled H →
  ∃ w', wait_for_completion h w = Some (w', inr tt)
        ∧ touched_below n (heap w) (heap w')
        ∧ ∀ k, k < length (outs_async H) → is_materialized (heap w') h k = true.
Proof.
  intros Hh Hn [e He] [Hnone|(os & Hos & Hlen)]; [congruence|].
  unfold wait_for_completion.
  rewrite (bind_returns _ _ _ _ _ (get_handle_returns h H w Hh)), He, Hos.
  rewrite (update_handle_returns _ _ H) by done.
  eexists. split; [done|]. cbn. split.
  - eapply touched_below_insert; [done|done| |].
    + split_and!; [done|done|cbn; apply materialize_outs_length|].
      intros k p Hk Hm. cbn.
      destruct (materialize_outs_lookup os _ k p Hk) as (p' & ? & ?). eauto.
    + intros _. right. exists os. split; [done|]. cbn.
      by rewrite materialize_outs_length.
  - intros k Hk. unfold is_materialized.
    rewrite list_lookup_insert_eq by (by eapply lookup_lt_Some). cbn.
    destruct (materialize_outs_materialized os (outs_async H) k) as (p' & -> & Hm);
      [done..|].
    by apply bool_decide_eq_true.
Qed.

(** [wait_until_materialized] returns when the recursive calls do. *)
Lemma wait_until_materialized_returns (rec : nat → M unit) (h : nat)
    (args : list Arg) (w : World) :
  (∀ g w0, g < h → g < length (heap w0) → runnable_below (S g) (heap w0) →
     ∃ w', rec g w0 = Some (w', inr tt)
           ∧ touched_below (S g) (heap w0) (heap w')
           ∧ scheduled (heap w') g) →
  (∀ g k, ArgAsync g k ∈ args →
     g < h ∧ ∃ G, heap w !! g = Some G ∧ k < length (outs_async G)) →
  runnable_below h (heap w) →
  ∃ w', wait_until_materialized rec args w = Some (w', inr tt)
        ∧ touched_below h (heap w) (heap w')
        ∧ ∀ g k, ArgAsync g k ∈ args → is_materialized (heap w') g k = true.
Proof.
  intros Hrec. revert w. unfold wait_until_materialized.
  induction args as [|a args IH]; intros w Hargs Hrun.
  - exists w. split_and!; [done|apply touched_below_refl|].
    by intros g k ?%elem_of_nil.
  - cbn [for_each].
    assert (∃ w1, (match a with
                   | ArgTensor _ => ret tt
                   | ArgAsync h0 k =>
                       bind get (λ w0,
                         if is_materialized (heap w0) h0 k then ret tt
                         else bind (rec h0) (λ _, bind (wait_for_completion h0) (λ _,
                              bind get (λ w', if is_materialized (heap w') h0 k
                                              then ret tt else diverge))))
                   end) w = Some (w1, inr tt)
                 ∧ touched_below h (heap w) (heap w1)
                 ∧ ∀ g k, a = ArgAsync g k → is_materialized (heap w1) g k = true)
      as (w1 & Ha & Ht1 & Hm1).
    { destruct a as [t|g k].
      - exists w. split_and!; [done|apply touched_below_refl|done].
      - rewrite bind_get.
        destruct (is_materialized (heap w) g k) eqn:Hm.
        + exists w. split_and!; [done|apply touched_below_refl|].
          by intros ? ? [= <- <-].
        + destruct (Hargs g k (list_elem_of_here _ _)) as (Hg & G & HG & Hk).
          destruct (Hrec g w Hg) as (w1 & Hrun1 & Ht1 & (G1 & HG1 & Htok1)).
          { by eapply lookup_lt_Some. }
          { eapply runnable_below_mono; [|done]. lia. }
          rewrite (bind_returns _ _ _ _ _ Hrun1).
          pose proof (runnable_below_touched _ _ _ _ Hrun Ht1) as Hrun'.
          destruct (Hrun' g G1 Hg HG1) as (_ & _ & Hset1).
          destruct (wait_for_completion_returns h g G1 w1 HG1 Hg Htok1 Hset1)
            as (w2 & Hrun2 & Ht2 & Hm2).
          rewrite (bind_returns _ _ _ _ _ Hrun2), bind_get.
          assert (length (outs_async G1) = length (outs_async G)) as Hlen.
          { destruct Ht1 as (_ & _ & Ht1). destruct (Ht1 g G HG) as (G1' & ? & Hs & _).
            assert (G1' = G1) as -> by congruence. by destruct Hs as (_ & _ & ? & _). }
          rewrite Hm2 by lia.
          exists w2. split_and!; [done| |].
          * eapply touched_below_trans; [|done].
            eapply touched_below_mono; [|done]. lia.
          * intros ? ? [= <- <-]. apply Hm2. lia. }
    rewrite (bind_returns _ _ _ _ _ Ha).
    destruct (IH w1) as (w2 & Hrun2 & Ht2 & Hm2).
    { intros g k Hin. destruct (Hargs g k) as (Hg & G & HG & Hk); [by right|].
      split; [done|]. destruct Ht1 as (_ & _ & Ht1).
      destruct (Ht1 g G HG) as (G' & HG' & (_ & _ & Hlen & _) & _).
      exists G'. split; [done|]. by rewrite Hlen. }
    { by eapply runnable_below_touched. }
    exists w2. split_and!; [done|by eapply touched_below_trans|].
    intros g k [Heq|Hin]%elem_of_cons.
    + eapply is_materialized_touched; [done|]. by apply Hm1.
    + by apply Hm2.
Qed.

Lemma runnable_below_insert (h : nat) (hp : list AsyncFuncHandle) (H' : AsyncFuncHandle) :
  runnable_below h hp → runnable_below h (<[h := H']> hp).
Proof.
  intros Hrun x X Hx HX. rewrite list_lookup_insert_ne in HX by lia.
  destruct (Hrun x X Hx HX) as (Hargs & Hfn & Hset). split_and!; [|done..].
  intros g k Hin. destruct (Hargs g k Hin) as (Hg & G & HG & Hk).
  split; [done|]. exists G. by rewrite list_lookup_insert_ne by lia.
Qed.

(** One call of [schedule] on a runnable handle returns, when the nested
    calls on earlier handles do. *)
Lemma schedule_body_returns (rec : nat → M unit) (h : nat) (w : World) :
  (∀ g w0, g < h → g < length (heap w0) → runnable_below (S g) (heap w0) →
     ∃ w', rec g w0 = Some (w', inr tt)
           ∧ touched_below (S g) (heap w0) (heap w')
           ∧ scheduled (heap w') g) →
  h < length (heap w) →
  runnable_below (S h) (heap w) →
  ∃ w', schedule_body rec h w = Some (w', inr tt)
        ∧ touched_below (S h) (heap w) (heap w')
        ∧ scheduled (heap w') h.
Proof.
  intros Hrec Hlt Hrun.
  destruct (lookup_lt_is_Some_2 _ _ Hlt) as [H Hh].
  destruct (Hrun h H (Nat.lt_succ_diag_r h) Hh) as (Hargs & Hfn & Hset).
  unfold schedule_body, print.
  rewrite (bind_returns _ _ _ _ _ (get_handle_returns h H w Hh)).
  destruct (cuda_event H) as [e|] eqn:Htok.
  { eexists. split_and!; [done|apply touched_below_refl|].
    exists H. split; [done|]. rewrite Htok. by eexists. }
  rewrite (bind_returns _ _ w (with_stdout _ w) tt eq_refl).
  rewrite (bind_returns _ _ _ _ _ (update_handle_returns h _ H (with_stdout _ w) Hh)).
  match goal with |- ∃ _, bind _ _ ?w' = _ ∧ _ => set (w1 := w') end.
  set (H1 := set_cuda_event (Some {| recorded := false |}) H).
  assert (heap w1 = <[h := H1]> (heap w)) as Hheap1 by done.
  destruct (wait_until_materialized_returns rec h (args H) w1 Hrec)
    as (w2 & Hrun2 & Ht2 & Hmat).
  { intros g k Hin. destruct (Hargs g k Hin) as (Hg & G & HG & Hk).
    split; [done|]. exists G. by rewrite Hheap1, list_lookup_insert_ne by lia. }
  { rewrite Hheap1. apply runnable_below_insert.
    eapply runnable_below_mono; [|done]. lia. }
  rewrite (bind_returns _ _ _ _ _ Hrun2), bind_get.
  destruct (materialize_args_returns (heap w2) (args H) Hmat) as [am Ham].
  rewrite Ham. cbn [lift_exn]. rewrite (bind_returns _ _ w2 _ am eq_refl).
  assert (heap w2 !! h = Some H1) as Hh2.
  { destruct Ht2 as (_ & Hu & _). rewrite Hu, Hheap1 by lia.
    by rewrite list_lookup_insert_eq. }
  rewrite (bind_returns _ _ _ _ _ (update_handle_returns h _ H1 _ Hh2)).
  match goal with |- ∃ _, bind _ _ ?w' = _ ∧ _ => set (w3 := w') end.
  destruct (record_execution_step (segment_name H) w3)
    as (w4 & Hrun4 & Hheap4 & _).
  rewrite (bind_returns _ _ _ _ _ Hrun4).
  rewrite (bind_returns _ _ w4 (log_call h w4) tt eq_refl).
  destruct (Hfn am) as (os & Hos & Hlen). rewrite Hos. cbn [lift_exn].
  rewrite (bind_returns _ _ (log_call h w4) _ os eq_refl).
  set (H3 := set_args_materialized (Some am) H1).
  assert (heap (log_call h w4) !! h = Some H3) as Hh5.
  { cbn. rewrite Hheap4. cbn.
    by rewrite list_lookup_insert_eq by (by eapply lookup_lt_Some). }
  rewrite (bind_returns _ _ _ _ _ (update_handle_returns h _ H3 _ Hh5)).
  match goal with |- ∃ _, update_handle _ _ ?w' = _ ∧ _ => set (w6 := w') end.
  set (H6 := set_outs (Some os) H3).
  assert (heap w6 !! h = Some H6) as Hh6.
  { cbn. by rewrite list_lookup_insert_eq by (by eapply lookup_lt_Some). }
  rewrite (update_handle_returns h _ H6 _ Hh6).
  eexists. split; [done|]. cbn. rewrite Hheap4. cbn.
  rewrite !list_insert_insert_eq.
  set (H7 := set_cuda_event (Some {| recorded := true |}) H6).
  assert (same_shape H H7) as Hshape.
  { split_and!; [done..|]. intros k p ? ?. by exists p. }
  assert (settled H7) as Hset7 by (right; by exists os).
  assert (h < length (heap w2)) as Hlt2 by (by eapply lookup_lt_Some).
  destruct Ht2 as (Hl2 & Hu2 & Ht2). split.
  - split_and!.
    + rewrite length_insert, Hl2, Hheap1. by rewrite length_insert.
    + intros g Hg. rewrite list_lookup_insert_ne, Hu2, Hheap1 by lia.
      by rewrite list_lookup_insert_ne by lia.
    + intros g G HG. destruct (decide (g = h)) as [->|Hne].
      * exists H7. rewrite list_lookup_insert_eq by done.
        assert (G = H) as -> by congruence. done.
      * destruct (Ht2 g G) as (G' & HG' & Hs & Hd).
        { by rewrite Hheap1, list_lookup_insert_ne. }
        exists G'. rewrite list_lookup_insert_ne by done.
        split_and!; [done..|]. intros Hg. apply Hd. lia.
  - exists H7. split; [by rewrite list_lookup_insert_eq|by eexists].
Qed.

(** [schedule] returns: on a handle that is runnable, as are the handles
    before it, with fuel for the longest chain of placeholders. *)
Lemma schedule_returns (fuel h : nat) (w : World) :
  h ≤ fuel → h < length (heap w) → runnable_below (S h) (heap w) →
  ∃ w', schedule fuel h w = Some (w', inr tt)
        ∧ touched_below (S h) (heap w) (heap w')
        ∧ scheduled (heap w') h.
Proof.
  revert h w. induction fuel as [|fuel IH]; intros h w Hfuel Hlt Hrun;
    rewrite schedule_unfold; apply schedule_body_returns; try done.
  - intros g w0 Hg. lia.
  - intros g w0 Hg Hlt0 Hrun0. apply IH; [lia|done..].
Qed.

Lemma for_each_schedule_returns (fuel : nat) (hs : list nat) (w : World) :
  (∀ h, h ∈ hs → h < length (heap w)) →
  length (heap w) ≤ fuel →
  runnable_below (length (heap w)) (heap w) →
  ∃ w', for_each (schedule fuel) hs w = Some (w', inr tt)
        ∧ touched_below (length (heap w)) (heap w) (heap w').
Proof.
  revert w. induction hs as [|h hs IH]; intros w Hhs Hfuel Hrun; cbn [for_each].
  - exists w. split; [done|apply touched_below_refl].
  - assert (h < length (heap w)) as Hh by (apply Hhs; left).
    destruct (schedule_returns fuel h w) as (w1 & Hrun1 & Ht1 & _); [lia|done| |].
    { eapply runnable_below_mono; [|done]. lia. }
    rewrite (bind_returns _ _ _ _ _ Hrun1).
    apply (touched_below_mono _ (length (heap w))) in Ht1; [|lia].
    pose proof Ht1 as (Hl1 & _).
    destruct (IH w1) as (w2 & Hrun2 & Ht2).
    { intros h' Hin. rewrite Hl1. apply Hhs. by right. }
    { by rewrite Hl1. }
    { rewrite Hl1. by eapply runnable_below_touched. }
    exists w2. split; [done|]. rewrite Hl1 in Ht2. by eapply touched_below_trans.
Qed.

Lemma spec_scan_instances_handles (s : LazyScheduler) (gm : GraphModule)
    (gs : list GraphModule) (preceding : list nat) (P : nat → Prop) :
  (∀ g h, _gm_to_handle_map s !! g = Some h → P h) →
  Forall P preceding →
  match spec_scan_instances s gm gs preceding with
  | inl (Reached preceding') | inl (Exhausted preceding') | inr preceding' =>
      Forall P preceding'
  | inl Deferred => True
  end.
Proof.
  intros Hmap. revert preceding. induction gs as [|g gs IH]; intros preceding Hpre; cbn.
  - done.
  - case_decide; [done|].
    destruct (_gm_to_handle_map s !! gm_id g) as [h|] eqn:Hh; [|done].
    apply IH. apply Forall_app. split; [done|]. apply Forall_singleton. by eapply Hmap.
Qed.

Lemma spec_admission_walk_handles (s : LazyScheduler) (gm : GraphModule)
    (schedule : list string) (preceding : list nat) (P : nat → Prop) :
  (∀ g h, _gm_to_handle_map s !! g = Some h → P h) →
  Forall P preceding →
  match spec_admission_walk s gm schedule preceding with
  | Reached preceding' | Exhausted preceding' => Forall P preceding'
  | Deferred => True
  end.
Proof.
  intros Hmap. revert preceding.
  induction schedule as [|name schedule IH]; intros preceding Hpre;
    cbn [spec_admission_walk].
  - done.
  - destruct (default [] (_segment_to_gms_map s !! name)) as [|g gs]; [done|].
    pose proof (spec_scan_instances_handles s gm (g :: gs) preceding P Hmap Hpre) as Hscan.
    destruct (spec_scan_instances s gm (g :: gs) preceding) as [[| |]|preceding'];
      [done..|]. by apply IH.
Qed.

(** X19: [maybe_run] returns the placeholders of the current handle: when
    every handle of the store is runnable, the new one included, and the
    fuel covers the handles.  Unless the invocation is deferred, the current
    handle is scheduled then. *)
Theorem maybe_run_returns (fuel : nat) (gm : GraphModule)
    (compiled_fn : list Tensor → Exn + list (option Tensor))
    (cur_segment_name : string) (args : list Arg) (w : World) :
  let w1 := (get_or_create_handle gm compiled_fn cur_segment_name args w).1 in
  let cur_handle := (get_or_create_handle gm compiled_fn cur_segment_name args w).2 in
  registry_wf (scheduler w) →
  handles_wf w →
  runnable_below (length (heap w1)) (heap w1) →
  length (heap w1) ≤ fuel →
  ∃ w' H,
    maybe_run fuel gm compiled_fn cur_segment_name args w
    = Some (w', inr (outs_async_of cur_handle H))
    ∧ heap w' !! cur_handle = Some H
    ∧ (spec_admission_walk (scheduler w1) gm (_schedule (scheduler w1)) [] ≠ Deferred →
       scheduled (heap w') cur_handle).
Proof.
  intros w1 cur Hwf Hhwf Hrun Hfuel.
  destruct (get_or_create_handle_frame gm compiled_fn cur_segment_name args w)
    as (Hsch & Hreg & _).
  destruct (get_or_create_handle_live gm compiled_fn cur_segment_name args w Hhwf)
    as (Hcur & [H1 HH1] & Hhwf1).
  fold w1 cur in Hsch, Hreg, Hcur, HH1, Hhwf1.
  unfold maybe_run. rewrite bind_state, bind_get. fold w1 cur.
  destruct (walk_from_start (scheduler w1) gm) as (st & -> & Hm).
  { intros name _ Hgs. rewrite Hreg in Hgs. by eapply Hwf. }
  pose proof (spec_admission_walk_handles (scheduler w1) gm (_schedule (scheduler w1)) []
                (λ h, h < length (heap w1)) Hhwf1 (Forall_nil_2 _)) as Hpre.
  assert (∀ preceding,
            all_preceding_graph_handles_are_created st = true →
            all_preceding_graph_handles st = preceding →
            Forall (λ h, h < length (heap w1)) preceding →
            ∃ w' H,
              (if negb (all_preceding_graph_handles_are_created st)
               then bind (record_delayed cur_segment_name)
                      (λ _, return_outs_async cur)
               else bind (for_each (schedule fuel) (all_preceding_graph_handles st))
                      (λ _, bind (schedule fuel cur) (λ _, return_outs_async cur))) w1
              = Some (w', inr (outs_async_of cur H))
              ∧ heap w' !! cur = Some H ∧ scheduled (heap w') cur) as Hadm.
  { intros preceding -> -> Hall. cbn [negb].
    destruct (for_each_schedule_returns fuel preceding w1) as (w2 & Hrun2 & Ht2);
      [by apply Forall_forall|done|done|].
    rewrite (bind_returns _ _ _ _ _ Hrun2).
    pose proof Ht2 as (Hl2 & _).
    assert (cur < length (heap w1)) as Hlt by (by eapply lookup_lt_Some).
    destruct (schedule_returns fuel cur w2) as (w3 & Hrun3 & Ht3 & Hs3);
      [lia|lia| |].
    { eapply runnable_below_mono; [|by eapply runnable_below_touched]. lia. }
    rewrite (bind_returns _ _ _ _ _ Hrun3).
    destruct Hs3 as (H3 & HH3 & Htok3).
    unfold return_outs_async.
    rewrite (bind_returns _ _ _ _ _ (get_handle_returns cur H3 w3 HH3)).
    exists w3, H3. split_and!; [done|done|]. by exists H3. }
  destruct (spec_admission_walk _ _ _ _) as [preceding| |preceding]; cbn in Hm.
  - destruct Hm as (Hc & _ & Hp). destruct (Hadm preceding Hc Hp Hpre) as (w' & H & ? & ? & ?).
    by exists w', H.
  - rewrite Hm. cbn [negb]. unfold record_delayed.
    rewrite (bind_returns _ _ w1 _ tt eq_refl). unfold return_outs_async.
    erewrite bind_returns by (by apply get_handle_returns).
    eexists _, H1. split_and!; [done|done|done].
  - destruct Hm as (Hc & _ & Hp). destruct (Hadm preceding Hc Hp Hpre) as (w' & H & ? & ? & ?).
    by exists w', H.
Qed.


(** *** What the diagnostics can raise *)

Lemma remove_length (x : string) (l l' : list string) :
  PyList.remove x l = Some l' → length l = S (length l').
Proof.
  unfold PyList.remove. destruct (PyList.index x l) as [i|] eqn:Hi; [|done].
  cbn. intros [= <-]. apply index_Some in Hi as [Hi _].
  rewrite length_delete by done. apply lookup_lt_Some in Hi. lia.
Qed.

Lemma early_found_outcome (s : Diagnostics.Scan) (seg : string) (i : nat) :
  length (Diagnostics.schedule s) = length (Diagnostics.recorded_execution_order s) →
  i + 1 < length (Diagnostics.recorded_execution_order s) →
  match Diagnostics.early_found s seg i with
  | Diagnostics.Raised e => e = ValueError
  | Diagnostics.NoBreak => False
  | Diagnostics.Break s' =>
      length (Diagnostics.schedule s')
      = length (Diagnostics.recorded_execution_order s')
  end.
Proof.
  intros Hlen Hi. unfold Diagnostics.early_found.
  destruct (lookup_lt_is_Some_2 _ _ Hi) as [dep ->].
  destruct (PyList.remove seg (Diagnostics.schedule s)) as [sch1|] eqn:Hs1; [|done].
  cbn. destruct (PyList.remove dep sch1) as [sch2|] eqn:Hs2; [|done].
  destruct (PyList.remove seg (Diagnostics.recorded_execution_order s))
    as [rec1|] eqn:Hr1; [|done].
  cbn. destruct (PyList.remove dep rec1) as [rec2|] eqn:Hr2; [|done]. cbn.
  apply remove_length in Hs1, Hs2, Hr1, Hr2. lia.
Qed.

Lemma for_reversed_outcome (s : Diagnostics.Scan) (todo : list (nat * string)) :
  length (Diagnostics.schedule s) = length (Diagnostics.recorded_execution_order s) →
  (∀ k seg, (k, seg) ∈ todo → k < length (Diagnostics.schedule s)) →
  match Diagnostics.for_reversed s todo with
  | Diagnostics.Raised e => e = ValueError
  | Diagnostics.NoBreak => True
  | Diagnostics.Break s' =>
      length (Diagnostics.schedule s')
      = length (Diagnostics.recorded_execution_order s')
  end.
Proof.
  intros Hlen. induction todo as [|[k seg] todo IH]; intros Hk; cbn; [done|].
  destruct (PyList.index seg _) as [i|]; [|done].
  destruct (decide (i < k)) as [Hlt|Hge].
  - assert (i + 1 < length (Diagnostics.recorded_execution_order s)) as Hi.
    { specialize (Hk k seg (list_elem_of_here _ _)). lia. }
    generalize (early_found_outcome s seg i Hlen Hi).
    by destruct (Diagnostics.early_found s seg i).
  - apply IH. intros k' seg' Hin. apply (Hk k' seg'). by right.
Qed.

Lemma while_loop_raises (fuel : nat) (s : Diagnostics.Scan) (e : Exn) :
  length (Diagnostics.schedule s) = length (Diagnostics.recorded_execution_order s) →
  Diagnostics.while_loop fuel s = Some (inl e) → e = ValueError.
Proof.
  revert s. induction fuel as [|fuel IH]; intros s Hlen; cbn;
    (case_decide; [done|]); [done|].
  unfold Diagnostics.for_loop.
  generalize (for_reversed_outcome s
                (reverse (PyList.enumerate (Diagnostics.schedule s))) Hlen).
  destruct (Diagnostics.for_reversed _ _) as [e'| |s']; intros Hout.
  - intros [= <-]. apply Hout. intros k seg Hin.
    rewrite elem_of_reverse, enumerate_lookup in Hin. by eapply lookup_lt_Some.
  - by apply IH.
  - apply IH, Hout. intros k seg Hin.
    rewrite elem_of_reverse, enumerate_lookup in Hin. by eapply lookup_lt_Some.
Qed.

(** X12: the reverse scan raises an [AssertionError] exactly when its two
    arguments differ in length, whatever they hold; the only other
    exception it can raise is the [ValueError] of [list.index] and
    [list.remove]: the read of [recorded_execution_order[index + 1]] is
    always in range. *)
Theorem find_delayed_seg_dependencies_raises (fuel : nat) (sch rec : list string) :
  (Diagnostics.find_delayed_seg_dependencies_best_effort fuel sch rec
   = Some (inl AssertionError)
   ↔ length sch ≠ length rec)
  ∧ ∀ e, Diagnostics.find_delayed_seg_dependencies_best_effort fuel sch rec
         = Some (inl e) →
         e = AssertionError ∨ e = ValueError.
Proof.
  unfold Diagnostics.find_delayed_seg_dependencies_best_effort.
  case_decide as Hlen.
  - destruct (Diagnostics.while_loop fuel _) as [[e'|deps]|] eqn:Hloop; cbn.
    + apply (while_loop_raises fuel _ e') in Hloop; [|done]. subst e'. split.
      * split; [by intros [=]|done].
      * intros e [= <-]. by right.
    + split; [split; [by intros [=]|done]|by intros e [=]].
    + split; [split; [by intros [=]|done]|by intros e [=]].
  - split; [done|]. intros e [= <-]. by left.
Qed.

(** X13: [debug] never returns normally and never changes the scheduler:
    when it ends, it ends with one of its two reports, or with the
    [ValueError] that escapes the reverse scan. *)
Theorem debug_always_raises (fuel : nat) (w w' : World) (r : Exn + unit) :
  debug fuel w = Some (w', r) →
  w' = w
  ∧ ((∃ rep, r = inl (RuntimeError_report rep)) ∨ r = inl ValueError).
Proof.
  unfold debug, bind, get, best_guess. cbn.
  destruct (bool_decide _ || negb _) eqn:Hc;
    [intros [= <- <-]; split; [done|left; by eexists]|].
  apply orb_false_iff in Hc as [Hlen _]. apply bool_decide_eq_false in Hlen.
  destruct (bool_decide (_ ≠ _)); cbn;
    [|intros [= <- <-]; split; [done|left; by eexists]].
  destruct (Diagnostics.find_delayed_seg_dependencies_best_effort _ _ _)
    as [[e|msg]|] eqn:Hscan; cbn; [| |done].
  - intros [= <- <-]. split; [done|]. right.
    unfold Diagnostics.find_delayed_seg_dependencies_best_effort in Hscan.
    case_decide as Hl; [|by destruct Hlen].
    destruct (Diagnostics.while_loop fuel _) as [[e'|deps]|] eqn:Hloop;
      cbn in Hscan; [|done..].
    injection Hscan as <-. f_equal. by apply (while_loop_raises fuel _ e') in Hloop.
  - intros [= <- <-]. split; [done|left; by eexists].
Qed.



(** *** One call of [schedule], step by step *)





Lemma materialize_outs_lookup_value (os : list (option Tensor)) (ps : list AsyncTensor)
    (k : nat) :
  materialize_outs os ps !! k
  = match os !! k, ps !! k with
    | Some out, Some p => Some (materialize_with_value (default zeros out) p)
    | _, _ => ps !! k
    end.
Proof.
  revert ps k. induction os as [|out os IH]; intros [|p ps] k; cbn; [done..| |].
  - destruct k as [|k]; cbn; [done|]. by destruct (os !! k).
  - destruct k as [|k]; cbn; [done|]. apply IH.
Qed.

(** X17: [wait_for_completion] on a scheduled handle that has its outputs
    returns and writes them into the placeholders of the handle, pairwise as
    [zip] pairs them: placeholder [k] holds output [k], a scalar zero where
    that output is [None]; a placeholder beyond the last output stays as it
    was.  No other handle is touched, nothing is recorded, no callable
    runs. *)
Theorem wait_for_completion_writes_outputs (h : nat) (H : AsyncFuncHandle)
    (os : list (option Tensor)) (w : World) :
  heap w !! h = Some H → is_Some (cuda_event H) → outs H = Some os →
  ∃ w', wait_for_completion h w = Some (w', inr tt)
        ∧ scheduler w' = scheduler w ∧ calls w' = calls w ∧ stdout w' = stdout w
        ∧ length (heap w') = length (heap w)
        ∧ (∀ g, g ≠ h → heap w' !! g = heap w !! g)
        ∧ ∀ k, get_materialized_tensor (heap w') h k
               = match os !! k, outs_async H !! k with
                 | Some out, Some _ => Some (default zeros out)
                 | _, _ => get_materialized_tensor (heap w) h k
                 end.
Proof.
  intros Hh [e He] Hos. unfold wait_for_completion.
  rewrite (bind_returns _ _ _ _ _ (get_handle_returns h H w Hh)), He, Hos.
  rewrite (update_handle_returns _ _ H) by done.
  eexists. split; [done|]. cbn.
  assert (h < length (heap w)) as Hlt by (by eapply lookup_lt_Some).
  split_and!; [done..|by rewrite length_insert| |].
  - intros g Hne. by rewrite list_lookup_insert_ne.
  - intros k. unfold get_materialized_tensor.
    rewrite list_lookup_insert_eq, Hh by done. cbn.
    rewrite materialize_outs_lookup_value.
    destruct (os !! k) as [out|]; [|done].
    by destruct (outs_async H !! k).
Qed.

(** X18: on a store of runnable handles, [schedule] followed by
    [wait_for_completion] returns, and every placeholder of the handle is
    materialized afterwards: the fuel covers the chain of handles the
    arguments reach. *)
Theorem schedule_then_wait_materializes (fuel h : nat) (w : World) :
  h ≤ fuel → h < length (heap w) → runnable_below (S h) (heap w) →
  ∃ w', (schedule fuel h;; wait_for_completion h) w = Some (w', inr tt)
        ∧ ∀ H k, heap w !! h = Some H → k < length (outs_async H) →
            is_materialized (heap w') h k = true.
Proof.
  intros Hfuel Hlt Hrun.
  destruct (lookup_lt_is_Some_2 _ _ Hlt) as [H Hh].
  destruct (schedule_returns fuel h w Hfuel Hlt Hrun) as (w1 & Hrun1 & Ht1 & Hs1).
  rewrite (bind_returns _ _ _ _ _ Hrun1).
  destruct Hs1 as (H1 & Hh1 & Htok1).
  destruct (Hrun h H (Nat.lt_succ_diag_r h) Hh) as (_ & _ & Hset).
  destruct Ht1 as (_ & _ & Ht1).
  destruct (Ht1 h H Hh) as (H1' & Hh1' & (_ & _ & Hlen & _) & Hset1).
  assert (H1' = H1) as -> by congruence.
  destruct (wait_for_completion_returns (S h) h H1 w1 Hh1 (Nat.lt_succ_diag_r h) Htok1)
    as (w2 & Hrun2 & _ & Hm2); [apply Hset1; [lia|done]|].
  exists w2. split; [done|]. intros H0 k HH0 Hk. apply Hm2.
  assert (H0 = H) as -> by congruence. by rewrite Hlen.
Qed.


(** *** [maybe_run] and the store *)

(** X20: [maybe_run] keeps the invariant of the store: no Registry entry is
    empty, every handle of [_gm_to_handle_map] exists, every callable ran at
    most once and only for a handle with a completion token, and the
    Execution Record has no two identical adjacent entries. *)
Theorem maybe_run_keeps_store_invariant (fuel : nat) (gm : GraphModule)
    (compiled_fn : list Tensor → Exn + list (option Tensor))
    (cur_segment_name : string) (args : list Arg) (w w' : World)
    (r : Exn + list Arg) :
  store_wf w →
  maybe_run fuel gm compiled_fn cur_segment_name args w = Some (w', r) →
  store_wf w'.
Proof. intros Hw Hrun. by eapply store_wf_maybe_run. Qed.

(** X21: whatever [maybe_run] does, and however it ends, the Schedule and
    the Registry are as before, no handle loses its arguments, its
    completion token or a materialized placeholder, and every callable it
    invoked belonged to a handle that had no completion token before, has
    one now, was invoked once, and had all its inputs materialized at the
    call. *)
Theorem maybe_run_calls_materialized (fuel : nat) (gm : GraphModule)
    (compiled_fn : list Tensor → Exn + list (option Tensor))
    (cur_segment_name : string) (args : list Arg) (w w' : World)
    (r : Exn + list Arg) :
  maybe_run fuel gm compiled_fn cur_segment_name args w = Some (w', r) →
  _schedule (scheduler w') = _schedule (scheduler w)
  ∧ _segment_to_gms_map (scheduler w') = _segment_to_gms_map (scheduler w)
  ∧ heap_le (heap w) (heap w')
  ∧ ∃ new, calls w' = calls w ++ new
           ∧ NoDup new.*1
           ∧ ∀ g σ, (g, σ) ∈ new →
               inputs_materialized σ g
               ∧ ¬ scheduled (heap w) g ∧ scheduled (heap w') g.
Proof.
  intros Hrun.
  destruct (maybe_run_evolves fuel gm compiled_fn cur_segment_name args w w' r Hrun)
    as (Hle & (Hs & Hreg & _) & new & Hcalls & Hnd & Hnew).
  destruct (get_or_create_handle_frame gm compiled_fn cur_segment_name args w)
    as (Hs1 & Hreg1 & _ & _ & Hcalls1 & _ & more & Hheap1 & _).
  cbv zeta in *.
  assert (heap_le (heap w)
            (heap (get_or_create_handle gm compiled_fn cur_segment_name args w).1))
    as Hle1 by (rewrite Hheap1; apply heap_le_app).
  split_and!; [congruence|congruence|by eapply heap_le_trans|].
  exists new. split_and!; [congruence|done|].
  intros g σ Hin. destruct (Hnew g σ Hin) as (Hm & Hns & Hsch).
  split_and!; [done| |done]. intros Hs0. apply Hns. by eapply scheduled_mono.
Qed.

(** X22: a graph module has one handle.  After "Create the handle and the
    async tensors" the graph module is mapped to the handle the step
    yields and no other entry of [_gm_to_handle_map] has changed; a graph
    module that had a handle keeps it, and nothing at all is changed; one
    that had none gets a new handle behind the existing ones, without
    completion token or outputs, with the arguments of this call and one
    empty placeholder for each output descriptor; and the same step for the
    same graph module again yields this handle and changes nothing,
    whatever the callable, the name and the arguments it is given. *)
Theorem get_or_create_handle_one_per_graph (gm : GraphModule)
    (compiled_fn : list Tensor → Exn + list (option Tensor))
    (cur_segment_name : string) (cur_args : list Arg) (w : World) :
  _gm_to_handle_map (scheduler (get_or_create_handle gm compiled_fn cur_segment_name cur_args w).1)
    !! gm_id gm
  = Some (get_or_create_handle gm compiled_fn cur_segment_name cur_args w).2
  ∧ (∀ g, g ≠ gm_id gm →
       _gm_to_handle_map
         (scheduler (get_or_create_handle gm compiled_fn cur_segment_name cur_args w).1) !! g
       = _gm_to_handle_map (scheduler w) !! g)
  ∧ (∀ h, _gm_to_handle_map (scheduler w) !! gm_id gm = Some h →
       get_or_create_handle gm compiled_fn cur_segment_name cur_args w = (w, h))
  ∧ (_gm_to_handle_map (scheduler w) !! gm_id gm = None →
     ∃ H, (get_or_create_handle gm compiled_fn cur_segment_name cur_args w).2 = length (heap w)
          ∧ heap (get_or_create_handle gm compiled_fn cur_segment_name cur_args w).1
            = heap w ++ [H]
          ∧ cuda_event H = None ∧ outs H = None ∧ args_materialized H = None
          ∧ fn H = compiled_fn ∧ args H = cur_args ∧ segment_name H = cur_segment_name
          ∧ length (outs_async H)
            = length (forward gm (omap (fake_of_arg (heap w)) cur_args))
          ∧ ∀ p, p ∈ outs_async H →
              _materialized_tensor p = None ∧ _handle p = length (heap w))
  ∧ ∀ compiled_fn' cur_segment_name' cur_args',
      get_or_create_handle gm compiled_fn' cur_segment_name' cur_args'
        (get_or_create_handle gm compiled_fn cur_segment_name cur_args w).1
      = get_or_create_handle gm compiled_fn cur_segment_name cur_args w.
Proof.
  unfold get_or_create_handle.
  destruct (_gm_to_handle_map (scheduler w) !! gm_id gm) as [h|] eqn:Hgm; cbn.
  - split_and!; [done|done|by intros ? [= ->]|done|]. intros f' n' a'. by rewrite Hgm.
  - split_and!.
    + by rewrite lookup_insert_eq.
    + intros g Hne. by rewrite lookup_insert_ne.
    + done.
    + intros _. eexists. split_and!; [done..| |].
      * cbn. by rewrite length_fmap.
      * cbn. by intros p (o & -> & _)%list_elem_of_fmap.
    + intros f' n' a'. by rewrite lookup_insert_eq.
Qed.

End Scheduler.




(** ** Properties of segment names *)

Lemma string_app_cons (a : Ascii.ascii) (s t : string) :
  String a s +:+ t = String a (s +:+ t).
Proof. done. Qed.

Lemma list_ascii_of_string_app (s t : string) :
  String.list_ascii_of_string (s +:+ t)
  = String.list_ascii_of_string s ++ String.list_ascii_of_string t.
Proof.
  induction s as [|a s IH]; [done|]. rewrite string_app_cons. cbn. by rewrite IH.
Qed.

Lemma list_ascii_of_string_length (s : string) :
  length (String.list_ascii_of_string s) = String.length s.
Proof. induction s; cbn; [done|]. by f_equal. Qed.

Lemma string_of_list_ascii_inj (s t : string) :
  String.list_ascii_of_string s = String.list_ascii_of_string t → s = t.
Proof.
  intros Heq. rewrite <-(String.string_of_list_ascii_of_string s),
    <-(String.string_of_list_ascii_of_string t). by rewrite Heq.
Qed.

Lemma startswith_app (p s : string) : startswith (p +:+ s) p = true.
Proof.
  unfold startswith. induction p as [|a p IH].
  - by destruct s.
  - rewrite string_app_cons. cbn. destruct (Ascii.ascii_dec a a); [apply IH|done].
Qed.

Lemma startswith_app_r (s t p : string) :
  startswith s p = true → startswith (s +:+ t) p = true.
Proof.
  unfold startswith. revert s. induction p as [|a p IH]; intros s.
  - intros _. by destruct (s +:+ t).
  - destruct s as [|b s]; [done|]. rewrite string_app_cons. cbn.
    destruct (Ascii.ascii_dec a b); [apply IH|done].
Qed.

Lemma endswith_app (s suffix : string) : Naming.endswith (s +:+ suffix) suffix = true.
Proof.
  unfold Naming.endswith. cbv zeta. apply bool_decide_eq_true.
  rewrite list_ascii_of_string_app, length_app.
  replace (_ + _ - _) with (length (String.list_ascii_of_string s)) by lia.
  by rewrite drop_app_length.
Qed.

Lemma endswith_app_ne (s suffix suffix' : string) :
  String.length suffix = String.length suffix' → suffix ≠ suffix' →
  Naming.endswith (s +:+ suffix) suffix' = false.
Proof.
  intros Hlen Hne. unfold Naming.endswith. cbv zeta. apply bool_decide_eq_false.
  rewrite list_ascii_of_string_app, length_app, !list_ascii_of_string_length, <-Hlen.
  replace (_ + _ - _) with (String.length s) by lia.
  rewrite <-(list_ascii_of_string_length s), drop_app_length.
  by intros ?%string_of_list_ascii_inj.
Qed.

Lemma endswith_inv (s suffix : string) :
  Naming.endswith s suffix = true → ∃ p, s = p +:+ suffix.
Proof.
  unfold Naming.endswith. cbv zeta. intros Hd%bool_decide_eq_true.
  eexists (String.string_of_list_ascii _).
  apply string_of_list_ascii_inj.
  rewrite list_ascii_of_string_app, String.list_ascii_of_string_of_list_ascii.
  rewrite <-Hd. symmetry. apply take_drop.
Qed.

Lemma drop_last4_app (s suffix : string) :
  String.length suffix = 4 → Naming.drop_last4 (s +:+ suffix) = s.
Proof.
  intros Hlen. unfold Naming.drop_last4. cbv zeta.
  apply string_of_list_ascii_inj.
  rewrite String.list_ascii_of_string_of_list_ascii, list_ascii_of_string_app, length_app.
  rewrite (list_ascii_of_string_length suffix), Hlen.
  replace (_ + 4 - 4) with (length (String.list_ascii_of_string s)) by lia.
  by rewrite take_app_length.
Qed.

Lemma compute_segment_name_drop_last4 (s : string) :
  (Naming.endswith s "_fwd" = true →
   Naming.compute_segment_name (Naming.drop_last4 s) false = s)
  ∧ (Naming.endswith s "_bwd" = true →
     Naming.compute_segment_name (Naming.drop_last4 s) true = s).
Proof.
  unfold Naming.compute_segment_name.
  split; intros [q ->]%endswith_inv; by rewrite drop_last4_app.
Qed.

(** X1: [compute_segment_name] and the [name[:-4]] of [_prepare_segments]
    and [_register_segment] are inverse to each other: the prefix of a
    computed name is the prefix it was computed from, a computed name ends
    with its own suffix and not with the other one, and a name that ends
    with [_fwd] or [_bwd] is the name computed from its prefix. *)
Theorem segment_name_round_trip :
  (∀ p b, Naming.drop_last4 (Naming.compute_segment_name p b) = p)
  ∧ (∀ p, Naming.endswith (Naming.compute_segment_name p false) "_fwd" = true
          ∧ Naming.endswith (Naming.compute_segment_name p false) "_bwd" = false
          ∧ Naming.endswith (Naming.compute_segment_name p true) "_bwd" = true
          ∧ Naming.endswith (Naming.compute_segment_name p true) "_fwd" = false)
  ∧ (∀ s, (Naming.endswith s "_fwd" = true →
           Naming.compute_segment_name (Naming.drop_last4 s) false = s)
          ∧ (Naming.endswith s "_bwd" = true →
             Naming.compute_segment_name (Naming.drop_last4 s) true = s)).
Proof.
  split_and!.
  - intros p []; by apply drop_last4_app.
  - intros p. unfold Naming.compute_segment_name.
    split_and!; (apply endswith_app || by apply endswith_app_ne).
  - apply compute_segment_name_drop_last4.
Qed.

Lemma graph_segment_name_visible (user : gset string) (segment_prefix : string)
    (is_backward : bool) :
  (∀ n, n ∈ user → Naming.is_user_visible n = true) →
  Naming.is_user_visible (Naming.graph_segment_name user segment_prefix is_backward).1.2
  = bool_decide ((Naming.graph_segment_name user segment_prefix is_backward).1.2 ∈ user).
Proof.
  intros Huser. unfold Naming.graph_segment_name. cbv zeta.
  assert (∀ n, Naming.is_user_visible n = false → bool_decide (n ∈ user) = false) as Hinv.
  { intros n Hn. apply bool_decide_eq_false. intros Hin%Huser. congruence. }
  destruct (startswith segment_prefix unnamed_segment_prefix) eqn:Hun; cbn [negb andb].
  - cbn [fst snd].
    assert (Naming.is_user_visible
              (Naming.compute_segment_name segment_prefix is_backward) = false) as Hv.
    { unfold Naming.is_user_visible, Naming.compute_segment_name.
      destruct is_backward;
        by rewrite (startswith_app_r _ _ "__unnamed_" Hun). }
    by rewrite Hv, Hinv.
  - case_bool_decide as Hin; cbn [fst snd].
    + assert (Naming.is_user_visible
                (Naming.compute_segment_name
                   (unregistered_named_segment_prefix +:+ segment_prefix) is_backward)
              = false) as Hv.
      { unfold Naming.is_user_visible, Naming.compute_segment_name.
        pose proof (startswith_app "__unregistered_" segment_prefix) as Hreg.
        destruct is_backward;
          rewrite (startswith_app_r _ _ "__unregistered_" Hreg); apply andb_false_r. }
      by rewrite Hv, Hinv.
    + rewrite (Huser _ Hin). symmetry.
      by apply bool_decide_eq_true.
Qed.

(** X2: when no declared segment name starts with a reserved prefix, the
    name [_compile_fx_inner_for_graph_in_segment] gives a graph either is a
    declared name or starts with a reserved prefix; so of an Execution
    Record made of such names [get_recorded_execution_order] keeps exactly
    the declared names, in their order. *)
Theorem get_recorded_execution_order_user_names {Fake : Type}
    (user : gset string) (s : LazyScheduler (Fake:=Fake)) :
  (∀ n, n ∈ user → startswith n "__unnamed_" = false
                   ∧ startswith n "__unregistered_" = false) →
  Forall (λ n, ∃ segment_prefix is_backward,
            n = (Naming.graph_segment_name user segment_prefix is_backward).1.2)
    (_recorded_execution_order s) →
  get_recorded_execution_order s = filter (λ n, n ∈ user) (_recorded_execution_order s).
Proof.
  intros Huser Hrec. unfold get_recorded_execution_order.
  assert (∀ n, n ∈ user → Naming.is_user_visible n = true) as Hvis.
  { intros n [H1 H2]%Huser. unfold Naming.is_user_visible. by rewrite H1, H2. }
  induction Hrec as [|n l (p & b & ->) _ IH]; [done|].
  rewrite !filter_cons, IH.
  pose proof (graph_segment_name_visible user p b Hvis) as Hn.
  set (n := (Naming.graph_segment_name user p b).1.2) in *.
  unfold Naming.is_user_visible in Hn.
  destruct (decide (n ∈ user)) as [Hin|Hnin].
  - rewrite bool_decide_eq_true_2 in Hn by done.
    apply andb_true_iff in Hn as [H1%negb_true_iff H2%negb_true_iff].
    by rewrite decide_True.
  - rewrite bool_decide_eq_false_2 in Hn by done.
    rewrite decide_False; [done|]. intros [H1 H2]. by rewrite H1, H2 in Hn.
Qed.

(** *** [_prepare_segments] *)

Lemma segment_name_to_segment_lookup (segments : list Naming.Segment) (x : string) :
  Naming.segment_name_to_segment segments !! x = None
  ↔ ∀ s, s ∈ segments → Naming.name s ≠ x.
Proof.
  unfold Naming.segment_name_to_segment.
  assert (∀ m : gmap string Naming.Segment,
            foldl (λ m s, <[Naming.name s := s]> m) m segments !! x = None
            ↔ m !! x = None ∧ ∀ s, s ∈ segments → Naming.name s ≠ x) as Hgen.
  { induction segments as [|s segments IH]; intros m; cbn.
    - split; [intros ?; split; [done|by intros s ?%elem_of_nil]|by intros [? _]].
    - rewrite IH. rewrite lookup_insert_None. split.
      + intros [[Hm Hne] Hall]. split; [done|].
        intros s' [->|Hin]%elem_of_cons; auto.
      + intros [Hm Hall]. split_and!; [done|apply Hall; left|].
        intros s' Hin. apply Hall. by right. }
  rewrite Hgen. split; [by intros [_ ?]|]. intros ?. split; [apply lookup_empty|done].
Qed.

(** What one passed iteration of the second loop has checked and done. *)
Lemma prepare_segment_passed (by_name : gmap string Naming.Segment)
    (t t' : Naming.Tables) (s : Naming.Segment) :
  Naming.prepare_segment by_name t s = (t', None) →
  startswith (Naming.name s) "__unnamed_" = false
  ∧ startswith (Naming.name s) "__unregistered_" = false
  ∧ (Naming.endswith (Naming.name s) "_fwd" = true
     ∨ Naming.endswith (Naming.name s) "_bwd" = true)
  ∧ (Naming.backend s = Some "eager" →
     Naming.endswith (Naming.name s) "_fwd" = true
     ∧ by_name !! (Naming.drop_last4 (Naming.name s) +:+ "_bwd") = None)
  ∧ Naming._method_to_segment_prefix_map t' !! Naming.nn_method s
    = Some (Naming.drop_last4 (Naming.name s))
  ∧ Naming._segment_prefix_to_backend t' !! Naming.drop_last4 (Naming.name s)
    = Some (Naming.backend s)
  ∧ (∀ m p, Naming._method_to_segment_prefix_map t !! m = Some p →
            Naming._method_to_segment_prefix_map t' !! m = Some p).
Proof.
  unfold Naming.prepare_segment, unnamed_segment_prefix, unregistered_named_segment_prefix.
  destruct (startswith (Naming.name s) "__unnamed_"); [done|].
  destruct (startswith (Naming.name s) "__unregistered_"); [done|].
  destruct (Naming.endswith (Naming.name s) "_fwd" || Naming.endswith (Naming.name s) "_bwd")
    eqn:Hend; [|done].
  apply orb_true_iff in Hend. cbn [negb]. cbv zeta.
  match goal with |- context [negb ?b] => destruct b eqn:Hb end; [|done]. cbn [negb].
  assert (Naming.backend s = Some "eager" →
          Naming.endswith (Naming.name s) "_fwd" = true
          ∧ by_name !! (Naming.drop_last4 (Naming.name s) +:+ "_bwd") = None) as Heager.
  { intros He. rewrite bool_decide_eq_true_2 in Hb by done.
    apply andb_true_iff in Hb as [? ?%bool_decide_eq_true]. done. }
  destruct (Naming._method_to_segment_prefix_map t !! Naming.nn_method s) as [p|] eqn:Hm.
  - destruct (bool_decide (p = Naming.drop_last4 (Naming.name s))) eqn:Hp;
      [apply bool_decide_eq_true in Hp|by intros [=]]. intros [= <-]. cbn.
    split_and!; [done..|by rewrite Hm, Hp|by rewrite lookup_insert_eq|done].
  - intros [= <-]. cbn.
    split_and!; [done..|by rewrite lookup_insert_eq|by rewrite lookup_insert_eq|].
    intros m p Hmp. rewrite lookup_insert_ne; [done|]. congruence.
Qed.

Lemma prepare_loop_passed (by_name : gmap string Naming.Segment)
    (segments : list Naming.Segment) (t t' : Naming.Tables) :
  Naming.prepare_loop by_name t segments = (t', None) →
  (∀ m p, Naming._method_to_segment_prefix_map t !! m = Some p →
          Naming._method_to_segment_prefix_map t' !! m = Some p)
  ∧ ∀ s, s ∈ segments →
      startswith (Naming.name s) "__unnamed_" = false
      ∧ startswith (Naming.name s) "__unregistered_" = false
      ∧ (Naming.endswith (Naming.name s) "_fwd" = true
         ∨ Naming.endswith (Naming.name s) "_bwd" = true)
      ∧ (Naming.backend s = Some "eager" →
         Naming.endswith (Naming.name s) "_fwd" = true
         ∧ by_name !! (Naming.drop_last4 (Naming.name s) +:+ "_bwd") = None)
      ∧ Naming._method_to_segment_prefix_map t' !! Naming.nn_method s
        = Some (Naming.drop_last4 (Naming.name s)).
Proof.
  revert t. induction segments as [|s segments IH]; intros t; cbn.
  - intros [= <-]. split; [done|]. by intros s ?%elem_of_nil.
  - destruct (Naming.prepare_segment by_name t s) as [t1 [e|]] eqn:Hs; [done|].
    intros Hrest. destruct (IH t1 Hrest) as [Hmono Hall].
    destruct (prepare_segment_passed _ _ _ _ Hs) as (H1 & H2 & H3 & H4 & H5 & _ & H7).
    split; [by auto|].
    intros s' [->|Hin]%elem_of_cons; [|by apply Hall].
    split_and!; [done..|by apply Hmono].
Qed.

(** X3: when [_prepare_segments] passes all its [assert]s, every declared
    segment has a backend, a name free of the reserved prefixes that ends
    with [_fwd] or [_bwd], and its method mapped to the prefix of its name
    (so two segments of one method share the prefix); a segment on the
    [eager] backend is a forward one and no segment is named as its
    backward one. *)
Theorem prepare_segments_passed (default_backend : string)
    (segments segments' : list Naming.Segment) (t t' : Naming.Tables) :
  Naming._prepare_segments default_backend segments t = (segments', t', None) →
  Naming.name <$> segments' = Naming.name <$> segments
  ∧ ∀ s, s ∈ segments' →
      is_Some (Naming.backend s)
      ∧ startswith (Naming.name s) "__unnamed_" = false
      ∧ startswith (Naming.name s) "__unregistered_" = false
      ∧ (∃ is_backward,
           Naming.name s
           = Naming.compute_segment_name (Naming.drop_last4 (Naming.name s)) is_backward)
      ∧ Naming._method_to_segment_prefix_map t' !! Naming.nn_method s
        = Some (Naming.drop_last4 (Naming.name s))
      ∧ (Naming.backend s = Some "eager" →
         Naming.endswith (Naming.name s) "_fwd" = true
         ∧ ∀ s2, s2 ∈ segments' →
             Naming.name s2 ≠ Naming.drop_last4 (Naming.name s) +:+ "_bwd").
Proof.
  unfold Naming._prepare_segments. cbv zeta. intros [= <- Ht He].
  destruct (Naming.prepare_loop _ t _) as [t1 e1] eqn:Hloop. cbn in Ht, He. subst t1 e1.
  destruct (prepare_loop_passed _ _ _ _ Hloop) as [_ Hall]. split.
  - rewrite <-list_fmap_compose. apply list_fmap_ext. intros i s _. cbn.
    unfold Naming.with_default_backend. by destruct (Naming.backend s).
  - intros s Hin. destruct (Hall s Hin) as (H1 & H2 & H3 & H4 & H5).
    split_and!; [|done|done| |done|].
    + apply list_elem_of_fmap in Hin as (s0 & -> & _).
      unfold Naming.with_default_backend. by destruct (Naming.backend s0) eqn:Hb; cbn.
    + destruct (compute_segment_name_drop_last4 (Naming.name s)) as [Hf Hb].
      destruct H3 as [H3|H3]; [exists false|exists true]; symmetry; auto.
    + intros Heager. destruct (H4 Heager) as [Hfwd Hnone]. split; [done|].
      by apply segment_name_to_segment_lookup.
Qed.


(** *** Method names *)

Lemma split_hashes_step (cur : list Ascii.ascii) (a : Ascii.ascii)
    (l : list Ascii.ascii) :
  Naming.is_hash a = false →
  Naming.split_hashes cur (a :: l) = Naming.split_hashes (a :: cur) l.
Proof. intros Ha. cbn. destruct l as [|b [|c l]]; by rewrite ?Ha. Qed.

Lemma split_hashes_no_hash (cur u : list Ascii.ascii) :
  Forall (λ a, Naming.is_hash a = false) u →
  Naming.split_hashes cur u = [reverse cur ++ u].
Proof.
  intros Hu. revert cur. induction Hu as [|a u Ha _ IH]; intros cur.
  - cbn. by rewrite app_nil_r.
  - rewrite split_hashes_step, IH by done. by rewrite reverse_cons, <-app_assoc.
Qed.

Lemma split_hashes_piece (cur u l : list Ascii.ascii) :
  Forall (λ a, Naming.is_hash a = false) u →
  Naming.split_hashes cur (u ++ String.list_ascii_of_string "###" ++ l)
  = (reverse cur ++ u) :: Naming.split_hashes [] l.
Proof.
  intros Hu. revert cur. induction Hu as [|a u Ha _ IH]; intros cur.
  - cbn. by rewrite app_nil_r.
  - cbn [app]. rewrite split_hashes_step, IH by done.
    by rewrite reverse_cons, <-app_assoc.
Qed.

(** X23: [extract_method_name] gives the method name back, from the name of
    the method itself and from the name [_register_segment] gives the
    patched method, [_compiled_wrapper###<class>###<method>]: so a segment
    registered again finds the same [<method>_eager] and
    [<method>_compiled] attributes.  Class and method names contain no
    [#]. *)
Theorem extract_method_name_round_trip (class_name method_name : string) :
  Naming.no_hash class_name → Naming.no_hash method_name →
  Naming.extract_method_name method_name = method_name
  ∧ Naming.extract_method_name (Naming.compiled_wrapper_name class_name method_name)
    = method_name.
Proof.
  intros Hc Hm. unfold Naming.extract_method_name, Naming.compiled_wrapper_name. split.
  - rewrite split_hashes_no_hash by done. cbn.
    apply String.string_of_list_ascii_of_string.
  - rewrite !list_ascii_of_string_app.
    change (String.list_ascii_of_string "_compiled_wrapper###")
      with (String.list_ascii_of_string "_compiled_wrapper"
            ++ String.list_ascii_of_string "###").
    rewrite <-app_assoc, split_hashes_piece by (by repeat constructor).
    rewrite split_hashes_piece, split_hashes_no_hash by done. cbn.
    apply String.string_of_list_ascii_of_string.
Qed.

(** *** The backend of a segment *)

Lemma foldl_insert_other (segments : list Naming.Segment)
    (m : gmap string Naming.Segment) (x : string) :
  (∀ s, s ∈ segments → Naming.name s ≠ x) →
  foldl (λ m s, <[Naming.name s := s]> m) m segments !! x = m !! x.
Proof.
  revert m. induction segments as [|s segments IH]; intros m Hx; [done|]. cbn.
  rewrite IH by (intros s' Hin; apply Hx; by right).
  apply lookup_insert_ne, Hx. left.
Qed.

Lemma segment_name_to_segment_lookup_Some (segments : list Naming.Segment)
    (s : Naming.Segment) :
  NoDup (Naming.name <$> segments) → s ∈ segments →
  Naming.segment_name_to_segment segments !! Naming.name s = Some s.
Proof.
  unfold Naming.segment_name_to_segment. generalize (∅ : gmap string Naming.Segment).
  induction segments as [|s0 segments IH]; intros m Hnd Hin;
    [by apply elem_of_nil in Hin|].
  cbn in Hnd. apply NoDup_cons in Hnd as [Hs0 Hnd]. cbn.
  apply elem_of_cons in Hin as [->|Hin]; [|by apply IH].
  rewrite foldl_insert_other; [by rewrite lookup_insert_eq|].
  intros s' Hs' Heq. apply Hs0. rewrite <-Heq. by apply list_elem_of_fmap_2.
Qed.

Lemma prepare_segment_backend (by_name : gmap string Naming.Segment)
    (t t' : Naming.Tables) (s : Naming.Segment) :
  Naming.prepare_segment by_name t s = (t', None) →
  Naming._segment_prefix_to_backend t'
  = <[Naming.drop_last4 (Naming.name s) := Naming.backend s]>
      (Naming._segment_prefix_to_backend t)
  ∧ (Naming.backend s ≠ Some "eager" →
     ∀ f b, by_name !! (Naming.drop_last4 (Naming.name s) +:+ "_fwd") = Some f →
            by_name !! (Naming.drop_last4 (Naming.name s) +:+ "_bwd") = Some b →
            Naming.backend f = Naming.backend b).
Proof.
  unfold Naming.prepare_segment.
  destruct (startswith (Naming.name s) unnamed_segment_prefix); [done|].
  destruct (startswith (Naming.name s) unregistered_named_segment_prefix); [done|].
  destruct (negb (_ || _)); [done|]. cbv zeta.
  match goal with |- context [negb ?b] => destruct b eqn:Hb end; [|done]. cbn [negb].
  assert (Naming.backend s ≠ Some "eager" →
          ∀ f b, by_name !! (Naming.drop_last4 (Naming.name s) +:+ "_fwd") = Some f →
                 by_name !! (Naming.drop_last4 (Naming.name s) +:+ "_bwd") = Some b →
                 Naming.backend f = Naming.backend b) as Hsame.
  { intros Hne f b Hf Hb'. rewrite bool_decide_eq_false_2, Hf, Hb' in Hb by done.
    by apply bool_decide_eq_true in Hb. }
  destruct (Naming._method_to_segment_prefix_map t !! Naming.nn_method s) as [q|].
  - destruct (bool_decide (q = _)); [|done]. intros [= <-]. by split.
  - intros [= <-]. by split.
Qed.

(** Two declared segments of one prefix have one backend, when the later
    one passed its checks. *)
Lemma same_prefix_same_backend (all : list Naming.Segment) (t t' : Naming.Tables)
    (s s0 : Naming.Segment) :
  NoDup (Naming.name <$> all) → s ∈ all → s0 ∈ all →
  Naming.prepare_segment (Naming.segment_name_to_segment all) t s = (t', None) →
  Naming.endswith (Naming.name s0) "_fwd" = true
  ∨ Naming.endswith (Naming.name s0) "_bwd" = true →
  Naming.drop_last4 (Naming.name s0) = Naming.drop_last4 (Naming.name s) →
  Naming.backend s0 = Naming.backend s.
Proof.
  intros Hnd Hs Hs0 Hrun Hend0 Hp.
  pose proof (segment_name_to_segment_lookup_Some all s Hnd Hs) as Hls.
  pose proof (segment_name_to_segment_lookup_Some all s0 Hnd Hs0) as Hls0.
  destruct (prepare_segment_passed _ _ _ _ Hrun) as (_ & _ & Hend & Heager & _).
  destruct (prepare_segment_backend _ _ _ _ Hrun) as (_ & Hsame).
  destruct (compute_segment_name_drop_last4 (Naming.name s)) as [Hf Hb].
  destruct (compute_segment_name_drop_last4 (Naming.name s0)) as [Hf0 Hb0].
  unfold Naming.compute_segment_name in *. rewrite Hp in Hf0, Hb0.
  set (p := Naming.drop_last4 (Naming.name s)) in *.
  assert (Naming.name s0 = Naming.name s → Naming.backend s0 = Naming.backend s) as Heq.
  { intros Hn. rewrite Hn in Hls0. congruence. }
  destruct Hend as [He|He]; destruct Hend0 as [He0|He0];
    try (apply Heq; by rewrite <-?(Hf0 He0), <-?(Hb0 He0), <-?(Hf He), <-?(Hb He)).
  - (* [s] is the forward segment, [s0] the backward one *)
    rewrite <-(Hf He) in Hls. rewrite <-(Hb0 He0) in Hls0.
    destruct (decide (Naming.backend s = Some "eager")) as [Hes|Hes].
    + destruct (Heager Hes) as [_ Hnone]. fold p in Hnone. congruence.
    + symmetry. by apply (Hsame Hes s s0).
  - (* [s] is the backward segment, [s0] the forward one *)
    rewrite <-(Hb He) in Hls. rewrite <-(Hf0 He0) in Hls0.
    destruct (decide (Naming.backend s = Some "eager")) as [Hes|Hes].
    + destruct (Heager Hes) as [Hfwd _]. rewrite <-(Hb He) in Hfwd.
      by rewrite endswith_app_ne in Hfwd.
    + by apply (Hsame Hes s0 s).
Qed.

Lemma prepare_loop_backend (all done segments : list Naming.Segment)
    (t t' : Naming.Tables) :
  NoDup (Naming.name <$> all) →
  (∀ s, s ∈ done ++ segments → s ∈ all) →
  (∀ s, s ∈ done →
        (Naming.endswith (Naming.name s) "_fwd" = true
         ∨ Naming.endswith (Naming.name s) "_bwd" = true)
        ∧ Naming._segment_prefix_to_backend t !! Naming.drop_last4 (Naming.name s)
          = Some (Naming.backend s)) →
  Naming.prepare_loop (Naming.segment_name_to_segment all) t segments = (t', None) →
  (∀ s, s ∈ done ++ segments →
        Naming._segment_prefix_to_backend t' !! Naming.drop_last4 (Naming.name s)
        = Some (Naming.backend s))
  ∧ ∀ p, (∀ s, s ∈ segments → Naming.drop_last4 (Naming.name s) ≠ p) →
         Naming._segment_prefix_to_backend t' !! p
         = Naming._segment_prefix_to_backend t !! p.
Proof.
  intros Hnd. revert done t. induction segments as [|s segments IH];
    intros done t Hall Hdone; cbn.
  - intros [= <-]. rewrite app_nil_r. split; [|done]. intros s Hs. by apply Hdone.
  - destruct (Naming.prepare_segment _ t s) as [t1 [e|]] eqn:Hs; [done|].
    intros Hrest.
    destruct (prepare_segment_passed _ _ _ _ Hs) as (_ & _ & Hend & _).
    destruct (prepare_segment_backend _ _ _ _ Hs) as (Ht1 & _).
    destruct (IH (done ++ [s]) t1) as [Hin Hout]; [| |done|].
    + intros s'. rewrite <-app_assoc. apply Hall.
    + intros s' [Hs'|Hs']%elem_of_app;
        [|apply list_elem_of_singleton in Hs' as ->].
      * destruct (Hdone s' Hs') as [Hend' Ht]. split; [done|]. rewrite Ht1.
        destruct (decide (Naming.drop_last4 (Naming.name s')
                          = Naming.drop_last4 (Naming.name s))) as [Hp|Hp].
        -- rewrite Hp, lookup_insert_eq. f_equal. symmetry.
           apply (same_prefix_same_backend all t t1 s s'); [done| | |done..].
           ++ apply Hall, elem_of_app. right. left.
           ++ apply Hall, elem_of_app. by left.
        -- by rewrite lookup_insert_ne.
      * split; [done|]. by rewrite Ht1, lookup_insert_eq.
    + split.
      * intros s'. rewrite (assoc_L (++) done [s] segments : done ++ s :: segments = _).
        apply Hin.
      * intros p Hp. rewrite Hout by (intros s' Hs'; apply Hp; by right).
        rewrite Ht1. apply lookup_insert_ne, Hp. left.
Qed.

(** X24: with declared segments of distinct names that pass
    [_prepare_segments], the backend [_compile_fx_for_graph_in_segment]
    looks up for the prefix of a declared segment is the backend of that
    segment, the default one where none was declared: a forward and a
    backward segment of one prefix never disagree.  For a prefix no segment
    declares the lookup is what it was before. *)
Theorem prepare_segments_backend_table (default_backend : string)
    (segments segments' : list Naming.Segment) (t t' : Naming.Tables) :
  NoDup (Naming.name <$> segments) →
  Naming._prepare_segments default_backend segments t = (segments', t', None) →
  (∀ s, s ∈ segments →
        Naming.compile_backend default_backend t' (Some (Naming.drop_last4 (Naming.name s)))
        = Some (default default_backend (Naming.backend s)))
  ∧ ∀ p, (∀ s, s ∈ segments → Naming.drop_last4 (Naming.name s) ≠ p) →
         Naming.compile_backend default_backend t' (Some p)
         = Naming.compile_backend default_backend t (Some p).
Proof.
  intros Hnd. unfold Naming._prepare_segments. cbv zeta. intros [= <- Ht He].
  destruct (Naming.prepare_loop _ t _) as [t1 e1] eqn:Hloop. cbn in Ht, He. subst t1 e1.
  assert (∀ s, Naming.name (Naming.with_default_backend default_backend s)
               = Naming.name s) as Hname.
  { intros s. unfold Naming.with_default_backend. by destruct (Naming.backend s). }
  assert (NoDup (Naming.name
                 <$> (Naming.with_default_backend default_backend <$> segments)))
    as Hnd'.
  { rewrite <-list_fmap_compose.
    erewrite list_fmap_ext; [exact Hnd|]. intros i s _. apply Hname. }
  destruct (prepare_loop_backend
              (Naming.with_default_backend default_backend <$> segments) []
              (Naming.with_default_backend default_backend <$> segments) t t' Hnd')
    as [Hin Hout]; [done|by intros s ?%elem_of_nil|done|].
  split.
  - intros s Hs. unfold Naming.compile_backend.
    specialize (Hin (Naming.with_default_backend default_backend s)).
    rewrite Hname in Hin. rewrite Hin by (by apply list_elem_of_fmap_2). cbn.
    unfold Naming.with_default_backend.
    destruct (Naming.backend s) as [b|] eqn:Hb; cbn; [by rewrite Hb|done].
  - intros p Hp. unfold Naming.compile_backend. rewrite Hout; [done|].
    intros s' (s & -> & Hs)%list_elem_of_fmap. rewrite Hname. by apply Hp.
Qed.

(** ** Properties of the graph passes *)

Lemma extract_loop_same (p : string) (r0 : option string) (nodes : list Graph.Node) :
  r0 = None ∨ r0 = Some p →
  (∀ n, n ∈ nodes → Graph.is_call_func_node n = true →
        Graph.segment_prefix n = Some p) →
  Graph.extract_loop r0 nodes
  = inr (if existsb Graph.is_call_func_node nodes then Some p else r0).
Proof.
  revert r0. induction nodes as [|n nodes IH]; intros r0 Hr0 Hall; cbn; [done|].
  destruct (Graph.is_call_func_node n) eqn:Hcall; cbn.
  - rewrite (Hall n) by (done || left).
    assert (Graph.extract_loop (Some p) nodes = inr (Some p)) as Hrest.
    { rewrite IH; [by destruct (existsb _ _)|by right|].
      intros n' Hin. apply Hall. by right. }
    destruct Hr0 as [->| ->]; cbn; [done|].
    destruct (bool_decide (p = "")); [done|]. by rewrite bool_decide_eq_true_2.
  - apply IH; [done|]. intros n' Hin. apply Hall. by right.
Qed.

(** X4: after [apply_segment_prefix(gm, p)],
    [extract_segment_prefix_from_gm(gm)] fails no [assert] and returns [p]
    when the graph has a call node, [None] when it has none. *)
Theorem extract_after_apply_segment_prefix (nodes : list Graph.Node) (p : string) :
  Graph.extract_segment_prefix_from_gm (Graph.apply_segment_prefix nodes p)
  = inr (if existsb Graph.is_call_func_node nodes then Some p else None).
Proof.
  unfold Graph.extract_segment_prefix_from_gm, Graph.apply_segment_prefix.
  rewrite (extract_loop_same p); [|by left|].
  - f_equal. induction nodes as [|n nodes IH]; cbn; [done|].
    change (Graph.is_call_func_node (Graph.set_segment_prefix p n))
      with (Graph.is_call_func_node n).
    destruct (Graph.is_call_func_node n); cbn; [done|]. apply IH.
  - by intros n (n0 & -> & _)%list_elem_of_fmap _.
Qed.

Lemma extract_loop_sound (r0 r : option string) (nodes : list Graph.Node) :
  Graph.extract_loop r0 nodes = inr r →
  r0 ≠ Some "" →
  (∀ n, n ∈ nodes → Graph.is_call_func_node n = true →
        Graph.segment_prefix n ≠ Some "") →
  (is_Some r0 → r = r0)
  ∧ ∀ n, n ∈ nodes → Graph.is_call_func_node n = true → Graph.segment_prefix n = r.
Proof.
  revert r0. induction nodes as [|n nodes IH]; intros r0 Hrun Hr0 Hne; cbn in Hrun.
  - injection Hrun as <-. split; [done|]. by intros n ?%elem_of_nil.
  - assert (∀ n', n' ∈ nodes → Graph.is_call_func_node n' = true →
                  Graph.segment_prefix n' ≠ Some "") as Hne'.
    { intros n' Hin. apply Hne. by right. }
    destruct (Graph.is_call_func_node n) eqn:Hcall.
    + destruct (Graph.segment_prefix n) as [p|] eqn:Hp; [|done].
      assert (Some p ≠ Some "") as Hpne by (rewrite <-Hp; apply Hne; [left|done]).
      destruct r0 as [q|]; cbn in Hrun.
      * rewrite bool_decide_eq_false_2 in Hrun by congruence.
        case_bool_decide as Hq; [|done]. injection Hq as ->.
        destruct (IH (Some p) Hrun Hpne Hne') as [Hr Hall].
        rewrite (Hr (mk_is_Some _ _ eq_refl)) in *. split; [done|].
        intros n' [->|Hin]%elem_of_cons Hc; [done|by apply Hall].
      * destruct (IH (Some p) Hrun Hpne Hne') as [Hr Hall].
        rewrite (Hr (mk_is_Some _ _ eq_refl)) in *. split; [by intros [? [=]]|].
        intros n' [->|Hin]%elem_of_cons Hc; [done|by apply Hall].
    + destruct (IH r0 Hrun Hr0 Hne') as [Hr Hall]. split; [done|].
      intros n' [->|Hin]%elem_of_cons Hc; [congruence|by apply Hall].
Qed.

(** X5: when [extract_segment_prefix_from_gm] returns, on a graph whose
    call nodes carry no empty prefix, every call node carries the prefix it
    returns. *)
Theorem extract_segment_prefix_sound (nodes : list Graph.Node) (r : option string) :
  Graph.extract_segment_prefix_from_gm nodes = inr r →
  (∀ n, n ∈ nodes → Graph.is_call_func_node n = true →
        Graph.segment_prefix n ≠ Some "") →
  ∀ n, n ∈ nodes → Graph.is_call_func_node n = true → Graph.segment_prefix n = r.
Proof.
  intros Hrun Hne. by destruct (extract_loop_sound None r nodes Hrun).
Qed.

Lemma known_segments_loop_spec (ks0 ks : list string) (nodes : list Graph.Node) :
  Graph.known_segments_loop ks0 nodes = inr ks →
  (no_adjacent_duplicates ks0 → no_adjacent_duplicates ks)
  ∧ (∀ p, p ∈ ks0 → p ∈ ks)
  ∧ ∀ n, n ∈ nodes → Graph.is_call_func_node n = true →
      ∃ p, Graph.segment_prefix n = Some p ∧ p ∈ ks.
Proof.
  revert ks0. induction nodes as [|n nodes IH]; intros ks0 Hrun; cbn in Hrun.
  - injection Hrun as <-. split_and!; [done..|]. by intros n ?%elem_of_nil.
  - destruct (Graph.is_call_func_node n) eqn:Hcall.
    + assert (∃ p, Graph.segment_prefix n = Some p
                   ∧ (Graph.known_segments_loop (ks0 ++ [p]) nodes = inr ks
                      ∧ last ks0 ≠ Some p
                      ∨ Graph.known_segments_loop ks0 nodes = inr ks
                        ∧ last ks0 = Some p)) as (p & Hp & Hcase).
      { destruct (Graph.segment_prefix n) as [p|]; [|by case_bool_decide].
        exists p. split; [done|].
        destruct (bool_decide (length ks0 = 0)) eqn:Hlen.
        - left. split; [done|]. apply bool_decide_eq_true in Hlen.
          by destruct ks0.
        - destruct (decide (last ks0 = Some p)) as [Hlast|Hlast].
          + right. by rewrite bool_decide_eq_false_2 in Hrun by (by intros ?).
          + left. by rewrite bool_decide_eq_true_2 in Hrun. }
      destruct Hcase as [[Hrun' Hlast]|[Hrun' Hlast]];
        destruct (IH _ Hrun') as (Hnd & Hsub & Hall).
      * split_and!.
        -- intros Hnd0. by apply Hnd, no_adjacent_duplicates_snoc.
        -- intros q Hq. apply Hsub, elem_of_app. by left.
        -- intros n' [->|Hin]%elem_of_cons Hc; [|by apply Hall].
           exists p. split; [done|]. apply Hsub, elem_of_app. right. by left.
      * split_and!; [done..|].
        intros n' [->|Hin]%elem_of_cons Hc; [|by apply Hall].
        exists p. split; [done|]. by apply Hsub, last_Some_elem_of.
    + destruct (IH _ Hrun) as (Hnd & Hsub & Hall). split_and!; [done..|].
      intros n' [->|Hin]%elem_of_cons Hc; [congruence|by apply Hall].
Qed.

(** X6: when [known_segments] is built without a [KeyError], it has no two
    identical adjacent entries, [split_callback] yields for every call node
    of the graph the position of the first entry equal to the prefix of the
    node, and so two call nodes get the same partition exactly when they
    carry the same prefix. *)
Theorem split_callback_partitions (nodes : list Graph.Node) (ks : list string) :
  Graph.known_segments nodes = inr ks →
  no_adjacent_duplicates ks
  ∧ (∀ n, n ∈ nodes → Graph.is_call_func_node n = true →
       ∃ p i, Graph.segment_prefix n = Some p
              ∧ Graph.split_callback ks n = inr i
              ∧ ks !! i = Some p
              ∧ ∀ j, j < i → ks !! j ≠ Some p)
  ∧ (∀ n1 n2, n1 ∈ nodes → n2 ∈ nodes →
       Graph.is_call_func_node n1 = true → Graph.is_call_func_node n2 = true →
       (Graph.split_callback ks n1 = Graph.split_callback ks n2
        ↔ Graph.segment_prefix n1 = Graph.segment_prefix n2)).
Proof.
  intros Hrun. destruct (known_segments_loop_spec [] ks nodes Hrun) as (Hnd & _ & Hall).
  assert (∀ n, n ∈ nodes → Graph.is_call_func_node n = true →
            ∃ p i, Graph.segment_prefix n = Some p
                   ∧ Graph.split_callback ks n = inr i
                   ∧ ks !! i = Some p
                   ∧ ∀ j, j < i → ks !! j ≠ Some p) as Hcb.
  { intros n Hin Hc. destruct (Hall n Hin Hc) as (p & Hp & Hpk).
    destruct (index_is_Some p ks Hpk) as [i Hi].
    exists p, i. unfold Graph.split_callback. rewrite Hp, Hi.
    apply index_Some in Hi as [? ?]. done. }
  split_and!; [apply Hnd, no_adjacent_duplicates_nil|done|].
  intros n1 n2 Hin1 Hin2 Hc1 Hc2.
  destruct (Hcb n1 Hin1 Hc1) as (p1 & i1 & Hp1 & Hs1 & Hk1 & _).
  destruct (Hcb n2 Hin2 Hc2) as (p2 & i2 & Hp2 & Hs2 & Hk2 & _).
  rewrite Hs1, Hs2, Hp1, Hp2. split.
  - intros [= ->]. congruence.
  - intros [= Heq]. unfold Graph.split_callback in Hs1, Hs2.
    rewrite Hp1 in Hs1. rewrite Hp2, <-Heq in Hs2. by rewrite <-Hs1, <-Hs2.
Qed.


Lemma assign_loop_cons (map : gmap nat string) (u : bool) (id : nat)
    (n : Graph.Node) (rest nodes' : list Graph.Node) (id' : nat) :
  Graph.assign_loop map u id (n :: rest) = (nodes', id', None) →
  ∃ n' rest' u1 id1,
    nodes' = n' :: rest'
    ∧ Graph.assign_loop map u1 id1 rest = (rest', id', None)
    ∧ (Graph.is_call_func_node n = false
       ∧ Graph.named_call map n = false ∧ Graph.unnamed_call map n = false
       ∧ n' = n ∧ u1 = u ∧ id1 = id
       ∨ Graph.named_call map n = true ∧ Graph.unnamed_call map n = false
         ∧ u1 = false ∧ id1 = (if u then id + 1 else id)
         ∧ (∃ m p, Graph.nn_module_method n = Some m ∧ map !! m = Some p
                   ∧ n' = Graph.set_segment_prefix p n)
       ∨ Graph.unnamed_call map n = true ∧ Graph.named_call map n = false
         ∧ u1 = true ∧ id1 = id
         ∧ n' = Graph.set_segment_prefix
                  (unnamed_segment_prefix +:+ pretty id) n).
Proof.
  cbn [Graph.assign_loop]. unfold Graph.named_call, Graph.unnamed_call.
  destruct (Graph.is_call_func_node n) eqn:Hcall; cbn [andb].
  - destruct (Graph.nn_module_method n) as [m|] eqn:Hm; [|done].
    destruct (map !! m) as [p|] eqn:Hp.
    + destruct (Graph.assign_loop map false _ rest) as [[rest' id1'] e] eqn:Hrest.
      intros [= <- <- ->]. eexists _, rest', false, _. split_and!; [done..|].
      right; left. rewrite bool_decide_eq_true_2 by done.
      rewrite bool_decide_eq_false_2 by done. split_and!; [done..|]. by exists m, p.
    + destruct (Graph.assign_loop map true id rest) as [[rest' id1'] e] eqn:Hrest.
      intros [= <- <- ->]. eexists _, rest', true, id. split_and!; [done..|].
      right; right. rewrite bool_decide_eq_true_2 by done.
      rewrite bool_decide_eq_false_2 by (by intros [? ?]). done.
  - destruct (Graph.assign_loop map u id rest) as [[rest' id1'] e] eqn:Hrest.
    intros [= <- <- ->]. eexists n, rest', u, id. split_and!; [done..|].
    by left.
Qed.

Lemma assign_loop_shape (map : gmap nat string) (u : bool) (id : nat)
    (nodes nodes' : list Graph.Node) (id' : nat) :
  Graph.assign_loop map u id nodes = (nodes', id', None) →
  id ≤ id'
  ∧ length nodes' = length nodes
  ∧ ∀ j n, nodes !! j = Some n →
      ∃ n', nodes' !! j = Some n'
        ∧ (Graph.is_call_func_node n = false → n' = n)
        ∧ (Graph.is_call_func_node n = true →
           ∃ m p, Graph.nn_module_method n = Some m
             ∧ n' = Graph.set_segment_prefix p n
             ∧ match map !! m with
               | Some q => p = q
               | None => ∃ k, p = unnamed_segment_prefix +:+ pretty k
                              ∧ id ≤ k ≤ id'
               end).
Proof.
  revert u id nodes'. induction nodes as [|n rest IH]; intros u id nodes' Hrun.
  - cbn in Hrun. injection Hrun as <- <-. split_and!; [done..|].
    by intros j n ?.
  - destruct (assign_loop_cons _ _ _ _ _ _ _ Hrun)
      as (n' & rest' & u1 & id1 & -> & Hrest & Hcase).
    destruct (IH _ _ _ Hrest) as (Hle & Hlen & Hnodes).
    assert (id ≤ id1) as Hid.
    { destruct Hcase as [(_ & _ & _ & _ & _ & ->)|[(_ & _ & _ & -> & _)|(_ & _ & _ & -> & _)]];
        [lia|destruct u; lia|lia]. }
    split_and!; [lia|cbn; lia|].
    intros [|j] n0 Hn0; cbn in Hn0.
    + injection Hn0 as <-. exists n'. split; [done|].
      destruct Hcase as [(Hc & _ & _ & -> & _)|[(Hc & _ & _ & _ & m & p & Hm & Hp & ->)
                                               |(Hc & _ & _ & -> & ->)]].
      * split; [done|congruence].
      * apply andb_prop in Hc as [Hc _]. split; [congruence|]. intros _.
        exists m, p. by rewrite Hp.
      * unfold Graph.unnamed_call in Hc. apply andb_prop in Hc as [Hc Hm].
        split; [congruence|]. intros _.
        destruct (Graph.nn_module_method n) as [m|] eqn:Hnm; [|done].
        apply bool_decide_eq_true in Hm. eexists m, _. split_and!; [done..|].
        rewrite Hm. exists id. split; [done|lia].
    + destruct (Hnodes j n0 Hn0) as (n0' & Hn0' & Hnc & Hc).
      exists n0'. split_and!; [done..|].
      intros Hcall. destruct (Hc Hcall) as (m & p & Hm & -> & Hp).
      exists m, p. split_and!; [done..|].
      destruct (map !! m); [done|]. destruct Hp as (k & -> & ?).
      exists k. split; [done|lia].
Qed.

Lemma assign_loop_unnamed (map : gmap nat string) (u : bool) (id : nat)
    (nodes nodes' : list Graph.Node) (id' : nat) :
  Graph.assign_loop map u id nodes = (nodes', id', None) →
  ∀ j n, nodes !! j = Some n → Graph.unnamed_call map n = true →
    ∃ n' k, nodes' !! j = Some n'
      ∧ Graph.segment_prefix n' = Some (unnamed_segment_prefix +:+ pretty k)
      ∧ id ≤ k
      ∧ ((∀ i ni, i < j → nodes !! i = Some ni → Graph.named_call map ni = false)
         → k = id)
      ∧ (u = true →
         (∃ i ni, i < j ∧ nodes !! i = Some ni ∧ Graph.named_call map ni = true)
         → id < k).
Proof.
  revert u id nodes'. induction nodes as [|n rest IH]; intros u id nodes' Hrun;
    [by intros j n ?|].
  destruct (assign_loop_cons _ _ _ _ _ _ _ Hrun)
    as (n' & rest' & u1 & id1 & -> & Hrest & Hcase).
  intros [|j] n0 Hn0 Hun; cbn in Hn0.
  - injection Hn0 as <-.
    destruct Hcase as [(_ & _ & Hc & _)|[(_ & Hc & _)|(_ & _ & _ & _ & ->)]];
      [congruence..|].
    eexists _, id. split_and!; [done..|]. intros _ (i & ni & Hi & _). lia.
  - destruct (IH _ _ _ Hrest j n0 Hn0 Hun) as (n0' & k & Hn0' & Hp & Hk & Hsame & Hlt).
    exists n0', k. split; [done|]. split; [done|].
    destruct Hcase as [(_ & Hnn & _ & _ & -> & ->)
                      |[(Hnn & _ & -> & -> & _)|(_ & Hnn & -> & -> & _)]].
    + split_and!; [done| |].
      * intros Hno. apply Hsame. intros i ni Hi Hni.
        apply (Hno (S i) ni); [lia|done].
      * intros Hu ([|i] & ni & Hi & Hni & Hnamed); cbn in Hni.
        -- congruence.
        -- apply Hlt; [done|]. exists i, ni. split_and!; [lia|done..].
    + split_and!.
      * destruct u; lia.
      * intros Hno. specialize (Hno 0 n). cbn in Hno.
        rewrite Hno in Hnn by (lia || done). done.
      * intros -> _. lia.
    + split_and!; [done| |].
      * intros Hno. apply Hsame. intros i ni Hi Hni.
        apply (Hno (S i) ni); [lia|done].
      * intros _ ([|i] & ni & Hi & Hni & Hnamed); cbn in Hni.
        -- congruence.
        -- apply Hlt; [done|]. exists i, ni. split_and!; [lia|done..].
Qed.

Lemma unnamed_prefix_inj (k1 k2 : nat) :
  unnamed_segment_prefix +:+ pretty k1 = unnamed_segment_prefix +:+ pretty k2 →
  k1 = k2.
Proof. intros Heq. apply String.app_inj in Heq. by apply (inj pretty) in Heq. Qed.

Lemma assign_loop_runs (map : gmap nat string) (u : bool) (id : nat)
    (nodes nodes' : list Graph.Node) (id' : nat) :
  Graph.assign_loop map u id nodes = (nodes', id', None) →
  ∀ i j ni nj ni' nj',
    i < j →
    nodes !! i = Some ni → nodes !! j = Some nj →
    Graph.unnamed_call map ni = true → Graph.unnamed_call map nj = true →
    nodes' !! i = Some ni' → nodes' !! j = Some nj' →
    (Graph.segment_prefix ni' = Graph.segment_prefix nj'
     ↔ ∀ k nk, i < k < j → nodes !! k = Some nk → Graph.named_call map nk = false).
Proof.
  revert u id nodes'. induction nodes as [|n rest IH]; intros u id nodes' Hrun;
    [by intros i j ni nj ni' nj' _ ?|].
  destruct (assign_loop_cons _ _ _ _ _ _ _ Hrun)
    as (n' & rest' & u1 & id1 & -> & Hrest & Hcase).
  intros i [|j] ni nj ni' nj' Hij Hi Hj Hui Huj Hi' Hj'; [lia|].
  cbn in Hj, Hj'. destruct i as [|i]; cbn in Hi, Hi'.
  - injection Hi as <-. injection Hi' as <-.
    destruct Hcase as [(_ & _ & Hc & _)|[(_ & Hc & _)|(_ & _ & -> & -> & ->)]];
      [congruence..|].
    destruct (assign_loop_unnamed _ _ _ _ _ _ Hrest j nj Hj Huj)
      as (nj0 & k & Hnj0 & Hp & Hk & Hsame & Hlt).
    assert (Some nj0 = Some nj') as [= ->] by (rewrite <-Hnj0; exact Hj').
    rewrite Hp.
    change (Graph.segment_prefix (Graph.set_segment_prefix ?p _)) with (Some p).
    split.
    + intros Heq. assert (id = k) as <- by (apply unnamed_prefix_inj; congruence).
      intros [|k] nk Hk' Hnk; [lia|]. cbn in Hnk.
      destruct (Graph.named_call map nk) eqn:Hnamed; [|done].
      assert (id < id); [|lia]. apply Hlt; [done|].
      exists k, nk. split_and!; [lia|done..].
    + intros Hno. rewrite Hsame; [done|].
      intros k0 nk Hk' Hnk. apply (Hno (S k0) nk); [lia|done].
  - rewrite (IH _ _ _ Hrest i j ni nj ni' nj') by (lia || done). split.
    + intros Hno [|k] nk Hk Hnk; [lia|]. apply (Hno k nk); [lia|done].
    + intros Hno k nk Hk Hnk. apply (Hno (S k) nk); [lia|done].
Qed.


(** X7: when the labelling loop of [segment_prefix_assignment_fn] fails no
    [assert], it changes nothing of the graph it iterates over but the
    [segment_prefix] of the call nodes: a call node of a registered method
    gets the prefix the method is registered with, any other call node a
    prefix [__unnamed_<k>] whose number lies between the old and the new
    value of [next_unnamed_segment_id], which does not decrease. *)
Theorem segment_prefix_assignment_labels (map : gmap nat string) (id : nat)
    (nodes nodes' : list Graph.Node) (id' : nat) :
  Graph.assign_loop map false id nodes = (nodes', id', None) →
  id ≤ id'
  ∧ length nodes' = length nodes
  ∧ ∀ j n, nodes !! j = Some n →
      ∃ n', nodes' !! j = Some n'
        ∧ (Graph.is_call_func_node n = false → n' = n)
        ∧ (Graph.is_call_func_node n = true →
           ∃ m p, Graph.nn_module_method n = Some m
             ∧ n' = Graph.set_segment_prefix p n
             ∧ match map !! m with
               | Some q => p = q
               | None => ∃ k, p = unnamed_segment_prefix +:+ pretty k
                              ∧ id ≤ k ≤ id'
               end).
Proof. apply assign_loop_shape. Qed.

(** X8: in a graph the loop of [segment_prefix_assignment_fn] has labelled, two call
    nodes of unregistered methods carry the same [__unnamed_<k>] prefix
    exactly when no call node of a registered method lies between them: a
    run of unnamed nodes is one segment, and two runs a named segment
    separates are two. *)
Theorem unnamed_segments_split_by_named_calls (map : gmap nat string) (id : nat)
    (nodes nodes' : list Graph.Node) (id' : nat) (i j : nat)
    (ni nj ni' nj' : Graph.Node) :
  Graph.assign_loop map false id nodes = (nodes', id', None) →
  i < j →
  nodes !! i = Some ni → nodes !! j = Some nj →
  Graph.unnamed_call map ni = true → Graph.unnamed_call map nj = true →
  nodes' !! i = Some ni' → nodes' !! j = Some nj' →
  (Graph.segment_prefix ni' = Graph.segment_prefix nj'
   ↔ ∀ k nk, i < k < j → nodes !! k = Some nk → Graph.named_call map nk = false).
Proof. intros Hrun. by apply (assign_loop_runs _ _ _ _ _ _ Hrun). Qed.

Lemma assign_loop_error (map : gmap nat string) (u : bool) (id : nat)
    (nodes : list Graph.Node) :
  (Graph.assign_loop map u id nodes).2 = None
  ∧ Forall (λ n, Graph.is_call_func_node n = true →
                 is_Some (Graph.nn_module_method n)) nodes
  ∨ (Graph.assign_loop map u id nodes).2 = Some Graph.AssertionFailed
    ∧ Exists (λ n, Graph.is_call_func_node n = true
                   ∧ Graph.nn_module_method n = None) nodes.
Proof.
  revert u id. induction nodes as [|n rest IH]; intros u id; cbn.
  - left. by split.
  - destruct (Graph.is_call_func_node n) eqn:Hcall.
    + destruct (Graph.nn_module_method n) as [m|] eqn:Hm.
      * destruct (map !! m) as [p|].
        -- destruct (IH false (if u then id + 1 else id)) as [[He Hall]|[He Hex]];
             destruct (Graph.assign_loop map false _ rest) as [[rest' id1] e];
             cbn in *; subst e; [left|right]; (split; [done|]).
           ++ constructor; [by rewrite Hm|done].
           ++ by apply Exists_cons_tl.
        -- destruct (IH true id) as [[He Hall]|[He Hex]];
             destruct (Graph.assign_loop map true _ rest) as [[rest' id1] e];
             cbn in *; subst e; [left|right]; (split; [done|]).
           ++ constructor; [by rewrite Hm|done].
           ++ by apply Exists_cons_tl.
      * right. split; [done|]. by apply Exists_cons_hd.
    + destruct (IH u id) as [[He Hall]|[He Hex]];
        destruct (Graph.assign_loop map u id rest) as [[rest' id1] e];
        cbn in *; subst e; [left|right]; (split; [done|]).
      * constructor; [congruence|done].
      * by apply Exists_cons_tl.
Qed.

(** X9: the labelling loop of [segment_prefix_assignment_fn] fails its
    [assert] exactly when a call node of the graph it iterates over has no
    [nn_module_method] in its [meta], and runs to its end exactly when
    every call node has one. *)
Theorem segment_prefix_assignment_fails_iff (map : gmap nat string) (id : nat)
    (nodes : list Graph.Node) :
  ((Graph.assign_loop map false id nodes).2 = Some Graph.AssertionFailed
   ↔ ∃ n, n ∈ nodes ∧ Graph.is_call_func_node n = true
          ∧ Graph.nn_module_method n = None)
  ∧ ((Graph.assign_loop map false id nodes).2 = None
     ↔ ∀ n, n ∈ nodes → Graph.is_call_func_node n = true →
            is_Some (Graph.nn_module_method n)).
Proof.
  destruct (assign_loop_error map false id nodes) as [[He Hall]|[He Hex]];
    rewrite He.
  - rewrite Forall_forall in Hall. split; split; [done| |done..].
    intros (n & Hin & Hc & Hm). destruct (Hall n Hin Hc) as [? ?]. congruence.
  - apply Exists_exists in Hex. split; split; [done|done|done|].
    intros Hall. destruct Hex as (n & Hin & Hc & Hm).
    destruct (Hall n Hin Hc) as [? ?]. congruence.
Qed.

Lemma known_segments_loop_total (ks0 : list string) (nodes : list Graph.Node) :
  (∀ n, n ∈ nodes → Graph.is_call_func_node n = true →
        is_Some (Graph.segment_prefix n)) →
  ∃ ks, Graph.known_segments_loop ks0 nodes = inr ks.
Proof.
  revert ks0. induction nodes as [|n rest IH]; intros ks0 Hall; cbn; [by eexists|].
  assert (∀ n', n' ∈ rest → Graph.is_call_func_node n' = true →
                is_Some (Graph.segment_prefix n')) as Hrest.
  { intros n' Hin. apply Hall. by right. }
  destruct (Graph.is_call_func_node n) eqn:Hcall; [|by apply IH].
  destruct (Hall n) as [p Hp]; [left|done|]. rewrite Hp.
  repeat case_bool_decide; by apply IH.
Qed.

(** X10: a graph the loop of [segment_prefix_assignment_fn] has labelled is one
    [split_module_based_on_segment_info] can partition: building
    [known_segments] raises no [KeyError], and [split_callback] gives every
    call node of the graph a partition. *)
Theorem assignment_then_split (map : gmap nat string) (id : nat)
    (nodes nodes' : list Graph.Node) (id' : nat) :
  Graph.assign_loop map false id nodes = (nodes', id', None) →
  ∃ ks, Graph.known_segments nodes' = inr ks
        ∧ ∀ n', n' ∈ nodes' → Graph.is_call_func_node n' = true →
            ∃ i, Graph.split_callback ks n' = inr i ∧ i < length ks.
Proof.
  intros Hrun. destruct (assign_loop_shape _ _ _ _ _ _ Hrun) as (_ & Hlen & Hnodes).
  assert (∀ n', n' ∈ nodes' → Graph.is_call_func_node n' = true →
                is_Some (Graph.segment_prefix n')) as Hall.
  { intros n' (j & Hj)%list_elem_of_lookup Hc.
    destruct (lookup_lt_is_Some_2 nodes j) as [n Hn].
    { rewrite <-Hlen. by eapply lookup_lt_Some. }
    destruct (Hnodes j n Hn) as (n0 & Hn0 & Hnc & Hcall).
    assert (n0 = n') as -> by congruence.
    destruct (Graph.is_call_func_node n) eqn:Hcn.
    - destruct (Hcall eq_refl) as (m & p & _ & -> & _). by eexists.
    - rewrite (Hnc eq_refl) in Hc. congruence. }
  destruct (known_segments_loop_total [] nodes' Hall) as [ks Hks].
  exists ks. split; [done|]. intros n' Hin Hc.
  destruct (known_segments_loop_spec [] ks nodes' Hks) as (_ & _ & Hmem).
  destruct (Hmem n' Hin Hc) as (p & Hp & Hpk).
  destruct (index_is_Some p ks Hpk) as [i Hi].
  exists i. unfold Graph.split_callback. rewrite Hp, Hi. split; [done|].
  apply index_Some in Hi as [Hi _]. by eapply lookup_lt_Some.
Qed.


(** *** Declared segments and the labels of a graph *)

Lemma drop_last4_prefix (s : string) : ∃ rest, s = Naming.drop_last4 s +:+ rest.
Proof.
  unfold Naming.drop_last4. cbv zeta.
  eexists (String.string_of_list_ascii _). apply string_of_list_ascii_inj.
  rewrite list_ascii_of_string_app, !String.list_ascii_of_string_of_list_ascii.
  symmetry. apply take_drop.
Qed.

Lemma startswith_drop_last4 (s p : string) :
  startswith s p = false → startswith (Naming.drop_last4 s) p = false.
Proof.
  intros Hs. destruct (startswith (Naming.drop_last4 s) p) eqn:Hd; [|done].
  destruct (drop_last4_prefix s) as [rest Hrest].
  by rewrite Hrest, (startswith_app_r _ rest p Hd) in Hs.
Qed.

Lemma prepare_segment_values (by_name : gmap string Naming.Segment)
    (t t' : Naming.Tables) (s : Naming.Segment) :
  Naming.prepare_segment by_name t s = (t', None) →
  (∀ m p, Naming._method_to_segment_prefix_map t !! m = Some p →
          startswith p unnamed_segment_prefix = false) →
  ∀ m p, Naming._method_to_segment_prefix_map t' !! m = Some p →
         startswith p unnamed_segment_prefix = false.
Proof.
  intros Hrun Ht.
  destruct (prepare_segment_passed _ _ _ _ Hrun) as (Hun & _).
  revert Hrun. unfold Naming.prepare_segment.
  destruct (startswith (Naming.name s) unnamed_segment_prefix); [done|].
  destruct (startswith (Naming.name s) unregistered_named_segment_prefix); [done|].
  destruct (negb (_ || _)); [done|]. cbv zeta.
  match goal with |- context [negb ?b] => destruct (negb b) end; [done|].
  destruct (Naming._method_to_segment_prefix_map t !! Naming.nn_method s) as [q|] eqn:Hq.
  - case_bool_decide; [|done]. intros [= <-]. cbn. done.
  - intros [= <-]. cbn. intros m p.
    destruct (decide (m = Naming.nn_method s)) as [->|Hne].
    + rewrite lookup_insert_eq. intros [= <-]. by apply startswith_drop_last4.
    + rewrite lookup_insert_ne by done. apply Ht.
Qed.

Lemma prepare_loop_values (by_name : gmap string Naming.Segment)
    (segments : list Naming.Segment) (t t' : Naming.Tables) :
  Naming.prepare_loop by_name t segments = (t', None) →
  (∀ m p, Naming._method_to_segment_prefix_map t !! m = Some p →
          startswith p unnamed_segment_prefix = false) →
  ∀ m p, Naming._method_to_segment_prefix_map t' !! m = Some p →
         startswith p unnamed_segment_prefix = false.
Proof.
  revert t. induction segments as [|s segments IH]; intros t; cbn.
  - by intros [= <-].
  - destruct (Naming.prepare_segment by_name t s) as [t1 [e|]] eqn:Hs; [done|].
    intros Hrest Ht. apply (IH t1 Hrest). by eapply prepare_segment_values.
Qed.

(** X11: the reserved prefix tells the unnamed segments apart.  When
    [_prepare_segments] has passed on the declared segments, and
    the loop of [segment_prefix_assignment_fn] has labelled a graph with the map it
    filled, the [segment_prefix] of a call node starts with [__unnamed_]
    exactly when the method of the node is not a registered one: the test
    [split_module_based_on_segment_info] and
    [_compile_fx_inner_for_graph_in_segment] make on the prefix is a test
    on the registration. *)
Theorem unnamed_prefix_marks_unregistered_methods (default_backend : string)
    (segments segments' : list Naming.Segment) (t t' : Naming.Tables) (id : nat)
    (nodes nodes' : list Graph.Node) (id' : nat) :
  (∀ m p, Naming._method_to_segment_prefix_map t !! m = Some p →
          startswith p unnamed_segment_prefix = false) →
  Naming._prepare_segments default_backend segments t = (segments', t', None) →
  Graph.assign_loop (Naming._method_to_segment_prefix_map t') false id nodes
  = (nodes', id', None) →
  ∀ j n n', nodes !! j = Some n → nodes' !! j = Some n' →
    Graph.is_call_func_node n = true →
    ∃ p, Graph.segment_prefix n' = Some p
         ∧ startswith p unnamed_segment_prefix
           = Graph.unnamed_call (Naming._method_to_segment_prefix_map t') n.
Proof.
  intros Ht Hprep Hrun j n n' Hn Hn' Hcall.
  assert (∀ m p, Naming._method_to_segment_prefix_map t' !! m = Some p →
                 startswith p unnamed_segment_prefix = false) as Ht'.
  { revert Hprep. unfold Naming._prepare_segments. cbv zeta. intros [= <- Hr He].
    destruct (Naming.prepare_loop _ t _) as [t1 e1] eqn:Hloop. cbn in Hr, He.
    subst t1 e1. by eapply prepare_loop_values. }
  destruct (assign_loop_shape _ _ _ _ _ _ Hrun) as (_ & _ & Hnodes).
  destruct (Hnodes j n Hn) as (n0 & Hn0 & _ & Hc).
  assert (Some n0 = Some n') as [= ->] by (rewrite <-Hn0; exact Hn').
  destruct (Hc Hcall) as (m & p & Hm & -> & Hp).
  exists p. split; [done|]. unfold Graph.unnamed_call. rewrite Hcall, Hm. cbn [andb].
  destruct (Naming._method_to_segment_prefix_map t' !! m) as [q|] eqn:Hq.
  - subst p. rewrite (Ht' m q Hq). symmetry. by apply bool_decide_eq_false.
  - destruct Hp as (k & -> & _). rewrite startswith_app. symmetry.
    by apply bool_decide_eq_true.
Qed.

(** ** The run, on tensors that are numbers *)

Module Examples.

Local Abbreviation start := (example_start (Tensor:=nat) (Fake:=nat)).
Local Abbreviation A_deferred := (example_A_deferred (Fake:=nat) 0 id (λ _, 0)).
Local Abbreviation B_run := (example_B_run (Fake:=nat) 0 id (λ _, 0)).
Local Abbreviation U_created := (example_U_created (Fake:=nat) 0 id (λ _, 0)).
Local Abbreviation call_A := (example_call_A (Fake:=nat) 0 id (λ _, 0)).
Local Abbreviation call_B := (example_call_B (Fake:=nat) 0 id (λ _, 0)).
Local Abbreviation call_U := (example_call_U (Fake:=nat) 0 id (λ _, 0)).

(** The first call, of [A_fwd], is deferred: [B_fwd] is scheduled before it
    and has no handle yet. *)
Lemma maybe_run_deferred_witness :
  ∃ w', call_A start = Some (w', inr [ArgAsync 0 0])
        ∧ "A_fwd" ∈ _recorded_delayed (scheduler w')
        ∧ _recorded_execution_order (scheduler w') = []
        ∧ calls w' = [] ∧ stdout w' = [].
Proof.
  destruct (maybe_run_deferred 0 id (λ _, 0) 2 gm_A (example_fn 0) "A_fwd"
              [ArgTensor 0] start)
    as (w' & cur & H & Hrun & Hmap & Hheap & Hdel & Hrec & Hcalls & Hout & _).
  - apply store_wf_example_start.
  - apply store_wf_example_start.
  - vm_compute. reflexivity.
  - assert (call_A start = Some (A_deferred, inr [ArgAsync 0 0])) as Hc
      by (vm_compute; reflexivity).
    exists w'. unfold example_call_A in *. rewrite Hrun in Hc |- *.
    injection Hc as _ Houts. rewrite Houts, Hdel, Hrec, Hcalls, Hout.
    split_and!; [done| |done..]. set_solver.
Defined.

(** The second call, of [B_fwd], is admitted with nothing preceding it:
    [B] runs, [A] stays deferred. *)
Lemma maybe_run_admission_walk_witness :
  registry_wf (scheduler A_deferred)
  ∧ call_B A_deferred = Some (B_run, inr [ArgAsync 1 0])
  ∧ _recorded_execution_order (scheduler B_run) = ["B_fwd"]
  ∧ (calls B_run).*1 = [1].
Proof.
  assert (registry_wf (scheduler A_deferred)) as Hwf
    by apply store_wf_example_A_deferred.
  split; [exact Hwf|]. unfold example_call_B.
  rewrite (maybe_run_admission_walk 0 id (λ _, 0) 2 gm_B (example_fn 0) "B_fwd"
             [ArgTensor 0] A_deferred Hwf).
  split_and!; vm_compute; reflexivity.
Defined.

(** The third call is of a segment outside the Schedule: the walk goes
    through the whole Schedule, and [schedule()] runs on the handle of [B]
    (which only says it is scheduled), on the deferred handle of [A], and on
    the current handle. *)
Lemma maybe_run_schedule_exhausted_witness :
  call_U B_run = Some (example_U_run 0 id (λ _, 0), inr [ArgAsync 2 0])
  ∧ _recorded_execution_order (scheduler (example_U_run (Fake:=nat) 0 id (λ _, 0)))
    = ["B_fwd"; "A_fwd"; "__unnamed_0_fwd"]
  ∧ (calls (example_U_run (Fake:=nat) 0 id (λ _, 0))).*1 = [1; 0; 2].
Proof.
  destruct (maybe_run_schedule_exhausted 0 id (λ _, 0) 2 gm_U (example_fn 0)
              "__unnamed_0_fwd" [ArgAsync 0 0; ArgAsync 1 0] B_run)
    as [Hspec Hrun].
  - intros name Hin.
    change (name ∈ ["B_fwd"; "A_fwd"]) in Hin.
    apply elem_of_cons in Hin as [->|Hin];
      [|apply elem_of_cons in Hin as [->|Hin]; [|by apply elem_of_nil in Hin]].
    + exists [gm_B]. split_and!; [vm_compute; reflexivity|done|].
      intros g ->%list_elem_of_singleton. split; [done|].
      vm_compute. by eexists.
    + exists [gm_A]. split_and!; [vm_compute; reflexivity|done|].
      intros g ->%list_elem_of_singleton. split; [done|].
      vm_compute. by eexists.
  - unfold example_call_U. rewrite Hrun. split_and!; vm_compute; reflexivity.
Defined.

Local Abbreviation shared_graph := (example_shared_graph (Fake:=nat) 0 id (λ _, 0)).
Local Abbreviation call_V := (example_call_V (Fake:=nat) 0 id (λ _, 0)).
Local Abbreviation created_V :=
  (get_or_create_handle 0 (λ _, 0) gm_V (example_fn 0) "__unnamed_0_fwd"
     [ArgTensor 0] shared_graph).1.

(** The name of the third call is not in the Schedule, every scheduled
    instance has a handle, and yet the walk does not go through the
    Schedule: it stops at the instance of [A_fwd], whose graph prints as the
    current one, with nothing preceding, and the deferred handle of [B] is
    not scheduled. *)
Lemma maybe_run_unscheduled_name_reaches_shared_graph :
  ("__unnamed_0_fwd" ∉ _schedule (scheduler shared_graph))
  ∧ (∀ name, name ∈ _schedule (scheduler shared_graph) →
       ∃ gs, _segment_to_gms_map (scheduler shared_graph) !! name = Some gs ∧ gs ≠ []
             ∧ ∀ g, g ∈ gs →
                 is_Some (_gm_to_handle_map (scheduler shared_graph) !! gm_id g))
  ∧ scheduled_handles (scheduler shared_graph) = [1; 0]
  ∧ ¬ scheduled (heap shared_graph) 0
  ∧ ∃ w', call_V shared_graph = Some (w', inr [ArgAsync 2 0])
          ∧ (calls w').*1 = [1; 2]
          ∧ ¬ scheduled (heap w') 0
          ∧ call_V shared_graph
            ≠ (bind (for_each (schedule 0 id 2)
                       (scheduled_handles (scheduler created_V) ++ [2]))
                 (λ _, return_outs_async 2)) created_V.
Proof.
  split_and!.
  - vm_compute. intros Hin. repeat (apply elem_of_cons in Hin as [Hin|Hin]; [discriminate|]).
    by apply elem_of_nil in Hin.
  - intros name Hin. change (name ∈ ["A_fwd"; "B_fwd"]) in Hin.
    apply elem_of_cons in Hin as [->|Hin];
      [|apply elem_of_cons in Hin as [->|Hin]; [|by apply elem_of_nil in Hin]].
    + exists [gm_A]. split_and!; [vm_compute; reflexivity|done|].
      intros g ->%list_elem_of_singleton. vm_compute. by eexists.
    + exists [gm_B]. split_and!; [vm_compute; reflexivity|done|].
      intros g ->%list_elem_of_singleton. vm_compute. by eexists.
  - vm_compute. reflexivity.
  - intros (H & Hh & Htok). vm_compute in Hh. injection Hh as <-.
    destruct Htok as [e He]. discriminate He.
  - eexists. split_and!; [vm_compute; reflexivity|vm_compute; reflexivity| |].
    + intros (H & Hh & Htok). vm_compute in Hh. injection Hh as <-.
      destruct Htok as [e He]. discriminate He.
    + intros Heq.
      apply (f_equal (λ r, match r with
                           | Some (w', _) => (calls w').*1
                           | None => []
                           end)) in Heq.
      vm_compute in Heq. discriminate Heq.
Qed.


(** [schedule] on the handle of the third call: the callable of [A], whose
    output it reads, runs first, and each of the two finds its inputs
    materialized. *)
Lemma schedule_inputs_materialized_before_call_witness :
  schedule 0 id 2 2 U_created = Some (world_after (schedule 0 id 2 2) U_created, inr ())
  ∧ (calls (world_after (schedule 0 id 2 2) U_created)).*1 = [1; 0; 2]
  ∧ ∃ new, calls (world_after (schedule 0 id 2 2) U_created) = calls U_created ++ new
           ∧ ∀ g σ, (g, σ) ∈ new → inputs_materialized σ g.
Proof.
  assert (schedule 0 id 2 2 U_created
          = Some (world_after (schedule 0 id 2 2) U_created, inr ())) as Hrun
    by (vm_compute; reflexivity).
  split_and!; [exact Hrun|vm_compute; reflexivity|].
  exact (schedule_inputs_materialized_before_call 0 id 2 2 U_created _ _ Hrun).
Defined.

(** Five [schedule] calls on three handles, one of them scheduled before:
    each callable has run once. *)
Lemma schedule_at_most_once_witness :
  exec_once U_created
  ∧ ∃ w', schedule_calls 0 id 2 [2; 2; 0; 1; 2] U_created = Some w'
          ∧ (calls w').*1 = [1; 0; 2]
          ∧ ∀ h, exec_count h (calls w') ≤ 1.
Proof.
  assert (exec_once U_created) as Hex by apply store_wf_example_U_created.
  split; [exact Hex|].
  exists (default U_created (schedule_calls 0 id 2 [2; 2; 0; 1; 2] U_created)).
  assert (schedule_calls 0 id 2 [2; 2; 0; 1; 2] U_created
          = Some (default U_created (schedule_calls 0 id 2 [2; 2; 0; 1; 2] U_created)))
    as Hrun by (vm_compute; reflexivity).
  split_and!; [exact Hrun|vm_compute; reflexivity|].
  exact (proj1 (schedule_at_most_once 0 id 2 _ U_created _ Hex Hrun)).
Defined.

(** The handle of [A] is deferred, not scheduled: waiting for it is a
    protocol error. *)
Lemma wait_for_completion_before_schedule_witness :
  wait_for_completion 0 0 A_deferred
  = Some (A_deferred, inl RuntimeError_not_scheduled).
Proof.
  apply (wait_for_completion_before_schedule 0 0
           (new_handle 0 (λ _, 0) (example_fn 0) "A_fwd" [ArgTensor 0] [None] 0)
           A_deferred).
  - vm_compute. reflexivity.
  - reflexivity.
Defined.

(** Nothing has run after the first call: the Execution Record is shorter
    than the Schedule. *)
Lemma debug_raises_mismatch_witness :
  debug 0 A_deferred
  = Some (A_deferred, inl (RuntimeError_report (MismatchReport ["B_fwd"; "A_fwd"] []))).
Proof.
  apply (debug_raises_mismatch 0 A_deferred). left. vm_compute. intros [=].
Defined.

(** Re-entries of one segment are coalesced. *)
Lemma record_execution_no_adjacent_duplicates_witness :
  ∃ w', for_each record_execution ["A_fwd"; "A_fwd"; "B_fwd"; "B_fwd"; "A_fwd"]
          (init (Tensor:=nat) (Fake:=nat) ["A_fwd"; "B_fwd"]) = Some (w', inr ())
        ∧ _recorded_execution_order (scheduler w') = ["A_fwd"; "B_fwd"; "A_fwd"]
        ∧ no_adjacent_duplicates (_recorded_execution_order (scheduler w')).
Proof.
  destruct (proj2 (record_execution_no_adjacent_duplicates
                     ["A_fwd"; "A_fwd"; "B_fwd"; "B_fwd"; "A_fwd"]
                     (init (Tensor:=nat) (Fake:=nat) ["A_fwd"; "B_fwd"])
                     no_adjacent_duplicates_nil)) as (w' & Hrun & Hnd).
  exists w'. split_and!; [exact Hrun| |exact Hnd].
  assert (for_each record_execution ["A_fwd"; "A_fwd"; "B_fwd"; "B_fwd"; "A_fwd"]
            (init (Tensor:=nat) (Fake:=nat) ["A_fwd"; "B_fwd"])
          = Some (world_after
                    (for_each record_execution
                       ["A_fwd"; "A_fwd"; "B_fwd"; "B_fwd"; "A_fwd"])
                    (init ["A_fwd"; "B_fwd"]), inr ())) as Hc
    by (vm_compute; reflexivity).
  rewrite Hrun in Hc. injection Hc as ->. vm_compute. reflexivity.
Defined.

(** The whole run ends with the Execution Record, without the unnamed
    segment, equal to the Schedule; [debug] raises its report all the same,
    with no issue in it. *)
Lemma debug_raises_when_aligned_witness :
  ∃ delayed,
    debug 0 (example_U_run (Fake:=nat) 0 id (λ _, 0))
    = Some (example_U_run 0 id (λ _, 0),
            inl (RuntimeError_report (DebugModeReport [] delayed ∅ ∅)))
    ∧ "A_fwd" ∈ delayed.
Proof.
  eexists. split.
  - apply (debug_raises_when_aligned 0 (example_U_run (Fake:=nat) 0 id (λ _, 0))).
    vm_compute. reflexivity.
  - vm_compute. set_solver.
Defined.


(** Before that call the inputs of the third handle were not materialized. *)
Lemma inputs_not_materialized_before_schedule :
  ¬ inputs_materialized (heap U_created) 2.
Proof.
  intros Hm.
  assert (is_materialized (heap U_created) 0 0 = true) as Hc.
  { apply (Hm (new_handle 0 (λ _, 0) (example_fn 0) "__unnamed_0_fwd"
                 [ArgAsync 0 0; ArgAsync 1 0] [None] 2)); [vm_compute; reflexivity|left]. }
  vm_compute in Hc. discriminate Hc.
Qed.

(** The example of the comment in [debug]: the schedule is [B, C, A], the
    recorded execution order is [B, A, C]. *)
Lemma find_delayed_seg_dependencies_example :
  Diagnostics.find_delayed_seg_dependencies_best_effort 1 ["B"; "C"; "A"] ["B"; "A"; "C"]
  = Some (inr ("- The code starting from end of `B` (exclusive) to end of `C` "
               +:+ "(inclusive) depends on output of `A`")).
Proof. vm_compute. reflexivity. Qed.

(** With repeated names the reverse scan can also stop with the
    [ValueError] of [list.remove]. *)
Lemma find_delayed_seg_dependencies_value_error :
  Diagnostics.find_delayed_seg_dependencies_best_effort 1
    ["A_fwd"; "A_fwd"; "B_fwd"] ["A_fwd"; "B_fwd"; "B_fwd"]
  = Some (inl ValueError).
Proof. vm_compute. reflexivity. Qed.


(** Every handle of the run is runnable, and the third call returns on
    those grounds. *)
Lemma example_runnable : runnable_below 3 (heap U_created).
Proof.
  intros h H Hh HH.
  destruct h as [|[|[|h]]]; [| | |lia]; vm_compute in HH; injection HH as <-;
    (split_and!;
     [ intros g k Hin; cbn in Hin
     | intros ts; eexists; split; [reflexivity|cbn; lia]
     | (by left) || (right; eexists; split; [reflexivity|cbn; lia]) ]).
  - by apply list_elem_of_singleton in Hin.
  - by apply list_elem_of_singleton in Hin.
  - apply elem_of_cons in Hin as [[= -> ->]|Hin];
      [|apply list_elem_of_singleton in Hin as [= -> ->]].
    + split; [lia|]. eexists. split; [vm_compute; reflexivity|cbn; lia].
    + split; [lia|]. eexists. split; [vm_compute; reflexivity|cbn; lia].
Qed.

Lemma maybe_run_returns_witness :
  ∃ w' H, maybe_run 0 id (λ _, 0) 3 gm_U (example_fn 0) "__unnamed_0_fwd"
            [ArgAsync 0 0; ArgAsync 1 0] B_run
          = Some (w', inr (outs_async_of 2 H))
          ∧ heap w' !! 2 = Some H ∧ scheduled (heap w') 2.
Proof.
  assert (length (heap U_created) = 3) as Hlen by (vm_compute; reflexivity).
  assert ((get_or_create_handle 0 (λ _, 0) gm_U (example_fn 0) "__unnamed_0_fwd"
             [ArgAsync 0 0; ArgAsync 1 0] B_run).2 = 2) as Hcur
    by (vm_compute; reflexivity).
  pose proof (maybe_run_returns 0 id (λ _, 0) 3 gm_U (example_fn 0) "__unnamed_0_fwd"
                [ArgAsync 0 0; ArgAsync 1 0] B_run) as Hret.
  assert ((get_or_create_handle 0 (λ _, 0) gm_U (example_fn 0) "__unnamed_0_fwd"
             [ArgAsync 0 0; ArgAsync 1 0] B_run).1 = U_created) as Hw1
    by (unfold example_U_created; reflexivity).
  cbv zeta in Hret. rewrite Hcur, Hw1, Hlen in Hret.
  destruct Hret as (w' & H & Hrun & HH & Hs).
  - apply store_wf_example_B_run.
  - apply store_wf_example_B_run.
  - apply example_runnable.
  - lia.
  - exists w', H. split_and!; [done..|].
    apply Hs. vm_compute. discriminate.
Defined.


(** *** Segment names and declared segments *)

Local Abbreviation segment_A_fwd :=
  {| Naming.name := "A_fwd"; Naming.nn_method := 0; Naming.nth_call := 0;
     Naming.backend := None |}.
Local Abbreviation segment_A_bwd :=
  {| Naming.name := "A_bwd"; Naming.nn_method := 0; Naming.nth_call := 0;
     Naming.backend := Some "aot_eager" |}.
Local Abbreviation segment_B_fwd :=
  {| Naming.name := "B_fwd"; Naming.nn_method := 1; Naming.nth_call := 0;
     Naming.backend := Some "eager" |}.
Local Abbreviation no_tables :=
  {| Naming._method_to_segment_prefix_map := ∅;
     Naming._segment_prefix_to_backend := ∅ |}.
Local Abbreviation declared := [segment_A_fwd; segment_A_bwd; segment_B_fwd].
Local Abbreviation prepared := (Naming._prepare_segments "aot_eager" declared no_tables).

(** Of a record with a declared, an unnamed and an unregistered name the
    declared one is what the user sees. *)
Lemma get_recorded_execution_order_user_names_witness :
  get_recorded_execution_order
    (set_recorded_execution_order ["A_fwd"; "__unnamed_0_fwd"; "__unregistered_A_bwd"]
       (scheduler (init (Tensor:=nat) (Fake:=nat) [])))
  = ["A_fwd"].
Proof.
  rewrite (get_recorded_execution_order_user_names {["A_fwd"]}).
  - vm_compute. reflexivity.
  - intros n ->%elem_of_singleton. split; vm_compute; reflexivity.
  - repeat constructor.
    + exists "A", false. vm_compute. reflexivity.
    + exists "__unnamed_0", false. vm_compute. reflexivity.
    + exists "A", true. vm_compute. reflexivity.
Defined.

(** Three declared segments, two of one method, pass the checks. *)
Lemma prepare_segments_passed_witness :
  prepared = (prepared.1.1, prepared.1.2, None)
  ∧ Naming.name <$> prepared.1.1 = ["A_fwd"; "A_bwd"; "B_fwd"]
  ∧ Naming._method_to_segment_prefix_map prepared.1.2 !! 0 = Some "A"
  ∧ Naming._method_to_segment_prefix_map prepared.1.2 !! 1 = Some "B".
Proof.
  assert (prepared = (prepared.1.1, prepared.1.2, None)) as Hrun
    by (vm_compute; reflexivity).
  split; [exact Hrun|].
  destruct (prepare_segments_passed _ _ _ _ _ Hrun) as [Hnames Hall].
  split; [exact Hnames|].
  split.
  - destruct (Hall (Naming.with_default_backend "aot_eager" segment_A_fwd))
      as (_ & _ & _ & _ & Hm & _); [left|exact Hm].
  - destruct (Hall segment_B_fwd) as (_ & _ & _ & _ & Hm & _);
      [right; right; left|exact Hm].
Defined.

(** *** Graphs *)

Local Abbreviation call m p :=
  {| Graph.op := "call_function"; Graph.target := "aten.mm.default";
     Graph.segment_prefix := p; Graph.nn_module_method := m;
     Graph.segment := None |}.
Local Abbreviation placeholder :=
  {| Graph.op := "placeholder"; Graph.target := "x";
     Graph.segment_prefix := None; Graph.nn_module_method := None;
     Graph.segment := None |}.

Lemma extract_segment_prefix_sound_witness :
  Forall (λ n, Graph.is_call_func_node n = true → Graph.segment_prefix n = Some "A")
    [placeholder; call (Some 0) (Some "A"); call (Some 0) (Some "A")].
Proof.
  apply Forall_forall, extract_segment_prefix_sound.
  - vm_compute. reflexivity.
  - apply (proj1 (Forall_forall
             (λ n, Graph.is_call_func_node n = true → Graph.segment_prefix n ≠ Some "") _)).
    by repeat constructor.
Defined.

(** The segments [A], [B] and [A] again: the two runs of [A] are one
    partition. *)
Local Abbreviation graph_ABA :=
  [placeholder; call (Some 0) (Some "A"); call (Some 0) (Some "A");
   call (Some 1) (Some "B"); call (Some 0) (Some "A")].

Lemma split_callback_partitions_witness :
  Graph.known_segments graph_ABA = inr ["A"; "B"; "A"]
  ∧ Graph.split_callback ["A"; "B"; "A"] (call (Some 0) (Some "A")) = inr 0
  ∧ (Graph.split_callback ["A"; "B"; "A"] (call (Some 0) (Some "A"))
     = Graph.split_callback ["A"; "B"; "A"] (call (Some 1) (Some "B"))
     ↔ Some "A" = Some "B").
Proof.
  assert (Graph.known_segments graph_ABA = inr ["A"; "B"; "A"]) as Hks
    by (vm_compute; reflexivity).
  destruct (split_callback_partitions graph_ABA _ Hks) as (_ & _ & Hsame).
  split; [exact Hks|]. split; [vm_compute; reflexivity|].
  apply (Hsame (call (Some 0) (Some "A")) (call (Some 1) (Some "B")));
    [by right; left|by do 3 right; left|done..].
Defined.

(** A graph of an unregistered method, the registered method [0], and the
    unregistered method again. *)
Local Abbreviation methods := ({[0 := "A"]} : gmap nat string).
Local Abbreviation graph_UAU :=
  [placeholder; call (Some 5) None; call (Some 5) None; call (Some 0) None;
   call (Some 6) None].
Local Abbreviation labelled := (Graph.assign_loop methods false 0 graph_UAU).

Lemma segment_prefix_assignment_labels_witness :
  labelled = (labelled.1.1, labelled.1.2, None)
  ∧ 0 ≤ labelled.1.2
  ∧ length labelled.1.1 = 5.
Proof.
  assert (labelled = (labelled.1.1, labelled.1.2, None)) as Hrun
    by (vm_compute; reflexivity).
  split; [exact Hrun|].
  destruct (segment_prefix_assignment_labels _ _ _ _ _ Hrun) as (Hid & Hlen & _).
  split; [exact Hid|exact Hlen].
Defined.

Lemma unnamed_segments_split_by_named_calls_witness :
  (Some "__unnamed_0" = Some "__unnamed_1"
   ↔ ∀ k nk, 1 < k < 4 → graph_UAU !! k = Some nk →
       Graph.named_call methods nk = false).
Proof.
  apply (unnamed_segments_split_by_named_calls methods 0 graph_UAU
           labelled.1.1 labelled.1.2 1 4
           (call (Some 5) None) (call (Some 6) None)
           (call (Some 5) (Some "__unnamed_0"))
           (call (Some 6) (Some "__unnamed_1")));
    try (vm_compute; reflexivity).
  lia.
Defined.

Lemma assignment_then_split_witness :
  ∃ ks, Graph.known_segments labelled.1.1 = inr ks
        ∧ ∀ n', n' ∈ labelled.1.1 → Graph.is_call_func_node n' = true →
            ∃ i, Graph.split_callback ks n' = inr i ∧ i < length ks.
Proof.
  apply (assignment_then_split methods 0 graph_UAU labelled.1.1 labelled.1.2).
  vm_compute. reflexivity.
Defined.

Lemma unnamed_prefix_marks_unregistered_methods_witness :
  ∃ p, Graph.segment_prefix (call (Some 5) (Some "__unnamed_0")) = Some p
       ∧ startswith p unnamed_segment_prefix
         = Graph.unnamed_call (Naming._method_to_segment_prefix_map prepared.1.2)
             (call (Some 5) None).
Proof.
  refine (unnamed_prefix_marks_unregistered_methods "aot_eager" declared prepared.1.1
            no_tables prepared.1.2 0
            [call (Some 5) None; call (Some 0) None]
            [call (Some 5) (Some "__unnamed_0"); call (Some 0) (Some "A")] 1
            _ _ _ 0 (call (Some 5) None) (call (Some 5) (Some "__unnamed_0")) _ _ _);
    try (vm_compute; reflexivity).
  intros m p Hm. cbn in Hm. by rewrite lookup_empty in Hm.
Defined.

(** *** Diagnostics *)

Lemma find_delayed_seg_dependencies_raises_witness :
  Diagnostics.find_delayed_seg_dependencies_best_effort 0 ["A_fwd"; "B_fwd"] ["A_fwd"]
  = Some (inl AssertionError)
  ∧ (Diagnostics.find_delayed_seg_dependencies_best_effort 1
       ["A_fwd"; "A_fwd"; "B_fwd"] ["A_fwd"; "B_fwd"; "B_fwd"] = Some (inl ValueError)
     ∧ (ValueError = AssertionError ∨ ValueError = ValueError)).
Proof.
  split.
  - apply (proj1 (find_delayed_seg_dependencies_raises 0 ["A_fwd"; "B_fwd"] ["A_fwd"])).
    cbn. lia.
  - assert (Diagnostics.find_delayed_seg_dependencies_best_effort 1
              ["A_fwd"; "A_fwd"; "B_fwd"] ["A_fwd"; "B_fwd"; "B_fwd"]
            = Some (inl ValueError)) as Hrun by (vm_compute; reflexivity).
    split; [exact Hrun|].
    exact (proj2 (find_delayed_seg_dependencies_raises _ _ _) _ Hrun).
Defined.

Lemma debug_always_raises_witness :
  ∃ w' r, debug 0 (init (Tensor:=nat) (Fake:=nat) ["A_fwd"]) = Some (w', r)
          ∧ w' = init ["A_fwd"]
          ∧ ((∃ rep, r = inl (RuntimeError_report rep)) ∨ r = inl ValueError).
Proof.
  eexists _, _. split; [vm_compute; reflexivity|].
  apply (debug_always_raises 0 (init (Tensor:=nat) (Fake:=nat) ["A_fwd"])).
  vm_compute. reflexivity.
Defined.

(** *** The handle protocol *)

Lemma debug_raises_report_nodup_witness :
  ∃ rep, debug 1 (example_reordered (Tensor:=nat) (Fake:=nat))
         = Some (example_reordered, inl (RuntimeError_report rep))
         ∧ rep = DebugModeReport
                   [(["B_fwd"; "A_fwd"], ["A_fwd"; "B_fwd"],
                     "- The code starting from end of `A_fwd` (exclusive) to end of "
                     +:+ "`B_fwd` (inclusive) depends on output of `A_fwd`")] ∅ ∅ ∅.
Proof.
  assert (_schedule (scheduler (example_reordered (Tensor:=nat) (Fake:=nat)))
          = ["B_fwd"; "A_fwd"]) as Hs by (vm_compute; reflexivity).
  assert (get_recorded_execution_order
            (scheduler (example_reordered (Tensor:=nat) (Fake:=nat)))
          = ["A_fwd"; "B_fwd"]) as Hr by (vm_compute; reflexivity).
  destruct (debug_raises_report_nodup 1 (example_reordered (Tensor:=nat) (Fake:=nat)))
    as [rep Hrep].
  - rewrite Hs. apply (bool_decide_unpack _). vm_compute. exact I.
  - rewrite Hr. apply (bool_decide_unpack _). vm_compute. exact I.
  - rewrite Hs. cbn. lia.
  - exists rep. split; [exact Hrep|].
    assert (debug 1 (example_reordered (Tensor:=nat) (Fake:=nat))
            = Some (example_reordered, inl (RuntimeError_report
                (DebugModeReport
                   [(["B_fwd"; "A_fwd"], ["A_fwd"; "B_fwd"],
                     "- The code starting from end of `A_fwd` (exclusive) to end of "
                     +:+ "`B_fwd` (inclusive) depends on output of `A_fwd`")] ∅ ∅ ∅))))
      as Hc by (vm_compute; reflexivity).
    rewrite Hrep in Hc. by injection Hc as ->.
Defined.


(** The placeholder of [B] after [B] ran. *)
Lemma wait_for_completion_writes_outputs_witness :
  ∃ w', wait_for_completion 0 1 B_run = Some (w', inr tt)
        ∧ get_materialized_tensor (heap w') 1 0 = Some 0
        ∧ heap w' !! 0 = heap B_run !! 0.
Proof.
  assert (∃ H os, heap B_run !! 1 = Some H ∧ cuda_event H = Some {| recorded := true |}
                  ∧ outs H = Some os ∧ os = [Some 0] ∧ length (outs_async H) = 1)
    as (H & os & Hh & Htok & Hos & -> & Hlen).
  { eexists _, _. split_and!; [vm_compute; reflexivity|reflexivity..]. }
  destruct (wait_for_completion_writes_outputs 0 1 H [Some 0] B_run Hh)
    as (w' & Hrun & _ & _ & _ & _ & Hother & Hval); [by rewrite Htok|done|].
  exists w'. split_and!; [done| |by apply Hother].
  rewrite Hval. cbn. destruct (outs_async H) as [|p [|? ?]]; done.
Defined.

Lemma schedule_then_wait_materializes_witness :
  ∃ w', (bind (schedule 0 id 2 2) (λ _, wait_for_completion 0 2)) U_created
        = Some (w', inr tt)
        ∧ is_materialized (heap w') 2 0 = true.
Proof.
  assert (length (heap U_created) = 3) as Hlen by (vm_compute; reflexivity).
  destruct (schedule_then_wait_materializes 0 id 2 2 U_created) as (w' & Hrun & Hm).
  - lia.
  - rewrite Hlen. lia.
  - apply example_runnable.
  - exists w'. split; [done|].
    apply (Hm (new_handle 0 (λ _, 0) (example_fn 0) "__unnamed_0_fwd"
                 [ArgAsync 0 0; ArgAsync 1 0] [None] 2)); [vm_compute; reflexivity|].
    cbn. lia.
Defined.

Lemma maybe_run_keeps_store_invariant_witness :
  store_wf start ∧ store_wf A_deferred.
Proof.
  split; [apply store_wf_example_start|].
  apply (maybe_run_keeps_store_invariant 0 id (λ _, 0) 2 gm_A (example_fn 0) "A_fwd"
           [ArgTensor 0] start A_deferred (inr [ArgAsync 0 0])).
  - apply store_wf_example_start.
  - vm_compute. reflexivity.
Defined.

(** The second call of the run invokes the callable of [B] and no other. *)
Lemma maybe_run_calls_materialized_witness :
  call_B A_deferred = Some (B_run, inr [ArgAsync 1 0])
  ∧ ∃ new, calls B_run = calls A_deferred ++ new
           ∧ NoDup new.*1
           ∧ ∀ g σ, (g, σ) ∈ new →
               inputs_materialized σ g
               ∧ ¬ scheduled (heap A_deferred) g ∧ scheduled (heap B_run) g.
Proof.
  assert (call_B A_deferred = Some (B_run, inr [ArgAsync 1 0])) as Hrun
    by (vm_compute; reflexivity).
  split; [exact Hrun|].
  exact (proj2 (proj2 (proj2
    (maybe_run_calls_materialized 0 id (λ _, 0) 2 gm_B (example_fn 0) "B_fwd"
       [ArgTensor 0] A_deferred B_run (inr [ArgAsync 1 0]) Hrun)))).
Defined.


(** *** Method names and backends *)

Lemma extract_method_name_round_trip_witness :
  Naming.extract_method_name "forward" = "forward"
  ∧ Naming.extract_method_name "_compiled_wrapper###Net###forward" = "forward".
Proof.
  apply (extract_method_name_round_trip "Net" "forward");
    unfold Naming.no_hash; cbn; by repeat constructor.
Defined.

Lemma prepare_segments_backend_table_witness :
  prepared = (prepared.1.1, prepared.1.2, None)
  ∧ Naming.compile_backend "aot_eager" prepared.1.2 (Some "A") = Some "aot_eager"
  ∧ Naming.compile_backend "aot_eager" prepared.1.2 (Some "B") = Some "eager".
Proof.
  assert (prepared = (prepared.1.1, prepared.1.2, None)) as Hrun
    by (vm_compute; reflexivity).
  split; [exact Hrun|].
  destruct (prepare_segments_backend_table "aot_eager" declared prepared.1.1
              no_tables prepared.1.2) as [Hin _]; [|exact Hrun|].
  - apply (bool_decide_unpack _). vm_compute. exact I.
  - split.
    + apply (Hin segment_A_fwd). left.
    + apply (Hin segment_B_fwd). do 2 right. left.
Defined.

End Examples.
